(** * Citation subsystem of patternizer.github.io (src/main.js, lines 744-969)

    A shallow embedding of the BibTeX indexing, entry resolution and
    APA formatting functions of [main.js], and the properties of the
    specification that are settled on it.

    Strings are sequences of UTF-16 code units, as in JavaScript.  The
    regular expressions of the source are kept as syntax trees and run
    by a backtracking matcher that follows the ECMAScript matching
    rules (priority of alternatives, greedy and lazy quantifiers, the
    empty-iteration check, leftmost search).

    Two built-ins are modelled on a part of their domain: the case
    mapping of [toLowerCase] and [toUpperCase] covers U+0000 to U+00FF,
    and a field name handed to [RegExp] by [getBibField] is read as
    literal text, as it is for the names made of letters, digits, [_]
    and [-] that the source passes. *)

From Stdlib Require Import String Ascii.
From Stdlib Require Import List NArith Arith Bool Lia.
Import ListNotations.

Set Implicit Arguments.

(* ================================================================= *)
(** ** Strings *)

Module JS.

(** A JavaScript string: a list of UTF-16 code units. *)
Definition jsstring := list N.

Definition code_units (cp : N) : jsstring :=
  (if cp <? 65536 then [cp]
   else let v := cp - 65536 in [55296 + v / 1024; 56320 + v mod 1024])%N.

(** Decoding of the UTF-8 bytes of a literal of this file into code
    units; [need] continuation bytes are still expected for the code
    point accumulated in [acc]. *)
Fixpoint utf8_go (need : nat) (acc : N) (bs : list N) : jsstring :=
  match bs with
  | [] => []
  | b :: bs' =>
      match need with
      | O =>
          (if b <? 128 then b :: utf8_go 0 0 bs'
           else if b <? 224 then utf8_go 1 (b - 192) bs'
           else if b <? 240 then utf8_go 2 (b - 224) bs'
           else utf8_go 3 (b - 240) bs')%N
      | S n =>
          let acc' := (acc * 64 + (b - 128))%N in
          match n with
          | O => code_units acc' ++ utf8_go 0 0 bs'
          | S _ => utf8_go n acc' bs'
          end
      end
  end.

Definition js (s : string) : jsstring :=
  utf8_go 0 0 (map N_of_ascii (list_ascii_of_string s)).

Fixpoint eqs (a b : jsstring) : bool :=
  match a, b with
  | [], [] => true
  | x :: a', y :: b' => (x =? y)%N && eqs a' b'
  | _, _ => false
  end.

(** Truthiness of a string: every string but the empty one. *)
Definition truthy (s : jsstring) : bool :=
  match s with [] => false | _ :: _ => true end.

(** [a || b] on strings. *)
Definition or_else (a b : jsstring) : jsstring :=
  if truthy a then a else b.

(* ----------------------------------------------------------------- *)
(** *** Character classes *)

Definition in_range (lo hi c : N) : bool := ((lo <=? c) && (c <=? hi))%N.

(** WhiteSpace and LineTerminator of ECMAScript: the class [\s], and
    what [trim] removes. *)
Definition isSpace (c : N) : bool :=
  in_range 9 13 c || (c =? 32)%N || (c =? 160)%N || (c =? 5760)%N
  || in_range 8192 8202 c || (c =? 8232)%N || (c =? 8233)%N
  || (c =? 8239)%N || (c =? 8287)%N || (c =? 12288)%N || (c =? 65279)%N.

Definition isDigit (c : N) : bool := in_range 48 57 c.
Definition isLower (c : N) : bool := in_range 97 122 c.
Definition isUpper (c : N) : bool := in_range 65 90 c.

(** The class [\w], which decides [\b]. *)
Definition isWordChar (c : N) : bool :=
  isLower c || isUpper c || isDigit c || (c =? 95)%N.

(* ----------------------------------------------------------------- *)
(** *** Case mapping

    The case mapping covers Basic Latin and the Latin-1 Supplement
    (U+0000 to U+00FF); a code unit above U+00FF is left as it is. *)

Definition lowerCU (c : N) : N :=
  (if isUpper c then c + 32
   else if in_range 192 222 c && negb (c =? 215) then c + 32
   else c)%N.

Definition upperCU (c : N) : jsstring :=
  (if isLower c then [c - 32]
   else if in_range 224 254 c && negb (c =? 247) then [c - 32]
   else if c =? 255 then [376]
   else if c =? 181 then [924]
   else if c =? 223 then [83; 83]
   else [c])%N.

Definition toLowerCase (s : jsstring) : jsstring := map lowerCU s.
Definition toUpperCase (s : jsstring) : jsstring := flat_map upperCU s.

(** Canonicalize of a pattern with the [i] flag and without the [u]
    flag: the upper case of the code unit when that is one code unit,
    and never a Basic Latin one for a code unit outside Basic Latin. *)
Definition canonicalize (c : N) : N :=
  match upperCU c with
  | [u] => if (128 <=? c)%N && (u <? 128)%N then c else u
  | _ => c
  end.

(* ----------------------------------------------------------------- *)
(** *** String methods *)

Fixpoint trimStart (s : jsstring) : jsstring :=
  match s with
  | c :: s' => if isSpace c then trimStart s' else s
  | [] => []
  end.

Definition trimEnd (s : jsstring) : jsstring := rev (trimStart (rev s)).

Definition trim (s : jsstring) : jsstring := trimEnd (trimStart s).

(** [s.slice(a, b)] for [0 <= a] and [0 <= b]. *)
Definition slice (s : jsstring) (a b : nat) : jsstring :=
  firstn (b - a) (skipn a s).

Fixpoint startsWith (p s : jsstring) : bool :=
  match p, s with
  | [], _ => true
  | x :: p', y :: s' => (x =? y)%N && startsWith p' s'
  | _ :: _, [] => false
  end.

(** [s.includes(t)] *)
Fixpoint includes (s t : jsstring) : bool :=
  startsWith t s || match s with [] => false | _ :: s' => includes s' t end.

(** [s.indexOf(ch, from)] for a one-character [ch]; [None] is [-1]. *)
Fixpoint indexOf_from (ch : N) (s : jsstring) (i : nat) : option nat :=
  match s with
  | [] => None
  | c :: s' => if (c =? ch)%N then Some i else indexOf_from ch s' (S i)
  end.

Definition indexOf (s : jsstring) (ch : N) (from : nat) : option nat :=
  indexOf_from ch (skipn from s) from.

(** [s.split(ch)] for a one-character separator. *)
Fixpoint splitChar_go (ch : N) (cur : jsstring) (s : jsstring) : list jsstring :=
  match s with
  | [] => [rev cur]
  | c :: s' =>
      if (c =? ch)%N then rev cur :: splitChar_go ch [] s'
      else splitChar_go ch (c :: cur) s'
  end.

Definition splitChar (s : jsstring) (ch : N) : list jsstring :=
  splitChar_go ch [] s.

(** [a.join(sep)] *)
Fixpoint join (sep : jsstring) (a : list jsstring) : jsstring :=
  match a with
  | [] => []
  | [x] => x
  | x :: a' => x ++ sep ++ join sep a'
  end.

End JS.
Import JS.

(* ================================================================= *)
(** ** Regular expressions *)

Module RegExp.

(** The patterns of [main.js] use character classes, sequences,
    alternatives, greedy and lazy repetition, one capture group, the
    anchors [^] and [$] (never with the [m] flag) and [\b]. *)
Inductive regex : Type :=
| Empty
| Class (p : N -> bool)
| Seq (r1 r2 : regex)
| Alt (r1 r2 : regex)
| Star (greedy : bool) (r : regex)
| Group (r : regex)
| Bol
| Eol
| WordB.

(** A position in the subject: the code units before it, nearest
    first, and those after it. *)
Record cursor := Cursor { before : list N; after : list N }.

Definition caps := option (cursor * cursor).
Definition outcome := option (cursor * caps).
Definition cont := cursor -> caps -> outcome.

Definition isWordAt (o : option N) : bool :=
  match o with Some c => isWordChar c | None => false end.

(** The iterations of a quantifier [*] or [*?] over the step [step]:
    an iteration that consumes nothing is dropped, and [fuel] bounds
    the number of iterations by the code units left. *)
Fixpoint starLoop (step : cursor -> caps -> cont -> outcome) (greedy : bool)
    (k : cont) (fuel : nat) (c : cursor) (g : caps) {struct fuel} : outcome :=
  match fuel with
  | O => None
  | S fuel' =>
      if greedy then
        match step c g (fun c' g' =>
                 if length (after c') <? length (after c)
                 then starLoop step greedy k fuel' c' g' else None) with
        | Some res => Some res
        | None => k c g
        end
      else
        match k c g with
        | Some res => Some res
        | None =>
            step c g (fun c' g' =>
                 if length (after c') <? length (after c)
                 then starLoop step greedy k fuel' c' g' else None)
        end
  end.

(** The matcher of a pattern at the position [c], with the capture
    [g] so far and the continuation [k]. *)
Fixpoint matcher (r : regex) (c : cursor) (g : caps) (k : cont) {struct r} : outcome :=
  match r with
  | Empty => k c g
  | Class p =>
      match after c with
      | x :: rest => if p x then k (Cursor (x :: before c) rest) g else None
      | [] => None
      end
  | Seq r1 r2 => matcher r1 c g (fun c' g' => matcher r2 c' g' k)
  | Alt r1 r2 =>
      match matcher r1 c g k with
      | Some res => Some res
      | None => matcher r2 c g k
      end
  | Star greedy r1 =>
      starLoop (matcher r1) greedy k (S (length (after c))) c g
  | Group r1 => matcher r1 c g (fun c' _ => k c' (Some (c, c')))
  | Bol => match before c with [] => k c g | _ :: _ => None end
  | Eol => match after c with [] => k c g | _ :: _ => None end
  | WordB =>
      if xorb (isWordAt (hd_error (before c))) (isWordAt (hd_error (after c)))
      then k c g else None
  end.

Definition accept : cont := fun c g => Some (c, g).

(** The text between two positions of one subject. *)
Definition between (c1 c2 : cursor) : jsstring :=
  firstn (length (after c1) - length (after c2)) (after c1).

Record found := Found { m_start : cursor; m_end : cursor; m_caps : caps }.

Definition matched (f : found) : jsstring := between (m_start f) (m_end f).

(** The text of capture group 1; the empty list when the group did
    not take part (the source reads it only where it did). *)
Definition group1 (f : found) : jsstring :=
  match m_caps f with Some (a, b) => between a b | None => [] end.

(** Leftmost match at or after a position. *)
Fixpoint search (r : regex) (bef aft : list N) {struct aft} : option found :=
  match matcher r (Cursor bef aft) None accept with
  | Some (c', g) => Some (Found (Cursor bef aft) c' g)
  | None =>
      match aft with
      | [] => None
      | x :: aft' => search r (x :: bef) aft'
      end
  end.

(** [r.exec(s)] for a pattern without the [g] flag, [s.match(r)]. *)
Definition exec (r : regex) (s : jsstring) : option found := search r [] s.

(** [r.test(s)] *)
Definition test (r : regex) (s : jsstring) : bool :=
  match exec r s with Some _ => true | None => false end.

(** [s.replace(r, f)] for a pattern without the [g] flag. *)
Definition replace (r : regex) (f : found -> jsstring) (s : jsstring) : jsstring :=
  match exec r s with
  | None => s
  | Some fd => rev (before (m_start fd)) ++ f fd ++ after (m_end fd)
  end.

(** [s.replace(r, f)] for a pattern with the [g] flag, from a position
    on: after an empty match the search resumes one code unit later. *)
Fixpoint replaceAll_go (fuel : nat) (r : regex) (f : found -> jsstring)
    (bef aft : list N) : jsstring :=
  match fuel with
  | O => aft
  | S fuel' =>
      match search r bef aft with
      | None => aft
      | Some fd =>
          between (Cursor bef aft) (m_start fd) ++ f fd ++
          (if length (after (m_end fd)) <? length (after (m_start fd))
           then replaceAll_go fuel' r f (before (m_end fd)) (after (m_end fd))
           else match after (m_end fd) with
                | [] => []
                | x :: rest =>
                    x :: replaceAll_go fuel' r f (x :: before (m_end fd)) rest
                end)
      end
  end.

Definition replaceAll (r : regex) (f : found -> jsstring) (s : jsstring) : jsstring :=
  replaceAll_go (S (length s)) r f [] s.

(** [s.split(r)] for a pattern without capture groups: [p] code units
    precede the piece being collected in [cur], the matcher is tried
    at the position [bef | aft], and a match that ends at [p] is
    skipped. *)
Fixpoint split_go (fuel : nat) (r : regex) (p : nat) (cur : jsstring)
    (bef aft : list N) : list jsstring :=
  match fuel with
  | O => []
  | S fuel' =>
      match aft with
      | [] => [rev cur]
      | x :: aft' =>
          match matcher r (Cursor bef aft) None accept with
          | Some (c', _) =>
              if length (before c') =? p
              then split_go fuel' r p (x :: cur) (x :: bef) aft'
              else rev cur :: split_go fuel' r (length (before c')) [] (before c') (after c')
          | None => split_go fuel' r p (x :: cur) (x :: bef) aft'
          end
      end
  end.

Definition split (r : regex) (s : jsstring) : list jsstring :=
  match s with
  | [] => match matcher r (Cursor [] []) None accept with
          | Some _ => []
          | None => [[]]
          end
  | _ :: _ => split_go (2 * length s + 2) r 0 [] [] s
  end.

(* ----------------------------------------------------------------- *)
(** *** Pattern syntax *)

Definition chr (c : N) : regex := Class (N.eqb c).
Definition chrI (c : N) : regex :=
  Class (fun x => (canonicalize x =? canonicalize c)%N).
Definition oneOf (s : jsstring) : regex :=
  Class (fun x => existsb (N.eqb x) s).
Definition any : regex := Class (fun _ => true).
Definition space : regex := Class isSpace.
Definition digit : regex := Class isDigit.
Definition lower : regex := Class isLower.
Definition upper : regex := Class isUpper.

Fixpoint lit (s : jsstring) : regex :=
  match s with
  | [] => Empty
  | [c] => chr c
  | c :: s' => Seq (chr c) (lit s')
  end.

Fixpoint litI (s : jsstring) : regex :=
  match s with
  | [] => Empty
  | [c] => chrI c
  | c :: s' => Seq (chrI c) (litI s')
  end.

Definition star (r : regex) : regex := Star true r.
Definition lazyStar (r : regex) : regex := Star false r.
Definition plus (r : regex) : regex := Seq r (Star true r).
Definition opt (r : regex) : regex := Alt r Empty.

Fixpoint seqs (rs : list regex) : regex :=
  match rs with
  | [] => Empty
  | [r] => r
  | r :: rs' => Seq r (seqs rs')
  end.

End RegExp.
Import RegExp.

(* ================================================================= *)
(** ** BibTeX indexing (main.js, lines 794-854) *)

Module Bib.

(** [/^https?:\/\/(dx\.)?doi\.org\//i] *)
Definition re_doi_url : regex :=
  seqs [Bol; litI (js "http"); opt (chrI 115); litI (js "://");
        opt (Group (litI (js "dx."))); litI (js "doi.org/")].

(** [/^\s*doi:\s*/i] *)
Definition re_doi_label : regex :=
  seqs [Bol; star space; litI (js "doi:"); star space].

(** [/[.,;]\s*$/] *)
Definition re_trailing_punct : regex :=
  seqs [oneOf (js ".,;"); star space; Eol].

Definition emptyStr : found -> jsstring := fun _ => [].

(** [normDOI], main.js lines 795-802. *)
Definition normDOI (s : jsstring) : jsstring :=
  if negb (truthy s) then []
  else toLowerCase
         (replace re_trailing_punct emptyStr
            (replace re_doi_label emptyStr
               (replace re_doi_url emptyStr (trim s)))).

(** [/[{}]/g] *)
Definition re_braces : regex := oneOf (js "{}").

(** [/[^a-z0-9]+/g] *)
Definition re_non_alnum : regex :=
  plus (Class (fun x => negb (isLower x || isDigit x))).

(** [/\s+/g] *)
Definition re_spaces : regex := plus space.

(** [normalizeTitle], main.js lines 803-806. *)
Definition normalizeTitle (s : jsstring) : jsstring :=
  if negb (truthy s) then []
  else replaceAll re_spaces (fun _ => js " ")
         (trim
            (replaceAll re_non_alnum (fun _ => js " ")
               (toLowerCase (replaceAll re_braces emptyStr s)))).

(** The three patterns that [getBibField] builds from a field name.
    The name is read as literal text, which is how [RegExp] reads a
    name free of pattern metacharacters (every name the source passes
    is such a name). *)

(** [/\bNAME\s*=\s*\{([\s\S]*?)\}/i] *)
Definition reBrace (name : jsstring) : regex :=
  seqs [WordB; litI name; star space; chrI 61; star space; chrI 123;
        Group (lazyStar any); chrI 125].

(** [/\bNAME\s*=\s*"([\s\S]*?)"/i] *)
Definition reQuote (name : jsstring) : regex :=
  seqs [WordB; litI name; star space; chrI 61; star space; chrI 34;
        Group (lazyStar any); chrI 34].

(** [/\bNAME\s*=\s*([^,\n]+)\s*,/i] *)
Definition reBare (name : jsstring) : regex :=
  seqs [WordB; litI name; star space; chrI 61; star space;
        Group (plus (Class (fun x => negb ((x =? 44)%N || (x =? 10)%N))));
        star space; chrI 44].

(** [/,\s*$/] *)
Definition re_trailing_comma : regex := seqs [chr 44; star space; Eol].

(** [getBibField], main.js lines 840-854. *)
Definition getBibField (entry name : jsstring) : jsstring :=
  match exec (reBrace name) entry with
  | Some m1 => replace re_trailing_comma emptyStr (trim (group1 m1))
  | None =>
      match exec (reQuote name) entry with
      | Some m2 => replace re_trailing_comma emptyStr (trim (group1 m2))
      | None =>
          match exec (reBare name) entry with
          | Some m3 => trim (group1 m3)
          | None => []
          end
      end
  end.


(** [splitBibEntries], main.js lines 807-825.  The inner loop reads
    [text[j++]] while [j < n && depth > 0]; [rest] is the text from
    index [j] on. *)
Fixpoint scanBraces (rest : jsstring) (depth j : nat) : nat :=
  match depth with
  | O => j
  | S d =>
      match rest with
      | [] => j
      | ch :: rest' =>
          if (ch =? 123)%N then scanBraces rest' (S depth) (S j)
          else if (ch =? 125)%N then scanBraces rest' d (S j)
          else scanBraces rest' depth (S j)
      end
  end.

Fixpoint splitLoop (fuel : nat) (text : jsstring) (i : nat) : list jsstring :=
  match fuel with
  | O => []
  | S fuel' =>
      if i <? length text then
        match indexOf text 64 i with
        | None => []
        | Some at_ =>
            match indexOf text 123 at_ with
            | None => []
            | Some brace =>
                let j := scanBraces (skipn (brace + 1) text) 1 (brace + 1) in
                slice text at_ j :: splitLoop fuel' text j
            end
        end
      else []
  end.

Definition splitBibEntries (text : jsstring) : list jsstring :=
  splitLoop (length text) text 0.

(** A JavaScript [Map] from strings to strings: the bindings in
    insertion order, one per key. *)
Definition Map := list (jsstring * jsstring).

Fixpoint map_set (mp : Map) (k v : jsstring) : Map :=
  match mp with
  | [] => [(k, v)]
  | (k', v') :: mp' =>
      if eqs k' k then (k', v) :: mp' else (k', v') :: map_set mp' k v
  end.

Fixpoint map_get (mp : Map) (k : jsstring) : option jsstring :=
  match mp with
  | [] => None
  | (k', v') :: mp' => if eqs k' k then Some v' else map_get mp' k
  end.

Definition map_has (mp : Map) (k : jsstring) : bool :=
  match map_get mp k with Some _ => true | None => false end.

(** [{entries, byDOI, byTitle}] *)
Record BibIndex := mkIndex {
  entries : list jsstring;
  byDOI : Map;
  byTitle : Map
}.

(** The module state: [BIB_TEXT] and [BIB_INDEX] (lines 745-746). *)
Record state := mkState {
  BIB_TEXT : jsstring;
  BIB_INDEX : option BibIndex
}.

Definition initialState : state := mkState [] None.

Definition doiKey (e : jsstring) : jsstring :=
  normDOI (or_else (getBibField e (js "doi")) (getBibField e (js "DOI"))).

Definition titleKey (e : jsstring) : jsstring :=
  normalizeTitle (getBibField e (js "title")).

(** One turn of the loop of [buildBibIndex] over the two maps. *)
Definition indexStep (maps : Map * Map) (e : jsstring) : Map * Map :=
  let doi := doiKey e in
  let byDOI := if truthy doi then map_set (fst maps) doi e else fst maps in
  let t := titleKey e in
  let byTitle := if truthy t then map_set (snd maps) t e else snd maps in
  (byDOI, byTitle).

Definition indexOfText (bib : jsstring) : BibIndex :=
  let entries := splitBibEntries bib in
  let maps := fold_left indexStep entries ([], []) in
  mkIndex entries (fst maps) (snd maps).

(** [buildBibIndex], main.js lines 826-837: it assigns [BIB_INDEX]. *)
Definition buildBibIndex (bib : jsstring) (st : state) : state :=
  mkState (BIB_TEXT st) (Some (indexOfText bib)).

End Bib.
Import Bib.

(* ================================================================= *)
(** ** Values at the boundary *)

Module Value.

(** The completion of a call: a value, or a thrown [TypeError]. *)
Inductive completion (A : Type) : Type :=
| Normal (a : A)
| Throw (msg : string).

Arguments Normal {A} a.
Arguments Throw {A} msg.

Definition bind {A B : Type} (x : completion A) (f : A -> completion B)
  : completion B :=
  match x with
  | Normal a => f a
  | Throw msg => Throw msg
  end.

Notation "x <- e ;; k" := (bind e (fun x => k))
  (at level 61, e at next level, right associativity).

(** The [year] of a record: absent, a string, or a whole number. *)
Inductive yearval : Type :=
| YAbsent
| YStr (s : jsstring)
| YNum (n : N).

(** A PublicationRecord of the content document; [None] is an absent
    attribute ([undefined]). *)
Record PublicationRecord := mkPub {
  pub_title : option jsstring;
  pub_authors : option jsstring;
  pub_year : yearval;
  pub_doi : option jsstring
}.

(** What a caller can pass for [pub]. *)
Inductive pubref : Type :=
| PNull
| PUndefined
| PObj (r : PublicationRecord).

(** [pub.x]: a property read throws on [null] and [undefined]. *)
Definition prop {A : Type} (f : PublicationRecord -> A) (pub : pubref)
  : completion A :=
  match pub with
  | PObj r => Normal (f r)
  | PNull => Throw "Cannot read properties of null"
  | PUndefined => Throw "Cannot read properties of undefined"
  end.

(** [pub?.x]: [undefined] on [null] and [undefined]. *)
Definition optProp (f : PublicationRecord -> option jsstring) (pub : pubref)
  : option jsstring :=
  match pub with
  | PObj r => f r
  | PNull | PUndefined => None
  end.

(** [BIB_INDEX.x]: a property read of the index throws while it is
    [null]. *)
Definition indexProp {A : Type} (f : BibIndex -> A) (st : state)
  : completion A :=
  match BIB_INDEX st with
  | Some idx => Normal (f idx)
  | None => Throw "Cannot read properties of null"
  end.

(** [x || ''] for an optional string. *)
Definition orEmpty (x : option jsstring) : jsstring :=
  match x with Some s => s | None => [] end.

(** String conversion of an optional string under [+]. *)
Definition strOf (x : option jsstring) : jsstring :=
  match x with Some s => s | None => js "undefined" end.

Definition truthyOpt (x : option jsstring) : bool :=
  match x with Some s => truthy s | None => false end.

Fixpoint digits (u : Decimal.uint) : jsstring :=
  match u with
  | Decimal.Nil => []
  | Decimal.D0 u' => 48%N :: digits u'
  | Decimal.D1 u' => 49%N :: digits u'
  | Decimal.D2 u' => 50%N :: digits u'
  | Decimal.D3 u' => 51%N :: digits u'
  | Decimal.D4 u' => 52%N :: digits u'
  | Decimal.D5 u' => 53%N :: digits u'
  | Decimal.D6 u' => 54%N :: digits u'
  | Decimal.D7 u' => 55%N :: digits u'
  | Decimal.D8 u' => 56%N :: digits u'
  | Decimal.D9 u' => 57%N :: digits u'
  end.

Definition truthyYear (y : yearval) : bool :=
  match y with
  | YAbsent => false
  | YStr s => truthy s
  | YNum n => negb (n =? 0)%N
  end.

Definition strOfYear (y : yearval) : jsstring :=
  match y with
  | YAbsent => js "undefined"
  | YStr s => s
  | YNum n => digits (N.to_uint n)
  end.

End Value.
Import Value.

(* ================================================================= *)
(** ** Entry resolution (main.js, lines 856-894) *)

Module Resolver.

(** The loop of step 3 over [BIB_INDEX.byTitle.entries()]. *)
Fixpoint fuzzy (t : jsstring) (es : Map) (best : jsstring) (bestScore : nat)
  : jsstring :=
  match es with
  | [] => best
  | (key, entry) :: es' =>
      if negb (truthy t) then best
      else if includes key t || includes t key then
        let score := Nat.min (length key) (length t) in
        if bestScore <? score then fuzzy t es' entry score
        else fuzzy t es' best bestScore
      else fuzzy t es' best bestScore
  end.

(** [findBibEntryFor], main.js lines 857-877.  The result of
    [Map.get] is [None] for [undefined]. *)
Definition findBibEntryFor (st : state) (pub : pubref)
  : completion (option jsstring) :=
  if match BIB_INDEX st with None => true | Some _ => false end
  then Normal (Some [])
  else
    let doi := normDOI (orEmpty (optProp pub_doi pub)) in
    dm <- indexProp byDOI st ;;
    if truthy doi && map_has dm doi then Normal (map_get dm doi)
    else
      let t := normalizeTitle (orEmpty (optProp pub_title pub)) in
      tm <- indexProp byTitle st ;;
      if truthy t && map_has tm t then Normal (map_get tm t)
      else
        tm' <- indexProp byTitle st ;;
        Normal (Some (fuzzy t tm' [] 0)).

(** [/^-+|-+$/g] *)
Definition re_edge_hyphens : regex :=
  Alt (Seq Bol (plus (chr 45))) (Seq (plus (chr 45)) Eol).

Definition slug (title : jsstring) : jsstring :=
  replaceAll re_edge_hyphens emptyStr
    (replaceAll re_non_alnum (fun _ => js "-") (toLowerCase title)).

Definition citeKey (r : PublicationRecord) : jsstring :=
  or_else
    (slice ((if truthyYear (pub_year r) then strOfYear (pub_year r) ++ js "-"
             else []) ++ slug (orEmpty (pub_title r))) 0 60)
    (js "citation").

(** The array [lines] of [bibtexFromPub] after [filter(Boolean)]:
    [None] stands for the [null] elements, which the filter drops
    (every other element is a non-empty string). *)
Definition bibtexLines (r : PublicationRecord) : list jsstring :=
  let key := citeKey r in
  let doi := normDOI (orEmpty (pub_doi r)) in
  flat_map (fun l => match l with Some x => [x] | None => [] end)
    [ Some (js "@article{" ++ key ++ js ",");
      Some (js "  title = {" ++ strOf (pub_title r) ++ js "},");
      (if truthyOpt (pub_authors r)
       then Some (js "  author = {" ++ strOf (pub_authors r) ++ js "},")
       else None);
      (if truthyYear (pub_year r)
       then Some (js "  year = {" ++ strOfYear (pub_year r) ++ js "},")
       else None);
      (if truthy doi then Some (js "  doi = {" ++ doi ++ js "},") else None);
      Some (js "}") ].

(** [bibtexFromPub], main.js lines 880-894: its first property read,
    [pub.year], throws when [pub] is [null] or [undefined]. *)
Definition bibtexFromPub (pub : pubref) : completion jsstring :=
  r <- prop (fun r => r) pub ;;
  Normal (join [10%N] (bibtexLines r)).

End Resolver.
Import Resolver.

(* ================================================================= *)
(** ** APA 7th formatting (main.js, lines 896-969) *)

Module Apa.

(** [/\s+and\s+/i] *)
Definition re_and : regex := seqs [plus space; litI (js "and"); plus space].

Definition nonEmpty (l : list jsstring) : list jsstring := filter truthy l.

(** [splitBibAuthors], lines 897-900. *)
Definition splitBibAuthors (s : jsstring) : list jsstring :=
  if negb (truthy s) then []
  else nonEmpty
         (map (fun x => trim (replaceAll re_braces emptyStr x)) (split re_and s)).

(** [(p[0]||'').toUpperCase()+'.'] *)
Definition initialLetter (p : jsstring) : jsstring :=
  toUpperCase (firstn 1 p) ++ js ".".

(** The initials of the given names [rest]. *)
Definition initialsOf (rest : jsstring) : jsstring :=
  join (js " ")
    (map (fun chunk => join (js "-") (map initialLetter (nonEmpty (splitChar chunk 45))))
       (nonEmpty (split re_spaces rest))).

(** [nameToApa], lines 901-910. *)
Definition nameToApa (n : jsstring) : jsstring :=
  let '(last, rest) :=
    if includes n (js ",") then
      let parts := splitChar n 44 in
      (trim (nth 0 parts []), trim (nth 1 parts []))
    else
      let parts := split re_spaces (trim n) in
      (last parts [], join (js " ") (removelast parts)) in
  let initials := initialsOf rest in
  trim (if truthy last
        then last ++ (if truthy initials then js ", " ++ initials else [])
        else n).

(** [formatAuthorsAPA], lines 911-918. *)
Definition formatAuthorsAPA (authors : list jsstring) : jsstring :=
  let A := map nameToApa authors in
  if length A =? 0 then []
  else if length A <=? 20 then
    if length A =? 1 then nth 0 A []
    else join (js ", ") (removelast A) ++ js ", & " ++ last A []
  else join (js ", ") (firstn 19 A) ++ js ", …, " ++ last A [].

(** [/^{|}$/g] *)
Definition re_outer_braces : regex :=
  Alt (Seq Bol (chr 123)) (Seq (chr 125) Eol).

(** [/^([a-z])/] *)
Definition re_first_letter : regex := Seq Bol (Group lower).

(** [/:\s*([a-z])/g] *)
Definition re_after_colon : regex := seqs [chr 58; star space; Group lower].

(** [/[A-Z]{2,}/] *)
Definition re_caps : regex := seqs [upper; upper; star upper].

(** [/\.\s*$/] *)
Definition re_trailing_period : regex := seqs [chr 46; star space; Eol].

(** [a[i] = v] on an array of strings: past the end the array grows,
    and the holes left read as empty strings under [join]. *)
Fixpoint array_set (a : list jsstring) (i : nat) (v : jsstring) : list jsstring :=
  match a, i with
  | [], O => [v]
  | [], S i' => [] :: array_set [] i' v
  | _ :: a', O => v :: a'
  | x :: a', S i' => x :: array_set a' i' v
  end.

(** The loop [for(i...) if(/[A-Z]{2,}/.test(tokens[i])) outTokens[i]=tokens[i]],
    from index [i] on. *)
Fixpoint protectCaps (tokens : list jsstring) (i : nat) (outTokens : list jsstring)
  : list jsstring :=
  match tokens with
  | [] => outTokens
  | tok :: tokens' =>
      protectCaps tokens' (S i)
        (if test re_caps tok then array_set outTokens i tok else outTokens)
  end.

(** [sentenceCase], lines 919-928. *)
Definition sentenceCase (t : jsstring) : jsstring :=
  if negb (truthy t) then []
  else
    let s := replaceAll re_outer_braces emptyStr
               (trim (replaceAll re_spaces (fun _ => js " ") t)) in
    let lower := toLowerCase s in
    let out := replaceAll re_after_colon
                 (fun fd => js ": " ++ toUpperCase (group1 fd))
                 (replace re_first_letter (fun fd => toUpperCase (matched fd)) lower) in
    let tokens := split WordB s in
    let outTokens := split WordB out in
    replace re_trailing_period emptyStr
      (join [] (protectCaps tokens 0 outTokens)).

(** [/--?/g] *)
Definition re_hyphens : regex := Seq (chr 45) (opt (chr 45)).

(** [pagesNormalize], line 929. *)
Definition pagesNormalize (p : jsstring) : jsstring :=
  replaceAll re_hyphens (fun _ => js "–")
    (replaceAll re_spaces emptyStr (trim p)).

(** [formatDOIUrl], lines 930-933. *)
Definition formatDOIUrl (doiRaw : jsstring) : jsstring :=
  let d := normDOI doiRaw in
  if truthy d then js "https://doi.org/" ++ d else [].

(** [/\d{4}/] *)
Definition re_year : regex := seqs [digit; digit; digit; digit].

(** [/doi\.org/i] *)
Definition re_doi_org : regex := litI (js "doi.org").

(** The constants [yearRaw] and [year] of [apaFromBibtexEntry],
    lines 937-938. *)
Definition apaYearRaw (entry : jsstring) : jsstring :=
  or_else (getBibField entry (js "year")) (getBibField entry (js "date")).

Definition apaYear (entry : jsstring) : jsstring :=
  match exec re_year (apaYearRaw entry) with
  | Some fd => or_else (matched fd) (js "n.d.")
  | None => js "n.d."
  end.

(** [apaFromBibtexEntry], lines 935-969. *)
Definition apaFromBibtexEntry (entry : jsstring) : jsstring :=
  let authors := formatAuthorsAPA (splitBibAuthors (getBibField entry (js "author"))) in
  let year := apaYear entry in
  let title := sentenceCase (getBibField entry (js "title")) in
  let journal := or_else (getBibField entry (js "journal"))
                         (getBibField entry (js "journaltitle")) in
  let volume := getBibField entry (js "volume") in
  let issue := or_else (getBibField entry (js "number"))
                       (getBibField entry (js "issue")) in
  let pages0 := getBibField entry (js "pages") in
  let eLoc := or_else (getBibField entry (js "eid"))
                (or_else (getBibField entry (js "art_number"))
                   (or_else (getBibField entry (js "article-number"))
                      (getBibField entry (js "artnum")))) in
  let pages := if negb (truthy pages0) && truthy eLoc then eLoc else pages0 in
  let urlField := getBibField entry (js "url") in
  let doiUrl :=
    formatDOIUrl
      (or_else (getBibField entry (js "doi"))
         (or_else (getBibField entry (js "DOI"))
            (if truthy urlField && test re_doi_org urlField then urlField else []))) in
  let head := join (js " ")
                (nonEmpty [authors; js "(" ++ year ++ js ")."; title ++ js "."]) in
  let tail :=
    if truthy journal then
      journal
      ++ (if truthy volume
          then js ", " ++ volume
               ++ (if truthy issue then js "(" ++ issue ++ js ")" else [])
          else [])
      ++ (if truthy pages then js ", " ++ pagesNormalize pages else [])
      ++ js "."
    else
      let publisher := getBibField entry (js "publisher") in
      if truthy publisher then publisher ++ js "." else [] in
  let ref := trim (replaceAll re_spaces (fun _ => js " ")
                     (join (js " ") (nonEmpty [head; tail]))) in
  if truthy doiUrl
  then replace re_trailing_period emptyStr ref ++ js ". " ++ doiUrl
  else ref.

End Apa.
Import Apa.

(* ================================================================= *)
(** ** Notions of the specification *)

Module Spec.

(** The bibliography entry of the APA example of the specification. *)
Definition wallis2024 : jsstring := js
"@article{wallis2024,
  author = {Wallis, Emily J. and Osborn, Timothy J. and Taylor, Michael},
  title = {Quantifying exposure biases in early instrumental land surface air temperature observations},
  journal = {International Journal of Climatology},
  year = {2024},
  volume = {44},
  number = {5},
  pages = {1611-1635},
  doi = {10.1002/joc.8401}
}".

(** The last entry of [es], in source order, whose key is [k]; no
    entry is filed under the empty key. *)
Definition lastWith (key : jsstring -> jsstring) (k : jsstring)
    (es : list jsstring) : option jsstring :=
  if truthy k then find (fun e => eqs (key e) k) (rev es) else None.

(** The loop of [buildBibIndex] seen on one of its two maps. *)
Definition fileUnder (key : jsstring -> jsstring) (mp : Map) (e : jsstring)
  : Map :=
  if truthy (key e) then map_set mp (key e) e else mp.

(** An entry is a value of the map. *)
Definition isValue (mp : Map) (e : jsstring) : Prop :=
  exists k, In (k, e) mp.

(** The element ["  NAME = {" + v + "},"] of the array of lines. *)
Definition fieldLine (name v : jsstring) : jsstring :=
  js "  " ++ name ++ js " = {" ++ v ++ js "},".

Definition hasField (name : jsstring) (lines : list jsstring) : Prop :=
  exists v, In (fieldLine name v) lines.

(** A bibliography whose two entries share a title, and a record
    that carries the DOI of the first and the title of both. *)
Definition twoEntries : jsstring := js
"@article{a, title = {Same title}, doi = {10.1/a}}
@article{b, title = {Same Title}, doi = {10.1/b}}".

Definition pubA : pubref :=
  PObj (mkPub (Some (js "Same title")) None YAbsent
          (Some (js "https://doi.org/10.1/A"))).

(** [closes d s]: read at brace depth [d], the text [s] keeps the
    depth positive up to its last character, a closing brace that
    brings it to zero. *)
Inductive closes : nat -> jsstring -> Prop :=
| closes_last : closes 1 [125%N]
| closes_close d s : closes (S d) s -> closes (S (S d)) (125%N :: s)
| closes_open d s : closes (S (S d)) s -> closes (S d) (123%N :: s)
| closes_other d c s :
    c <> 123%N -> c <> 125%N -> closes (S d) s -> closes (S d) (c :: s).

(** An entry: [@], a head free of [@] and of braces' opening, the
    opening brace, and a body that closes it. *)
Definition entryText (head body : jsstring) : jsstring :=
  64%N :: head ++ 123%N :: body.

(** [well_formed es text]: the text is the entries [es], each with
    balanced braces, separated by text that holds no [@]. *)
Inductive well_formed : list jsstring -> jsstring -> Prop :=
| wf_done junk : ~ In 64%N junk -> well_formed [] junk
| wf_entry junk head body es rest :
    ~ In 64%N junk -> ~ In 123%N head -> ~ In 64%N head ->
    closes 1 body -> well_formed es rest ->
    well_formed (entryText head body :: es)
                (junk ++ entryText head body ++ rest).

(** [slices es text]: the strings [es] are contiguous pieces of
    [text] that follow each other without overlap. *)
Inductive slices : list jsstring -> jsstring -> Prop :=
| slices_nil text : slices [] text
| slices_cons junk e es rest :
    slices es rest -> slices (e :: es) (junk ++ e ++ rest).

(** [matches r c g c' g']: the pattern [r] can match from the
    position [c] to the position [c'], turning the capture [g] into
    [g'].  This is what a match of the backtracking matcher is made
    of, without its priorities. *)
Inductive matches : regex -> cursor -> caps -> cursor -> caps -> Prop :=
| M_Empty c g : matches Empty c g c g
| M_Class p x bef rest g :
    p x = true ->
    matches (Class p) (Cursor bef (x :: rest)) g (Cursor (x :: bef) rest) g
| M_Seq r1 r2 c g c1 g1 c2 g2 :
    matches r1 c g c1 g1 -> matches r2 c1 g1 c2 g2 ->
    matches (Seq r1 r2) c g c2 g2
| M_AltL r1 r2 c g c' g' : matches r1 c g c' g' -> matches (Alt r1 r2) c g c' g'
| M_AltR r1 r2 c g c' g' : matches r2 c g c' g' -> matches (Alt r1 r2) c g c' g'
| M_StarStop gr r c g : matches (Star gr r) c g c g
| M_StarStep gr r c g c1 g1 c2 g2 :
    matches r c g c1 g1 -> length (after c1) < length (after c) ->
    matches (Star gr r) c1 g1 c2 g2 -> matches (Star gr r) c g c2 g2
| M_Group r c g c' g' :
    matches r c g c' g' -> matches (Group r) c g c' (Some (c, c'))
| M_Bol aft g : matches Bol (Cursor [] aft) g (Cursor [] aft) g
| M_Eol bef g : matches Eol (Cursor bef []) g (Cursor bef []) g
| M_WordB c g :
    xorb (isWordAt (hd_error (before c))) (isWordAt (hd_error (after c))) = true ->
    matches WordB c g c g.

(** The position [c'] is [mid] further than [c] in the same subject. *)
Definition span (c c' : cursor) (mid : jsstring) : Prop :=
  after c = mid ++ after c' /\ before c' = rev mid ++ before c.

(** Equality of code units under the [i] flag. *)
Definition eqCI (x y : N) : bool := (canonicalize x =? canonicalize y)%N.

Fixpoint startsWithCI (p s : jsstring) : bool :=
  match p, s with
  | [], _ => true
  | x :: p', y :: s' => eqCI y x && startsWithCI p' s'
  | _ :: _, [] => false
  end.

Definition firstIs (p : N -> bool) (s : jsstring) : bool :=
  match s with c :: _ => p c | [] => false end.

Definition lastIs (p : N -> bool) (s : jsstring) : bool := firstIs p (rev s).

Definition isDoiPunct (c : N) : bool := existsb (N.eqb c) (js ".,;").

(** A normalized DOI that [normDOI] has nothing left to strip from:
    no white space at either end, none of [. , ;] at the end, no
    [doi:] label and no [doi.org] address in front. *)
Definition cleanDOI (r : jsstring) : bool :=
  negb (firstIs isSpace r) && negb (lastIs isSpace r)
  && negb (lastIs isDoiPunct r)
  && negb (startsWithCI (js "doi:") r)
  && negb (startsWithCI (js "http://doi.org/") r)
  && negb (startsWithCI (js "https://doi.org/") r)
  && negb (startsWithCI (js "http://dx.doi.org/") r)
  && negb (startsWithCI (js "https://dx.doi.org/") r).

(** Code unit by code unit, [mid] equals [p] under the [i] flag. *)
Definition ciEq (mid p : jsstring) : Prop :=
  Forall2 (fun x y => eqCI x y = true) mid p.

(** The first run of four digits of a string, read from the left. *)
Fixpoint firstRun4 (s : jsstring) : option jsstring :=
  match s with
  | [] => None
  | a :: s' =>
      match s' with
      | b :: c :: d :: _ =>
          if isDigit a && isDigit b && isDigit c && isDigit d
          then Some [a; b; c; d]
          else firstRun4 s'
      | _ => None
      end
  end.

(** The field that the year is read from: [year] when it has a value,
    [date] otherwise. *)
Definition yearSource (entry : jsstring) : jsstring :=
  if truthy (getBibField entry (js "year"))
  then getBibField entry (js "year")
  else getBibField entry (js "date").

(** The field [name] occurs in the entry: the text that the first of
    the three styles that matches, in the order of [getBibField],
    captures as its value; [None] when no style matches. *)
Definition rawField (entry name : jsstring) : option jsstring :=
  match exec (reBrace name) entry with
  | Some m1 => Some (group1 m1)
  | None =>
      match exec (reQuote name) entry with
      | Some m2 => Some (group1 m2)
      | None =>
          match exec (reBare name) entry with
          | Some m3 => Some (group1 m3)
          | None => None
          end
      end
  end.

(** A field name that [RegExp] reads as literal text: letters, digits,
    [_] and [-], and at least one of them. *)
Definition fieldName (name : jsstring) : bool :=
  truthy name && forallb (fun c => isWordChar c || (c =? 45)%N) name.

(** A value with a code unit that is neither white space nor a comma. *)
Definition hasContent (v : jsstring) : bool :=
  existsb (fun c => negb (isSpace c || (c =? 44)%N)) v.

(** *** Sentence case, in the words of the (amended) specification *)


















End Spec.
Import Spec.

(* ================================================================= *)
(** ** The page around the citations (main.js, lines 41, 748-770,
    1035-1045, 1081-1088) *)

Module Page.

(** The class of [&], [<], [>], the double quote and the single
    quote, with the [g] flag. *)
Definition re_html : regex := oneOf [38%N; 60%N; 62%N; 34%N; 39%N].

(** The object lookup of [esc]: the entity of a matched character;
    a key that is not in the object reads as [undefined]. *)
Definition entityOf (m : jsstring) : jsstring :=
  match m with
  | [38%N] => js "&amp;"
  | [60%N] => js "&lt;"
  | [62%N] => js "&gt;"
  | [34%N] => js "&quot;"
  | [39%N] => js "&#039;"
  | _ => js "undefined"
  end.

(** [esc], main.js line 41; [None] is [null] or [undefined]. *)
Definition esc (s : option jsstring) : jsstring :=
  replaceAll re_html (fun fd => entityOf (matched fd)) (orEmpty s).

(** [ensureBibLoaded], lines 748-770.  [loaded] is the text that the
    fetch, or the file picked by the user, delivers; it is read only
    when the cache does not answer. *)
Definition ensureBibLoaded (loaded : jsstring) (st : state) : state * jsstring :=
  if truthy (BIB_TEXT st)
     && match BIB_INDEX st with Some _ => true | None => false end
  then (st, BIB_TEXT st)
  else
    let st1 := mkState loaded (BIB_INDEX st) in
    let st2 := buildBibIndex (BIB_TEXT st1) st1 in
    (st2, BIB_TEXT st2).

(** What the user sees: the citation dialog of [showCiteModal], or
    the alert of the [catch] branch. *)
Inductive shown : Type :=
| ShowModal (title apa bib : jsstring)
| Alert (msg : string).

(** The body of the [try] block of [handleCiteClick] after the
    bibliography is loaded, lines 1038-1041, up to the first property
    read of [showCiteModal] ([pub.title || 'Citation'], line 1004). *)
Definition citation (st : state) (pub : pubref)
  : completion (jsstring * jsstring * jsstring) :=
  found <- findBibEntryFor st pub ;;
  entry <- (if truthyOpt found then Normal (orEmpty found)
            else bibtexFromPub pub) ;;
  let apa := apaFromBibtexEntry entry in
  title <- prop pub_title pub ;;
  Normal (or_else (orEmpty title) (js "Citation"), apa, entry).

(** [handleCiteClick], lines 1035-1045. *)
Definition handleCiteClick (loaded : jsstring) (st : state) (pub : pubref)
  : state * shown :=
  let st' := fst (ensureBibLoaded loaded st) in
  match citation st' pub with
  | Normal (title, apa, entry) => (st', ShowModal title apa entry)
  | Throw msg => (st', Alert ("Could not create citation: " ++ msg)%string)
  end.

(** [getCategory], lines 1081-1088: the category of a map pin, read
    from the head of its description; [None] is [null] or
    [undefined]. *)
Definition getCategory (desc : option jsstring) : jsstring :=
  let head :=
    toLowerCase
      (trim (nth 0 (splitChar (nth 0 (splitChar (orEmpty desc) 8211) []) 45) [])) in
  if startsWith (js "work") head then js "work"
  else if startsWith (js "project") head then js "project"
  else if startsWith (js "talk") head then js "talk"
  else if startsWith (js "publication") head then js "publication"
  else js "work".

End Page.
Import Page.

(* ================================================================= *)
(** ** Further notions used to state what the code does *)

Module Shape.

(** The longest prefix of members of a class, and what follows it. *)
Fixpoint spanOf (p : N -> bool) (s : jsstring) : jsstring * jsstring :=
  match s with
  | x :: s' =>
      if p x then let (run, r) := spanOf p s' in (x :: run, r)
      else ([], s)
  | [] => ([], [])
  end.

(** Every maximal run of members of the class [p] replaced by [rep];
    [inrun] tells that the run being read has been replaced. *)
Fixpoint squeeze (p : N -> bool) (rep : jsstring) (inrun : bool)
    (s : jsstring) : jsstring :=
  match s with
  | [] => []
  | x :: s' =>
      if p x then
        if inrun then squeeze p rep true s' else rep ++ squeeze p rep true s'
      else x :: squeeze p rep false s'
  end.

(** One or two hyphens replaced by an en dash, from the left. *)
Fixpoint dashes (s : jsstring) : jsstring :=
  match s with
  | [] => []
  | x :: s' =>
      if (x =? 45)%N then
        8211%N ::
        match s' with
        | y :: s'' => if (y =? 45)%N then dashes s'' else dashes s'
        | [] => []
        end
      else x :: dashes s'
  end.

Definition isBrace (c : N) : bool := (c =? 123)%N || (c =? 125)%N.

Definition braceFree (s : jsstring) : bool := forallb (fun c => negb (isBrace c)) s.

(** Lower-case letter or digit: what [normalizeTitle] keeps. *)
Definition isAlnum (c : N) : bool := isLower c || isDigit c.

Fixpoint noDoubleSpace (s : jsstring) : bool :=
  match s with
  | [] => true
  | x :: s' =>
      match s' with
      | y :: _ => negb ((x =? 32)%N && (y =? 32)%N) && noDoubleSpace s'
      | [] => true
      end
  end.

(** A normalized title: lower-case letters, digits and single spaces,
    with no space at either end. *)
Definition normalTitle (r : jsstring) : bool :=
  forallb (fun c => isAlnum c || (c =? 32)%N) r
  && negb (firstIs (N.eqb 32) r) && negb (lastIs (N.eqb 32) r)
  && noDoubleSpace r.

(** The test of the fuzzy step, and its score. *)
Definition compatible (key t : jsstring) : bool :=
  includes key t || includes t key.

Definition score (key t : jsstring) : nat := Nat.min (length key) (length t).

(** [v] is a piece of [s]. *)
Definition pieceOf (v s : jsstring) : Prop :=
  exists pre post, s = pre ++ v ++ post.

(** The text of a year of a record holds no brace. *)
Definition yearBraceFree (y : yearval) : bool :=
  match y with
  | YStr s => braceFree s
  | _ => true
  end.

(** A record whose texts hold no brace. *)
Definition recordBraceFree (r : PublicationRecord) : bool :=
  match pub_title r with Some t => braceFree t | None => true end
  && braceFree (orEmpty (pub_authors r))
  && yearBraceFree (pub_year r)
  && braceFree (orEmpty (pub_doi r)).

(** Patterns that differ only in how their classes are written. *)
Inductive sameRegex : regex -> regex -> Prop :=
| sr_empty : sameRegex Empty Empty
| sr_class p q : (forall x, p x = q x) -> sameRegex (Class p) (Class q)
| sr_seq a b a' b' :
    sameRegex a a' -> sameRegex b b' -> sameRegex (Seq a b) (Seq a' b')
| sr_alt a b a' b' :
    sameRegex a a' -> sameRegex b b' -> sameRegex (Alt a b) (Alt a' b')
| sr_star gr a a' : sameRegex a a' -> sameRegex (Star gr a) (Star gr a')
| sr_group a a' : sameRegex a a' -> sameRegex (Group a) (Group a')
| sr_bol : sameRegex Bol Bol
| sr_eol : sameRegex Eol Eol
| sr_wordb : sameRegex WordB WordB.

(** A pattern that cannot tell a code unit from its lower case: its
    classes do not, and it has no [\b]. *)
Inductive caseBlind : regex -> Prop :=
| cb_empty : caseBlind Empty
| cb_class p : (forall x, p (lowerCU x) = p x) -> caseBlind (Class p)
| cb_seq a b : caseBlind a -> caseBlind b -> caseBlind (Seq a b)
| cb_alt a b : caseBlind a -> caseBlind b -> caseBlind (Alt a b)
| cb_star gr a : caseBlind a -> caseBlind (Star gr a)
| cb_group a : caseBlind a -> caseBlind (Group a)
| cb_bol : caseBlind Bol
| cb_eol : caseBlind Eol.

(** A position, a capture and an outcome of the lower-cased subject. *)
Definition lowCursor (c : cursor) : cursor :=
  Cursor (map lowerCU (before c)) (map lowerCU (after c)).

Definition lowCaps (g : caps) : caps :=
  match g with
  | Some (a, b) => Some (lowCursor a, lowCursor b)
  | None => None
  end.

Definition lowOutcome (o : outcome) : outcome :=
  match o with
  | Some (c, g) => Some (lowCursor c, lowCaps g)
  | None => None
  end.

(** The positions of one subject: [c] lies [pre] after [c0]. *)
Definition sameSubject (c0 c : cursor) : Prop :=
  rev (before c) ++ after c = rev (before c0) ++ after c0.

(** A capture that delimits a piece of the subject of [c0]. *)
Definition capsIn (c0 : cursor) (g : caps) : Prop :=
  match g with
  | Some (a, b) => sameSubject c0 a /\ exists mid, span a b mid
  | None => True
  end.

(** A body whose opening brace is still open at its end. *)
Inductive unclosed : nat -> jsstring -> Prop :=
| unclosed_end d : unclosed (S d) []
| unclosed_open d s : unclosed (S (S d)) s -> unclosed (S d) (123%N :: s)
| unclosed_close d s : unclosed (S d) s -> unclosed (S (S d)) (125%N :: s)
| unclosed_other d c s :
    c <> 123%N -> c <> 125%N -> unclosed (S d) s -> unclosed (S d) (c :: s).

(** What the splitter returns on any text: [@], a head without an
    opening brace, the opening brace, and a body that closes it, or
    else leaves it open and runs to the end of the text. *)
Definition entryOf (text e : jsstring) : Prop :=
  exists head body,
    e = entryText head body /\ ~ In 123%N head /\
    (closes 1 body \/ unclosed 1 body /\ exists pre, text = pre ++ e).

(** Text whose only white space is single spaces, none in front. *)
Definition spaced (s : jsstring) : bool :=
  forallb (fun c => negb (isSpace c) || (c =? 32)%N) s
  && noDoubleSpace s && negb (firstIs (N.eqb 32) s).

(** The text that [apaFromBibtexEntry] takes the DOI of a reference
    from: the field [doi], or else a field [url] that names
    [doi.org]. *)
Definition doiSource (entry : jsstring) : jsstring :=
  or_else (getBibField entry (js "doi"))
    (if truthy (getBibField entry (js "url"))
        && test re_doi_org (getBibField entry (js "url"))
     then getBibField entry (js "url") else []).

(** A text without white space. *)
Definition solid (s : jsstring) : bool :=
  forallb (fun c => negb (isSpace c)) s.

End Shape.
Import Shape.

(* ================================================================= *)
(** ** The resolver at its boundary (main.js, lines 795-806, 857-877)

    The content document is JSON: the [title] and the [doi] of a
    record may hold any value.  This module reads [normDOI],
    [normalizeTitle] and [findBibEntryFor] over such values; on the
    records of [PublicationRecord] it is the resolver of [Resolver]. *)

Module Untyped.

(** A value of a property.  [JOther b s] is any value that is neither
    [undefined], [null] nor a string (a number, a boolean, an array,
    an object), with its truthiness [b] and its conversion [s] to a
    string. *)
Inductive jsval : Type :=
| JUndefined
| JNull
| JStr (s : jsstring)
| JOther (truthy : bool) (str : jsstring).

(** [!!v] *)
Definition toBoolean (v : jsval) : bool :=
  match v with
  | JUndefined | JNull => false
  | JStr s => truthy s
  | JOther b _ => b
  end.

(** [String(v)] *)
Definition toString (v : jsval) : jsstring :=
  match v with
  | JUndefined => js "undefined"
  | JNull => js "null"
  | JStr s => s
  | JOther _ s => s
  end.

(** [v || ''] *)
Definition orEmpty (v : jsval) : jsval :=
  if toBoolean v then v else JStr [].

(** What a caller can pass for [pub]: [null], [undefined], or a value
    whose properties [title] and [doi] read as given ([JUndefined]
    for a property that is not there). *)
Inductive pub : Type :=
| PubNull
| PubUndefined
| PubObj (title doi : jsval).

(** [pub?.title] and [pub?.doi] *)
Definition title_of (p : pub) : jsval :=
  match p with PubObj t _ => t | _ => JUndefined end.

Definition doi_of (p : pub) : jsval :=
  match p with PubObj _ d => d | _ => JUndefined end.

(** [normDOI], lines 795-802: [String(s)] accepts every value. *)
Definition normDOI (s : jsval) : jsstring :=
  if negb (toBoolean s) then []
  else toLowerCase
         (replace re_trailing_punct emptyStr
            (replace re_doi_label emptyStr
               (replace re_doi_url emptyStr (trim (toString s))))).

(** [normalizeTitle], lines 803-806: [s.replace] is a method of
    strings only, and the call throws on every other truthy value. *)
Definition normalizeTitle (s : jsval) : completion jsstring :=
  if negb (toBoolean s) then Normal []
  else
    match s with
    | JStr x =>
        Normal
          (replaceAll re_spaces (fun _ => js " ")
             (trim
                (replaceAll re_non_alnum (fun _ => js " ")
                   (toLowerCase (replaceAll re_braces emptyStr x)))))
    | _ => Throw "s.replace is not a function"
    end.

(** [findBibEntryFor], lines 857-877. *)
Definition findBibEntryFor (st : state) (p : pub)
  : completion (option jsstring) :=
  if match BIB_INDEX st with None => true | Some _ => false end
  then Normal (Some [])
  else
    let doi := normDOI (orEmpty (doi_of p)) in
    dm <- indexProp byDOI st ;;
    if truthy doi && map_has dm doi then Normal (map_get dm doi)
    else
      t <- normalizeTitle (orEmpty (title_of p)) ;;
      tm <- indexProp byTitle st ;;
      if truthy t && map_has tm t then Normal (map_get tm t)
      else
        tm' <- indexProp byTitle st ;;
        Normal (Some (fuzzy t tm' [] 0)).


(** The records of [PublicationRecord] among these values. *)
Definition ofOption (x : option jsstring) : jsval :=
  match x with Some s => JStr s | None => JUndefined end.

Definition ofPubref (p : pubref) : pub :=
  match p with
  | PNull => PubNull
  | PUndefined => PubUndefined
  | PObj r => PubObj (ofOption (pub_title r)) (ofOption (pub_doi r))
  end.

End Untyped.

(* ================================================================= *)
(** ** Strings and maps: basic facts *)

Lemma eqs_eq (a b : jsstring) : eqs a b = true <-> a = b.
Proof.
  revert b; induction a as [|x a IH]; intros [|y b]; simpl; split;
    try discriminate; try reflexivity.
  - intros H. apply andb_true_iff in H as [H1 H2].
    apply N.eqb_eq in H1. apply IH in H2. congruence.
  - intros H. injection H as -> ->. rewrite N.eqb_refl. simpl.
    apply IH. reflexivity.
Qed.

Lemma eqs_refl (a : jsstring) : eqs a a = true.
Proof. apply eqs_eq. reflexivity. Qed.

Lemma eqs_neq (a b : jsstring) : eqs a b = false <-> a <> b.
Proof.
  split.
  - intros H E. apply eqs_eq in E. congruence.
  - intros H. destruct (eqs a b) eqn:E; [|reflexivity].
    apply eqs_eq in E. contradiction.
Qed.

Lemma find_app_first (A : Type) (f : A -> bool) (l1 l2 : list A) :
  find f (l1 ++ l2) =
  match find f l1 with Some x => Some x | None => find f l2 end.
Proof.
  induction l1 as [|x l1 IH]; simpl; [reflexivity|].
  destruct (f x); [reflexivity|assumption].
Qed.

Lemma truthy_nonempty (s : jsstring) : truthy s = true <-> s <> [].
Proof. destruct s; simpl; split; congruence. Qed.

Lemma map_has_get (mp : Map) (k : jsstring) :
  map_has mp k = true -> exists v, map_get mp k = Some v.
Proof.
  unfold map_has. destruct (map_get mp k) as [v|]; [eauto|discriminate].
Qed.

Lemma map_get_set_same (mp : Map) (k v : jsstring) :
  map_get (map_set mp k v) k = Some v.
Proof.
  induction mp as [|[k' v'] mp IH]; simpl.
  - rewrite eqs_refl. reflexivity.
  - destruct (eqs k' k) eqn:E; simpl; rewrite E; auto.
Qed.

Lemma map_get_set_other (mp : Map) (k k' v : jsstring) :
  k <> k' -> map_get (map_set mp k v) k' = map_get mp k'.
Proof.
  intros Hne. induction mp as [|[k0 v0] mp IH]; simpl.
  - apply eqs_neq in Hne. rewrite Hne. reflexivity.
  - destruct (eqs k0 k) eqn:E; simpl.
    + apply eqs_eq in E. subst k0. apply eqs_neq in Hne. rewrite Hne. reflexivity.
    + destruct (eqs k0 k'); auto.
Qed.

Lemma map_set_keys (mp : Map) (k v : jsstring) :
  map fst (map_set mp k v) =
  if map_has mp k then map fst mp else map fst mp ++ [k].
Proof.
  unfold map_has. induction mp as [|[k0 v0] mp IH]; simpl; [reflexivity|].
  destruct (eqs k0 k) eqn:E; simpl; [reflexivity|].
  rewrite IH. destruct (map_get mp k); reflexivity.
Qed.

Lemma map_get_In_key (mp : Map) (k : jsstring) :
  map_get mp k = None <-> ~ In k (map fst mp).
Proof.
  induction mp as [|[k0 v0] mp IH]; simpl.
  - split; auto.
  - destruct (eqs k0 k) eqn:E.
    + apply eqs_eq in E. split; [discriminate|]. intros H. exfalso. auto.
    + apply eqs_neq in E. rewrite IH. split; [intros H [H1|H1]; auto|auto].
Qed.

Lemma map_set_NoDup (mp : Map) (k v : jsstring) :
  NoDup (map fst mp) -> NoDup (map fst (map_set mp k v)).
Proof.
  intros H. rewrite map_set_keys. unfold map_has.
  destruct (map_get mp k) eqn:E; [assumption|].
  apply map_get_In_key in E.
  apply NoDup_rev in H. rewrite <- (rev_involutive (map fst mp ++ [k])).
  apply NoDup_rev. rewrite rev_app_distr. simpl. constructor; [|assumption].
  rewrite <- in_rev. assumption.
Qed.

Lemma map_get_In (mp : Map) (k v : jsstring) :
  map_get mp k = Some v -> In (k, v) mp.
Proof.
  induction mp as [|[k0 v0] mp IH]; simpl; [discriminate|].
  destruct (eqs k0 k) eqn:E.
  - apply eqs_eq in E. intros H. injection H as ->. left. congruence.
  - auto.
Qed.

Lemma In_map_set (mp : Map) (k v k' v' : jsstring) :
  In (k', v') (map_set mp k v) -> (k' = k /\ v' = v) \/ In (k', v') mp.
Proof.
  induction mp as [|[k0 v0] mp IH]; simpl.
  - intros [H|[]]. injection H as <- <-. auto.
  - destruct (eqs k0 k) eqn:E; simpl.
    + apply eqs_eq in E. subst k0. intros [H|H]; [injection H as <- <-|]; auto.
    + intros [H|H]; auto. apply IH in H. tauto.
Qed.

(* ================================================================= *)
(** ** The index built by [buildBibIndex] *)

Section IndexFold.

Variable key : jsstring -> jsstring.

Lemma fileUnder_get (es : list jsstring) (mp : Map) (k : jsstring) :
  map_get (fold_left (fileUnder key) es mp) k =
  match lastWith key k es with
  | Some e => Some e
  | None => map_get mp k
  end.
Proof.
  revert mp. induction es as [|e es IH]; intros mp; simpl.
  - unfold lastWith. destruct (truthy k); reflexivity.
  - rewrite IH. unfold lastWith. destruct (truthy k) eqn:Hk.
    + simpl. rewrite find_app_first.
      destruct (find (fun e0 => eqs (key e0) k) (rev es)); [reflexivity|].
      simpl. unfold fileUnder.
      destruct (eqs (key e) k) eqn:E.
      * apply eqs_eq in E. rewrite <- E in Hk. rewrite Hk, E.
        apply map_get_set_same.
      * apply eqs_neq in E. destruct (truthy (key e)); [|reflexivity].
        apply map_get_set_other. assumption.
    + unfold fileUnder. destruct (truthy (key e)) eqn:He; [|reflexivity].
      apply map_get_set_other. intros E. rewrite E in He. congruence.
Qed.

Lemma fileUnder_NoDup (es : list jsstring) (mp : Map) :
  NoDup (map fst mp) -> NoDup (map fst (fold_left (fileUnder key) es mp)).
Proof.
  revert mp. induction es as [|e es IH]; intros mp H; simpl; [assumption|].
  apply IH. unfold fileUnder. destruct (truthy (key e)); [|assumption].
  apply map_set_NoDup. assumption.
Qed.

Lemma fileUnder_In (es : list jsstring) (mp : Map) (k v : jsstring) :
  In (k, v) (fold_left (fileUnder key) es mp) ->
  In (k, v) mp \/ (k = key v /\ k <> [] /\ In v es).
Proof.
  revert mp. induction es as [|e es IH]; intros mp H; simpl in *; [auto|].
  apply IH in H as [H|(H1 & H2 & H3)]; [|auto].
  unfold fileUnder in H. destruct (truthy (key e)) eqn:He; [|auto].
  apply In_map_set in H as [[-> ->]|H]; [|auto].
  right. repeat split; auto. apply truthy_nonempty. assumption.
Qed.

End IndexFold.

Lemma indexStep_fold (es : list jsstring) (d t : Map) :
  fold_left indexStep es (d, t) =
  (fold_left (fileUnder doiKey) es d, fold_left (fileUnder titleKey) es t).
Proof.
  revert d t. induction es as [|e es IH]; intros d t; simpl; [reflexivity|].
  unfold indexStep at 2. simpl. rewrite IH. reflexivity.
Qed.

Lemma lastWith_Some (key : jsstring -> jsstring) (k e : jsstring)
    (es : list jsstring) :
  lastWith key k es = Some e -> key e = k /\ k <> [] /\ In e es.
Proof.
  unfold lastWith. destruct (truthy k) eqn:Hk; [|discriminate].
  intros H. apply find_some in H as [H1 H2].
  apply eqs_eq in H2. rewrite <- in_rev in H1.
  repeat split; auto. apply truthy_nonempty. assumption.
Qed.

Lemma lastWith_In (key : jsstring -> jsstring) (e : jsstring)
    (es : list jsstring) :
  In e es -> key e <> [] -> exists e', lastWith key (key e) es = Some e'.
Proof.
  intros Hin Hne. unfold lastWith.
  apply truthy_nonempty in Hne. rewrite Hne.
  destruct (find (fun e0 => eqs (key e0) (key e)) (rev es)) eqn:F; [eauto|].
  exfalso. assert (H : eqs (key e) (key e) = false).
  { apply (find_none _ _ F e). rewrite <- in_rev. assumption. }
  rewrite eqs_refl in H. discriminate.
Qed.

(** C9.  For every bibliography text, the index that [buildBibIndex]
    stores holds the entries of the text in source order; each map
    has one binding per key; the binding of a key is the last entry,
    in source order, that normalizes to that key, and nothing is filed
    under the empty key, so every entry with a non-empty normalized
    DOI (title) finds its key bound in the DOI (title) map; an entry
    that lacks both is a value of neither map. *)
Theorem C9_index_invariant (bib : jsstring) (st : state) :
  let idx := indexOfText bib in
  BIB_INDEX (buildBibIndex bib st) = Some idx /\
  entries idx = splitBibEntries bib /\
  NoDup (map fst (byDOI idx)) /\
  NoDup (map fst (byTitle idx)) /\
  (forall k, map_get (byDOI idx) k = lastWith doiKey k (entries idx)) /\
  (forall k, map_get (byTitle idx) k = lastWith titleKey k (entries idx)) /\
  (forall e, In e (entries idx) -> doiKey e <> [] ->
     exists e', map_get (byDOI idx) (doiKey e) = Some e' /\
                doiKey e' = doiKey e /\ In e' (entries idx)) /\
  (forall e, In e (entries idx) -> titleKey e <> [] ->
     exists e', map_get (byTitle idx) (titleKey e) = Some e' /\
                titleKey e' = titleKey e /\ In e' (entries idx)) /\
  (forall e, In e (entries idx) -> doiKey e = [] -> titleKey e = [] ->
     ~ isValue (byDOI idx) e /\ ~ isValue (byTitle idx) e).
Proof.
  intros idx. split; [reflexivity|].
  subst idx. unfold indexOfText. rewrite indexStep_fold. simpl.
  assert (HD : forall k,
    map_get (fold_left (fileUnder doiKey) (splitBibEntries bib) []) k =
    lastWith doiKey k (splitBibEntries bib)).
  { intros k. rewrite fileUnder_get.
    destruct (lastWith doiKey k (splitBibEntries bib)); reflexivity. }
  assert (HT : forall k,
    map_get (fold_left (fileUnder titleKey) (splitBibEntries bib) []) k =
    lastWith titleKey k (splitBibEntries bib)).
  { intros k. rewrite fileUnder_get.
    destruct (lastWith titleKey k (splitBibEntries bib)); reflexivity. }
  split; [reflexivity|].
  split; [apply fileUnder_NoDup; constructor|].
  split; [apply fileUnder_NoDup; constructor|].
  split; [exact HD|]. split; [exact HT|].
  split; [|split].
  - intros e Hin Hne. destruct (lastWith_In doiKey e _ Hin Hne) as [e' He'].
    exists e'. rewrite HD. split; [assumption|].
    apply lastWith_Some in He'. tauto.
  - intros e Hin Hne. destruct (lastWith_In titleKey e _ Hin Hne) as [e' He'].
    exists e'. rewrite HT. split; [assumption|].
    apply lastWith_Some in He'. tauto.
  - intros e Hin Hd Ht. split; intros [k Hk];
      apply fileUnder_In in Hk as [[]|(H1 & H2 & _)]; congruence.
Qed.

(* ================================================================= *)
(** ** The Entry Resolver *)

Lemma indexOfText_doi_key (bib k e : jsstring) :
  map_get (byDOI (indexOfText bib)) k = Some e -> truthy k = true.
Proof.
  unfold indexOfText. rewrite indexStep_fold. simpl. intros H.
  apply map_get_In in H. apply fileUnder_In in H as [[]|(_ & H & _)].
  apply truthy_nonempty. assumption.
Qed.

(** C2.  When the DOI map of the index built from a bibliography
    binds the normalized DOI of the record, [findBibEntryFor] returns
    the entry bound there, whatever the title maps hold. *)
Theorem C2_doi_match_first (bib : jsstring) (st : state) (pub : pubref)
    (e : jsstring)
    (Hdoi : map_get (byDOI (indexOfText bib))
              (normDOI (orEmpty (optProp pub_doi pub))) = Some e) :
  findBibEntryFor (buildBibIndex bib st) pub = Normal (Some e).
Proof.
  unfold findBibEntryFor, buildBibIndex, indexProp. cbn [BIB_INDEX bind].
  rewrite (indexOfText_doi_key _ _ Hdoi).
  unfold map_has. rewrite Hdoi. reflexivity.
Qed.

(** The record [pubA] carries the DOI of the first entry of
    [twoEntries] and a title that the title map binds to the second:
    the first entry is returned. *)
Lemma C2_doi_match_first_witness :
  findBibEntryFor (buildBibIndex twoEntries initialState) pubA
    = Normal (Some (js "@article{a, title = {Same title}, doi = {10.1/a}}")) /\
  map_get (byTitle (indexOfText twoEntries))
    (normalizeTitle (orEmpty (optProp pub_title pubA)))
    = Some (js "@article{b, title = {Same Title}, doi = {10.1/b}}").
Proof.
  split.
  - apply (C2_doi_match_first twoEntries initialState pubA). vm_compute. reflexivity.
  - vm_compute. reflexivity.
Defined.


(** On the records of [PublicationRecord], whose title and DOI are
    text or absent, the resolver over values is the resolver. *)
Lemma findBibEntryFor_ofPubref (st : state) (pub : pubref) :
  Untyped.findBibEntryFor st (Untyped.ofPubref pub) = findBibEntryFor st pub.
Proof.
  assert (Hd : forall x : option jsstring,
            Untyped.normDOI (Untyped.orEmpty (Untyped.ofOption x))
            = normDOI (orEmpty x)).
  { intros [[|c x]|]; reflexivity. }
  assert (Ht : forall x : option jsstring,
            Untyped.normalizeTitle (Untyped.orEmpty (Untyped.ofOption x))
            = Normal (normalizeTitle (orEmpty x))).
  { intros [[|c x]|]; reflexivity. }
  unfold Untyped.findBibEntryFor, findBibEntryFor.
  destruct (BIB_INDEX st) as [idx|] eqn:Hidx; [|reflexivity].
  unfold indexProp. rewrite Hidx. cbn [bind].
  destruct pub as [| |r]; cbn [Untyped.ofPubref Untyped.doi_of
                                Untyped.title_of optProp].
  - pose proof (Hd None) as H1. pose proof (Ht None) as H2.
    cbn [Untyped.ofOption] in H1, H2. rewrite H1, H2. reflexivity.
  - pose proof (Hd None) as H1. pose proof (Ht None) as H2.
    cbn [Untyped.ofOption] in H1, H2. rewrite H1, H2. reflexivity.
  - rewrite (Hd (pub_doi r)), (Ht (pub_title r)). reflexivity.
Qed.




(* ================================================================= *)
(** ** The synthesized entry *)

(** Literals are evaluated to their code units. *)
Ltac js_eval :=
  repeat match goal with
  | |- context [js ?s] =>
      let v := eval vm_compute in (js s) in change (js s) with v
  | H : context [js ?s] |- _ =>
      let v := eval vm_compute in (js s) in change (js s) with v in H
  end.

(** One of the equivalences between the presence of a line and the
    truth of a condition, on an explicit array of lines. *)
Ltac field_iff :=
  split;
  [ let v := fresh "v" in
    let H := fresh "H" in
    intros [v H];
    first [ reflexivity
          | exfalso; cbn [In] in H;
            repeat (destruct H as [H|H]; [discriminate H|]); exact H ]
  | let H := fresh "H" in
    intros H;
    first [ discriminate H | eexists; cbn [In]; eauto 10 ] ].

(** C3, as stated, fails: a record with an empty title still yields
    a [title] line. *)
Lemma C3_counterexample :
  let r := mkPub (Some []) None YAbsent None in
  bibtexFromPub (PObj r) = Normal (js "@article{citation,
  title = {},
}") /\
  ~ (hasField (js "title") (bibtexLines r) <-> truthyOpt (pub_title r) = true).
Proof.
  split; [vm_compute; reflexivity|].
  intros [H _]. simpl in H. enough (false = true) by discriminate.
  apply H. exists []. vm_compute. auto.
Qed.

(** C3, amended.  The synthesized entry is the lines of [bibtexLines]
    joined by newlines; the first line is ["@article{" + key + ","]
    and the last is ["}"]; the [title] line of a record with a title
    is always there, also for the empty title; the [author] and [year]
    lines are there exactly when the record's value is truthy, and the
    [doi] line exactly when the normalized DOI is non-empty. *)
Theorem C3_synthesized_entry (r : PublicationRecord) :
  let lines := bibtexLines r in
  bibtexFromPub (PObj r) = Normal (join [10%N] lines) /\
  hd_error lines = Some (js "@article{" ++ citeKey r ++ js ",") /\
  last lines [] = js "}" /\
  (forall t, pub_title r = Some t -> In (fieldLine (js "title") t) lines) /\
  (hasField (js "author") lines <-> truthyOpt (pub_authors r) = true) /\
  (hasField (js "year") lines <-> truthyYear (pub_year r) = true) /\
  (hasField (js "doi") lines <-> truthy (normDOI (orEmpty (pub_doi r))) = true).
Proof.
  intros lines. subst lines. unfold bibtexLines, hasField, fieldLine.
  split; [reflexivity|]. split; [reflexivity|].
  destruct (truthyOpt (pub_authors r)) eqn:Ha;
    destruct (truthyYear (pub_year r)) eqn:Hy;
    destruct (truthy (normDOI (orEmpty (pub_doi r)))) eqn:Hd;
    (split; [reflexivity|]);
    (split; [intros t Ht; rewrite Ht; simpl; auto|]);
    cbn [flat_map app]; js_eval; cbn [app];
    (split; [field_iff|split; field_iff]).
Qed.

(* ================================================================= *)
(** ** The APA example *)

(** C1.  An entry whose fields [author], [year], [title], [journal],
    [volume], [number], [pages] and [doi] read as in the example of
    the specification is formatted to the reference given there. *)
Theorem C1_apa_example (entry : jsstring)
    (Hauthor : getBibField entry (js "author")
       = js "Wallis, Emily J. and Osborn, Timothy J. and Taylor, Michael")
    (Hyear : getBibField entry (js "year") = js "2024")
    (Htitle : getBibField entry (js "title")
       = js "Quantifying exposure biases in early instrumental land surface air temperature observations")
    (Hjournal : getBibField entry (js "journal")
       = js "International Journal of Climatology")
    (Hvolume : getBibField entry (js "volume") = js "44")
    (Hnumber : getBibField entry (js "number") = js "5")
    (Hpages : getBibField entry (js "pages") = js "1611-1635")
    (Hdoi : getBibField entry (js "doi") = js "10.1002/joc.8401") :
  apaFromBibtexEntry entry
  = js "Wallis, E. J., Osborn, T. J., & Taylor, M. (2024). Quantifying exposure biases in early instrumental land surface air temperature observations. International Journal of Climatology, 44(5), 1611–1635. https://doi.org/10.1002/joc.8401".
Proof.
  unfold apaFromBibtexEntry, apaYear, apaYearRaw. cbv zeta.
  rewrite Hauthor, Hyear, Htitle, Hjournal, Hvolume, Hnumber, Hpages, Hdoi.
  generalize (getBibField entry (js "date")).
  generalize (getBibField entry (js "journaltitle")).
  generalize (getBibField entry (js "issue")).
  generalize (getBibField entry (js "eid")).
  generalize (getBibField entry (js "art_number")).
  generalize (getBibField entry (js "article-number")).
  generalize (getBibField entry (js "artnum")).
  generalize (getBibField entry (js "url")).
  generalize (getBibField entry (js "DOI")).
  generalize (getBibField entry (js "publisher")).
  intros. vm_compute. reflexivity.
Qed.

Lemma C1_apa_example_witness :
  apaFromBibtexEntry wallis2024
  = js "Wallis, E. J., Osborn, T. J., & Taylor, M. (2024). Quantifying exposure biases in early instrumental land surface air temperature observations. International Journal of Climatology, 44(5), 1611–1635. https://doi.org/10.1002/joc.8401".
Proof.
  apply (C1_apa_example wallis2024); vm_compute; reflexivity.
Defined.

(* ================================================================= *)
(** ** The Entry Splitter *)

Lemma indexOf_from_found (ch : N) (pre post : jsstring) (i : nat) :
  ~ In ch pre ->
  indexOf_from ch (pre ++ ch :: post) i = Some (i + length pre).
Proof.
  revert i. induction pre as [|c pre IH]; intros i Hnot; simpl.
  - rewrite N.eqb_refl. f_equal. lia.
  - destruct (c =? ch)%N eqn:E.
    + apply N.eqb_eq in E. exfalso. apply Hnot. left. assumption.
    + rewrite IH; [f_equal; lia|]. intros H. apply Hnot. right. assumption.
Qed.

Lemma indexOf_from_absent (ch : N) (s : jsstring) (i : nat) :
  ~ In ch s -> indexOf_from ch s i = None.
Proof.
  revert i. induction s as [|c s IH]; intros i Hnot; simpl; [reflexivity|].
  destruct (c =? ch)%N eqn:E.
  - apply N.eqb_eq in E. exfalso. apply Hnot. left. assumption.
  - apply IH. intros H. apply Hnot. right. assumption.
Qed.

Lemma indexOf_from_split (ch : N) (s : jsstring) (i k : nat) :
  indexOf_from ch s i = Some k ->
  exists pre post, s = pre ++ ch :: post /\ k = i + length pre.
Proof.
  revert i. induction s as [|c s IH]; intros i; simpl; [discriminate|].
  destruct (c =? ch)%N eqn:E.
  - apply N.eqb_eq in E. intros H. injection H as <-.
    exists [], s. split; [simpl; congruence|simpl; lia].
  - intros H. apply IH in H as (pre & post & -> & ->).
    exists (c :: pre), post. split; [reflexivity|simpl; lia].
Qed.

Lemma skipn_app_length (A : Type) (l1 l2 : list A) :
  skipn (length l1) (l1 ++ l2) = l2.
Proof. induction l1; simpl; auto. Qed.

Lemma firstn_app_length (A : Type) (l1 l2 : list A) :
  firstn (length l1) (l1 ++ l2) = l1.
Proof. induction l1; simpl; congruence. Qed.

Lemma scanBraces_closes (body rest : jsstring) (d j : nat) :
  closes d body -> scanBraces (body ++ rest) d j = j + length body.
Proof.
  intros H. revert j. induction H; intros j; simpl.
  - destruct rest; simpl; lia.
  - rewrite IHcloses. lia.
  - rewrite IHcloses. lia.
  - apply N.eqb_neq in H, H0. rewrite H, H0. rewrite IHcloses. lia.
Qed.

Lemma scanBraces_bounds (rest : jsstring) (d j : nat) :
  j <= scanBraces rest d j <= j + length rest.
Proof.
  revert d j. induction rest as [|c rest IH]; intros d j.
  - destruct d; simpl; lia.
  - destruct d; simpl; [lia|].
    destruct (c =? 123)%N; [specialize (IH (S (S d)) (S j)); lia|].
    destruct (c =? 125)%N; [specialize (IH d (S j))|specialize (IH (S d) (S j))];
      lia.
Qed.

(** The bound on the turns of the outer loop is never reached: each
    turn moves [i] forward, so any bound of at least the code units
    left gives the same entries. *)
Lemma splitLoop_fuel (text : jsstring) (fuel1 : nat) :
  forall fuel2 i,
    length text - i <= fuel1 -> length text - i <= fuel2 ->
    splitLoop fuel1 text i = splitLoop fuel2 text i.
Proof.
  induction fuel1 as [|fuel1 IH]; intros fuel2 i H1 H2.
  - destruct fuel2 as [|fuel2]; [reflexivity|]. cbn [splitLoop].
    destruct (i <? length text) eqn:Hi; [|reflexivity].
    apply Nat.ltb_lt in Hi. lia.
  - cbn [splitLoop]. destruct (i <? length text) eqn:Hi.
    + apply Nat.ltb_lt in Hi.
      destruct fuel2 as [|fuel2]; [lia|]. cbn [splitLoop].
      apply Nat.ltb_lt in Hi. rewrite Hi. unfold indexOf.
      destruct (indexOf_from 64 (skipn i text) i) as [at_|] eqn:Hat;
        [|reflexivity].
      destruct (indexOf_from 123 (skipn at_ text) at_) as [brace|] eqn:Hbr;
        [|reflexivity].
      apply indexOf_from_split in Hat as (junk & post & _ & ->).
      apply indexOf_from_split in Hbr as (head & post' & _ & ->).
      pose proof (scanBraces_bounds
                    (skipn (i + length junk + length head + 1) text) 1
                    (i + length junk + length head + 1)) as Hb.
      cbv zeta. f_equal. apply IH; lia.
    + destruct fuel2 as [|fuel2]; [reflexivity|]. cbn [splitLoop].
      rewrite Hi. reflexivity.
Qed.

Lemma closes_nonempty (d : nat) (s : jsstring) : closes d s -> 1 <= length s.
Proof. intros H. induction H; simpl; lia. Qed.

Lemma well_formed_length (es : list jsstring) (text : jsstring) :
  well_formed es text -> length es <= length text.
Proof.
  intros H. induction H; [simpl; lia|].
  unfold entryText. rewrite length_app. cbn [app length].
  rewrite length_app. lia.
Qed.

Lemma well_formed_slices (es : list jsstring) (text : jsstring) :
  well_formed es text -> slices es text.
Proof. intros H. induction H; constructor. assumption. Qed.

(** The loop on a well-formed remainder, after a prefix [done] that
    has been consumed. *)
Lemma splitLoop_well_formed (es : list jsstring) (rest : jsstring) :
  well_formed es rest ->
  forall (fuel : nat) (done : jsstring),
    length es <= fuel ->
    splitLoop fuel (done ++ rest) (length done) = es.
Proof.
  intros H. induction H as [junk Hj|junk head body es rest Hj Hh Hh' Hb Hwf IH];
    intros fuel done Hfuel.
  - destruct fuel as [|fuel]; simpl; [reflexivity|].
    destruct (length done <? length (done ++ junk)); [|reflexivity].
    unfold indexOf. rewrite skipn_app_length.
    rewrite indexOf_from_absent by assumption. reflexivity.
  - destruct fuel as [|fuel]; simpl in Hfuel; [lia|].
    cbn [splitLoop].
    assert (Hlt : (length done <? length (done ++ junk ++ entryText head body ++ rest)) = true).
    { apply Nat.ltb_lt. rewrite !length_app. unfold entryText. simpl. lia. }
    rewrite Hlt. unfold indexOf at 1. rewrite skipn_app_length.
    unfold entryText at 1. cbn [app].
    rewrite indexOf_from_found by assumption.
    unfold indexOf.
    replace (done ++ junk ++ entryText head body ++ rest)
      with ((done ++ junk) ++ entryText head body ++ rest)
      by (rewrite <- app_assoc; reflexivity).
    replace (length done + length junk) with (length (done ++ junk))
      by apply length_app.
    rewrite skipn_app_length.
    unfold entryText at 1. cbn [app].
    assert (Hidx : indexOf_from 123 (64%N :: (head ++ 123%N :: body) ++ rest)
                     (length (done ++ junk))
                   = Some (length (done ++ junk) + S (length head))).
    { rewrite <- app_assoc. cbn [app].
      change (64%N :: head ++ 123%N :: body ++ rest)
        with ((64%N :: head) ++ 123%N :: body ++ rest).
      rewrite indexOf_from_found; [reflexivity|].
      intros [E|E]; [discriminate|contradiction]. }
    rewrite Hidx. cbv zeta.
    assert (Hskip : skipn (length (done ++ junk) + S (length head) + 1)
                      ((done ++ junk) ++ entryText head body ++ rest)
                    = body ++ rest).
    { replace ((done ++ junk) ++ entryText head body ++ rest)
        with (((done ++ junk) ++ 64%N :: head ++ [123%N]) ++ body ++ rest).
      - replace (length (done ++ junk) + S (length head) + 1)
          with (length ((done ++ junk) ++ 64%N :: head ++ [123%N])).
        + apply skipn_app_length.
        + rewrite !length_app. simpl. rewrite !length_app. simpl. lia.
      - unfold entryText. rewrite <- !app_assoc. simpl.
        rewrite <- !app_assoc. reflexivity. }
    rewrite Hskip. rewrite scanBraces_closes by assumption.
    assert (Hslice : slice ((done ++ junk) ++ entryText head body ++ rest)
                       (length (done ++ junk))
                       (length (done ++ junk) + S (length head) + 1 + length body)
                     = entryText head body).
    { unfold slice. rewrite skipn_app_length.
      replace (length (done ++ junk) + S (length head) + 1 + length body
               - length (done ++ junk)) with (length (entryText head body)).
      - apply firstn_app_length.
      - unfold entryText. simpl. rewrite length_app. simpl. lia. }
    rewrite Hslice. f_equal.
    replace ((done ++ junk) ++ entryText head body ++ rest)
      with (((done ++ junk) ++ entryText head body) ++ rest)
      by (rewrite <- !app_assoc; reflexivity).
    replace (length (done ++ junk) + S (length head) + 1 + length body)
      with (length ((done ++ junk) ++ entryText head body)).
    + apply IH. lia.
    + unfold entryText. rewrite !length_app. simpl. rewrite !length_app.
      simpl. lia.
Qed.

(** Whatever the text, the entries returned are pieces of it in
    source order. *)
Lemma splitLoop_slices (fuel : nat) (text : jsstring) (i : nat) :
  slices (splitLoop fuel text i) (skipn i text).
Proof.
  revert i. induction fuel as [|fuel IH]; intros i; simpl; [constructor|].
  destruct (i <? length text) eqn:Hi; [|constructor].
  unfold indexOf.
  destruct (indexOf_from 64 (skipn i text) i) as [at_|] eqn:Hat; [|constructor].
  destruct (indexOf_from 123 (skipn at_ text) at_) as [brace|] eqn:Hbr;
    [|constructor].
  apply indexOf_from_split in Hat as (junk & post & Hs1 & ->).
  apply indexOf_from_split in Hbr as (head & post' & Hs2 & ->).
  pose proof (scanBraces_bounds
                (skipn (i + length junk + length head + 1) text) 1
                (i + length junk + length head + 1)) as Hb.
  set (j := scanBraces _ 1 _) in *.
  assert (Hsk : skipn (i + length junk) text = skipn (length junk) (skipn i text)).
  { rewrite skipn_skipn. f_equal. lia. }
  assert (Hlen : j <= length text).
  { rewrite length_skipn in Hb.
    assert (i + length junk + length head + 1 <= length text); [|lia].
    assert (Hl : length (skipn (i + length junk) text)
                 = length (head ++ 123%N :: post')) by congruence.
    rewrite length_skipn, length_app in Hl. simpl in Hl. lia. }
  replace (skipn i text)
    with (junk ++ slice text (i + length junk) j ++ skipn j text).
  - constructor. apply IH.
  - unfold slice. rewrite Hsk.
    replace (skipn j text)
      with (skipn (j - (i + length junk)) (skipn (length junk) (skipn i text))).
    + rewrite firstn_skipn.
      rewrite <- (firstn_skipn (length junk) (skipn i text)) at 2.
      f_equal. rewrite Hs1. symmetry. apply firstn_app_length.
    + rewrite !skipn_skipn. f_equal. lia.
Qed.

(** C6.  On a well-formed bibliography text the Entry Splitter
    returns the entries of the text, one for each, in source order;
    the entries it returns (on every text) are contiguous pieces of
    the text that do not overlap; the empty text yields no entry. *)
Theorem C6_splitter_well_formed (text : jsstring) (es : list jsstring)
    (Hwf : well_formed es text) :
  splitBibEntries text = es /\
  length (splitBibEntries text) = length es /\
  slices (splitBibEntries text) text /\
  (forall t, slices (splitBibEntries t) t) /\
  splitBibEntries [] = [].
Proof.
  assert (H : splitBibEntries text = es).
  { unfold splitBibEntries.
    apply (@splitLoop_well_formed es text Hwf (length text) []).
    apply well_formed_length. assumption. }
  split; [assumption|]. split; [congruence|].
  split; [rewrite H; apply well_formed_slices; assumption|].
  split; [|reflexivity].
  intros t. apply (splitLoop_slices (length t) t 0).
Qed.

Lemma wf_entry_eq (junk head body : jsstring) (es : list jsstring)
    (rest e text : jsstring) :
  e = entryText head body -> text = junk ++ e ++ rest ->
  ~ In 64%N junk -> ~ In 123%N head -> ~ In 64%N head ->
  closes 1 body -> well_formed es rest -> well_formed (e :: es) text.
Proof. intros -> ->. apply wf_entry. Qed.

(** A text of two entries around stray text, the second with nested
    braces and an [@] inside its body. *)
Lemma C6_splitter_well_formed_witness :
  splitBibEntries
    (js "% refs @book{k1, title = {A}} and @misc{k2, note = {a@b {c}}} end")
  = [js "@book{k1, title = {A}}"; js "@misc{k2, note = {a@b {c}}}"].
Proof.
  refine (proj1 (@C6_splitter_well_formed
    (js "% refs @book{k1, title = {A}} and @misc{k2, note = {a@b {c}}} end")
    [js "@book{k1, title = {A}}"; js "@misc{k2, note = {a@b {c}}}"] _)).
  apply (@wf_entry_eq (js "% refs ") (js "book") (js "k1, title = {A}}")
           [js "@misc{k2, note = {a@b {c}}}"]
           (js " and @misc{k2, note = {a@b {c}}} end")).
  - vm_compute. reflexivity.
  - vm_compute. reflexivity.
  - vm_compute. intuition discriminate.
  - vm_compute. intuition discriminate.
  - vm_compute. intuition discriminate.
  - vm_compute. repeat (constructor; try discriminate).
  - apply (@wf_entry_eq (js " and ") (js "misc") (js "k2, note = {a@b {c}}}") []
             (js " end")).
    + vm_compute. reflexivity.
    + vm_compute. reflexivity.
    + vm_compute. intuition discriminate.
    + vm_compute. intuition discriminate.
    + vm_compute. intuition discriminate.
    + vm_compute. repeat (constructor; try discriminate).
    + constructor. vm_compute. intuition discriminate.
Defined.

(* ================================================================= *)
(** ** The matcher: every match it reports is a match *)

Lemma starLoop_sound (step : cursor -> caps -> cont -> outcome)
    (gr : bool) (r : regex) (k : cont)
    (Hstep : forall c g k' res, step c g k' = Some res ->
       exists c' g', matches r c g c' g' /\ k' c' g' = Some res) :
  forall fuel c g res,
    starLoop step gr k fuel c g = Some res ->
    exists c' g', matches (Star gr r) c g c' g' /\ k c' g' = Some res.
Proof.
  induction fuel as [|fuel IH]; intros c g res H; simpl in H; [discriminate|].
  assert (Hiter : forall res',
    step c g (fun c' g' =>
      if length (after c') <? length (after c)
      then starLoop step gr k fuel c' g' else None) = Some res' ->
    exists c' g', matches (Star gr r) c g c' g' /\ k c' g' = Some res').
  { intros res' H'. apply Hstep in H' as (c1 & g1 & Hm & Hk).
    destruct (length (after c1) <? length (after c)) eqn:Hlt; [|discriminate].
    apply Nat.ltb_lt in Hlt.
    apply IH in Hk as (c2 & g2 & Hm2 & Hk2).
    exists c2, g2. split; [|assumption].
    eapply M_StarStep; eassumption. }
  destruct gr.
  - destruct (step c g _) as [res'|] eqn:E.
    + injection H as <-. apply Hiter. first [assumption|reflexivity].
    + exists c, g. split; [constructor|assumption].
  - destruct (k c g) as [res'|] eqn:E.
    + injection H as <-. exists c, g. split; [constructor|assumption].
    + apply Hiter. first [assumption|reflexivity].
Qed.

Lemma matcher_sound (r : regex) :
  forall c g k res,
    matcher r c g k = Some res ->
    exists c' g', matches r c g c' g' /\ k c' g' = Some res.
Proof.
  induction r as [|p|r1 IH1 r2 IH2|r1 IH1 r2 IH2|gr r1 IH1|r1 IH1| | |];
    intros c g k res H; cbn [matcher] in H.
  - exists c, g. split; [constructor|assumption].
  - destruct c as [bef aft]. simpl in H. destruct aft as [|x rest]; [discriminate|].
    destruct (p x) eqn:Hp; [|discriminate].
    eexists _, _. split; [constructor; eassumption|eassumption].
  - apply IH1 in H as (c1 & g1 & Hm1 & H). apply IH2 in H as (c2 & g2 & Hm2 & H).
    exists c2, g2. split; [econstructor; eassumption|assumption].
  - destruct (matcher r1 c g k) as [res'|] eqn:E.
    + injection H as <-. apply IH1 in E as (c' & g' & Hm & Hk).
      exists c', g'. split; [apply M_AltL|]; assumption.
    + apply IH2 in H as (c' & g' & Hm & Hk).
      exists c', g'. split; [apply M_AltR|]; assumption.
  - eapply starLoop_sound; [|eassumption]. exact IH1.
  - apply IH1 in H as (c' & g' & Hm & Hk).
    eexists _, _. split; [econstructor; eassumption|eassumption].
  - destruct c as [bef aft]. simpl in H. destruct bef; [|discriminate].
    eexists _, _. split; [constructor|eassumption].
  - destruct c as [bef aft]. simpl in H. destruct aft; [|discriminate].
    eexists _, _. split; [constructor|eassumption].
  - destruct (xorb _ _) eqn:E; [|discriminate].
    exists c, g. split; [constructor|]; assumption.
Qed.

Lemma span_refl (c : cursor) : span c c [].
Proof. split; reflexivity. Qed.

Lemma span_trans (c c1 c2 : cursor) (m1 m2 : jsstring) :
  span c c1 m1 -> span c1 c2 m2 -> span c c2 (m1 ++ m2).
Proof.
  intros [H1 H2] [H3 H4]. split.
  - rewrite H1, H3. apply app_assoc.
  - rewrite H4, H2, rev_app_distr. apply app_assoc.
Qed.

Lemma matches_span (r : regex) (c : cursor) (g : caps) (c' : cursor) (g' : caps) :
  matches r c g c' g' -> exists mid, span c c' mid.
Proof.
  intros H. induction H;
    try (exists []; apply span_refl);
    try assumption.
  - exists [x]. split; reflexivity.
  - destruct IHmatches1 as [m1 Hs1], IHmatches2 as [m2 Hs2].
    exists (m1 ++ m2). eapply span_trans; eassumption.
  - destruct IHmatches1 as [m1 Hs1], IHmatches2 as [m2 Hs2].
    exists (m1 ++ m2). eapply span_trans; eassumption.
Qed.

Lemma span_between (c c' : cursor) (mid : jsstring) :
  span c c' mid -> between c c' = mid.
Proof.
  intros [H _]. unfold between. rewrite H, length_app.
  replace (length mid + length (after c') - length (after c')) with (length mid)
    by lia.
  apply firstn_app_length.
Qed.

(** A search that finds a match found it at some position of the
    subject. *)
Lemma search_sound (r : regex) (aft bef : list N) (fd : found) :
  search r bef aft = Some fd ->
  exists pre post,
    aft = pre ++ post /\
    m_start fd = Cursor (rev pre ++ bef) post /\
    matches r (m_start fd) None (m_end fd) (m_caps fd).
Proof.
  revert bef. induction aft as [|x aft IH]; intros bef H; simpl in H.
  - destruct (matcher r (Cursor bef []) None accept) as [[c' g']|] eqn:E;
      [|discriminate].
    injection H as <-. apply matcher_sound in E as (c1 & g1 & Hm & Hk).
    injection Hk as <- <-. exists [], []. simpl. auto.
  - destruct (matcher r (Cursor bef (x :: aft)) None accept) as [[c' g']|] eqn:E.
    + injection H as <-. apply matcher_sound in E as (c1 & g1 & Hm & Hk).
      injection Hk as <- <-. exists [], (x :: aft). simpl. auto.
    + apply IH in H as (pre & post & -> & Hs & Hm).
      exists (x :: pre), post. simpl. rewrite <- app_assoc. simpl. auto.
Qed.

(** No match anywhere: the search fails. *)
Lemma search_none (r : regex) (aft bef : list N) :
  (forall pre post c' g',
     aft = pre ++ post ->
     ~ matches r (Cursor (rev pre ++ bef) post) None c' g') ->
  search r bef aft = None.
Proof.
  intros H. destruct (search r bef aft) as [fd|] eqn:E; [|reflexivity].
  apply search_sound in E as (pre & post & Ha & Hs & Hm).
  exfalso. rewrite Hs in Hm. eapply H; eassumption.
Qed.

Lemma replace_none (r : regex) (f : found -> jsstring) (s : jsstring) :
  exec r s = None -> replace r f s = s.
Proof. unfold replace. intros ->. reflexivity. Qed.

(* ----------------------------------------------------------------- *)
(** *** The bounds on the iterations are never reached *)

Lemma starLoop_ext (step : cursor -> caps -> cont -> outcome) (gr : bool)
    (Hstep : forall c g k1 k2,
       (forall c' g', k1 c' g' = k2 c' g') -> step c g k1 = step c g k2)
    (k1 k2 : cont) (Hk : forall c g, k1 c g = k2 c g) :
  forall fuel c g, starLoop step gr k1 fuel c g = starLoop step gr k2 fuel c g.
Proof.
  induction fuel as [|fuel IH]; intros c g; [reflexivity|].
  cbn [starLoop]. rewrite (Hk c g).
  rewrite (Hstep c g _ (fun c' g' =>
             if length (after c') <? length (after c)
             then starLoop step gr k2 fuel c' g' else None)).
  - reflexivity.
  - intros c' g'. destruct (length (after c') <? length (after c)); auto.
Qed.

Lemma matcher_ext (r : regex) :
  forall c g k1 k2,
    (forall c' g', k1 c' g' = k2 c' g') ->
    matcher r c g k1 = matcher r c g k2.
Proof.
  induction r as [|p|r1 IH1 r2 IH2|r1 IH1 r2 IH2|gr r1 IH1|r1 IH1| | |];
    intros c g k1 k2 Hk; cbn [matcher].
  - apply Hk.
  - destruct (after c) as [|x rest]; [reflexivity|].
    destruct (p x); [apply Hk|reflexivity].
  - apply IH1. intros c' g'. apply IH2. assumption.
  - rewrite (IH1 c g k1 k2 Hk), (IH2 c g k1 k2 Hk). reflexivity.
  - apply starLoop_ext; assumption.
  - apply IH1. intros c' g'. apply Hk.
  - destruct (before c); [apply Hk|reflexivity].
  - destruct (after c); [apply Hk|reflexivity].
  - destruct (xorb _ _); [apply Hk|reflexivity].
Qed.

(** Any bound above the number of code units left gives the same
    iterations of a quantifier. *)
Lemma starLoop_fuel (r : regex) (gr : bool) (k : cont) (n : nat) :
  forall c g fuel1 fuel2,
    length (after c) <= n ->
    length (after c) < fuel1 -> length (after c) < fuel2 ->
    starLoop (matcher r) gr k fuel1 c g = starLoop (matcher r) gr k fuel2 c g.
Proof.
  induction n as [|n IH]; intros c g fuel1 fuel2 Hn H1 H2;
    (destruct fuel1 as [|fuel1]; [inversion H1|]);
    (destruct fuel2 as [|fuel2]; [inversion H2|]);
    cbn [starLoop];
    rewrite (@matcher_ext r c g
               (fun c' g' =>
                  if length (after c') <? length (after c)
                  then starLoop (matcher r) gr k fuel1 c' g' else None)
               (fun c' g' =>
                  if length (after c') <? length (after c)
                  then starLoop (matcher r) gr k fuel2 c' g' else None));
    try reflexivity;
    intros c' g';
    destruct (length (after c') <? length (after c)) eqn:E; try reflexivity;
    apply Nat.ltb_lt in E.
  - lia.
  - apply IH; lia.
Qed.

Lemma search_within (r : regex) (aft bef : list N) (fd : found) :
  search r bef aft = Some fd ->
  length (after (m_end fd)) <= length (after (m_start fd)) /\
  length (after (m_start fd)) <= length aft.
Proof.
  intros H. apply search_sound in H as (pre & post & Ha & Hs & Hm).
  apply matches_span in Hm as (mid & Hsp & _).
  rewrite Hs in *. cbn [after] in *.
  apply (f_equal (@length N)) in Hsp, Ha. rewrite length_app in Hsp, Ha. lia.
Qed.

(** Any bound above the number of code units left gives the same
    global replacement. *)
Lemma replaceAll_go_fuel (r : regex) (f : found -> jsstring) (n : nat) :
  forall bef aft fuel1 fuel2,
    length aft <= n -> length aft < fuel1 -> length aft < fuel2 ->
    replaceAll_go fuel1 r f bef aft = replaceAll_go fuel2 r f bef aft.
Proof.
  induction n as [|n IH]; intros bef aft fuel1 fuel2 Hn H1 H2;
    (destruct fuel1 as [|fuel1]; [inversion H1|]);
    (destruct fuel2 as [|fuel2]; [inversion H2|]);
    cbn [replaceAll_go];
    destruct (search r bef aft) as [fd|] eqn:E; try reflexivity;
    apply search_within in E as [E1 E2];
    destruct (length (after (m_end fd)) <? length (after (m_start fd))) eqn:L;
    try (apply Nat.ltb_lt in L);
    try (destruct (after (m_end fd)) as [|x rest] eqn:Hend; [reflexivity|];
         cbn [length] in E1).
  - lia.
  - lia.
  - do 2 f_equal. apply IH; lia.
  - do 3 f_equal. apply IH; lia.
Qed.

(* ----------------------------------------------------------------- *)
(** *** What a match of the usual pieces looks like *)

Ltac inv H := inversion H; subst; clear H.

Lemma matches_seq (r1 r2 : regex) (c : cursor) (g : caps) (c' : cursor)
    (g' : caps) :
  matches (Seq r1 r2) c g c' g' ->
  exists c1 g1, matches r1 c g c1 g1 /\ matches r2 c1 g1 c' g'.
Proof. intros H. inv H. eauto. Qed.

Lemma matches_alt (r1 r2 : regex) (c : cursor) (g : caps) (c' : cursor)
    (g' : caps) :
  matches (Alt r1 r2) c g c' g' ->
  matches r1 c g c' g' \/ matches r2 c g c' g'.
Proof. intros H. inv H; auto. Qed.

Lemma matches_empty (c : cursor) (g : caps) (c' : cursor) (g' : caps) :
  matches Empty c g c' g' -> c' = c /\ g' = g.
Proof. intros H. inv H. auto. Qed.

Lemma matches_group (r : regex) (c : cursor) (g : caps) (c' : cursor)
    (g' : caps) :
  matches (Group r) c g c' g' ->
  exists g0, matches r c g c' g0 /\ g' = Some (c, c').
Proof. intros H. inv H. eauto. Qed.

Lemma matches_wordb (c : cursor) (g : caps) (c' : cursor) (g' : caps) :
  matches WordB c g c' g' ->
  xorb (isWordAt (hd_error (before c))) (isWordAt (hd_error (after c))) = true
  /\ c' = c /\ g' = g.
Proof. intros H. inv H. auto. Qed.

Lemma matches_class (p : N -> bool) (c : cursor) (g : caps) (c' : cursor)
    (g' : caps) :
  matches (Class p) c g c' g' ->
  exists x, p x = true /\ span c c' [x] /\ g' = g.
Proof.
  intros H. inv H. exists x. repeat split; assumption.
Qed.

Lemma matches_star_class (gr : bool) (p : N -> bool) (c : cursor) (g : caps)
    (c' : cursor) (g' : caps) :
  matches (Star gr (Class p)) c g c' g' ->
  exists mid, span c c' mid /\ forallb p mid = true /\ g' = g.
Proof.
  intros H. remember (Star gr (Class p)) as r eqn:Hr.
  induction H as [| | | | | |gr0 r0 c g c1 g1 c2 g2 Hm1 _ Hlt Hm2 IH2| | | |];
    try discriminate.
  - exists []. repeat split.
  - injection Hr as -> ->.
    apply matches_class in Hm1 as (x & Hx & Hs & ->).
    destruct (IH2 eq_refl) as (mid & Hs2 & Hall & ->).
    exists ([x] ++ mid). split; [eapply span_trans; eassumption|].
    simpl. rewrite Hx, Hall. auto.
Qed.

Lemma matches_litI (s : jsstring) (c : cursor) (g : caps) (c' : cursor)
    (g' : caps) :
  matches (litI s) c g c' g' ->
  exists mid, span c c' mid /\ ciEq mid s /\ g' = g.
Proof.
  revert c g. induction s as [|x s IH]; intros c g H.
  - apply matches_empty in H as [-> ->]. exists []. repeat split. constructor.
  - destruct s as [|y s].
    + simpl in H. apply matches_class in H as (z & Hz & Hs & ->).
      exists [z]. repeat split; try apply Hs. repeat constructor. exact Hz.
    + change (litI (x :: y :: s)) with (Seq (chrI x) (litI (y :: s))) in H.
      apply matches_seq in H as (c1 & g1 & H1 & H2).
      apply matches_class in H1 as (z & Hz & Hs & ->).
      apply IH in H2 as (mid & Hs2 & Hci & ->).
      exists ([z] ++ mid). split; [eapply span_trans; eassumption|].
      split; [|reflexivity]. constructor; assumption.
Qed.

Lemma startsWithCI_app (p1 p2 m1 s : jsstring) :
  ciEq m1 p1 -> startsWithCI p2 s = true ->
  startsWithCI (p1 ++ p2) (m1 ++ s) = true.
Proof.
  intros H. induction H as [|x y m1 p1 Hxy _ IH]; simpl; [auto|].
  intros Hs. rewrite Hxy. simpl. auto.
Qed.

Lemma startsWithCI_ciEq (p m s : jsstring) :
  ciEq m p -> startsWithCI p (m ++ s) = true.
Proof.
  intros H. rewrite <- (app_nil_r p). apply startsWithCI_app; [assumption|].
  reflexivity.
Qed.

Lemma matches_bol (c : cursor) (g : caps) (c' : cursor) (g' : caps) :
  matches Bol c g c' g' -> before c = [] /\ c' = c /\ g' = g.
Proof. intros H. inv H. auto. Qed.

Lemma matches_eol (c : cursor) (g : caps) (c' : cursor) (g' : caps) :
  matches Eol c g c' g' -> after c = [] /\ c' = c /\ g' = g.
Proof. intros H. inv H. auto. Qed.

(** An optional piece takes its text or nothing. *)
Lemma matches_opt_litI (s : jsstring) (c : cursor) (g : caps) (c' : cursor)
    (g' : caps) :
  matches (opt (litI s)) c g c' g' ->
  exists mid, span c c' mid /\ (ciEq mid s \/ mid = []) /\ g' = g.
Proof.
  intros H. apply matches_alt in H as [H|H].
  - apply matches_litI in H as (mid & Hs & Hci & ->). eauto.
  - apply matches_empty in H as [-> ->]. exists []. split; [apply span_refl|auto].
Qed.

Lemma matches_opt_group_litI (s : jsstring) (c : cursor) (g : caps)
    (c' : cursor) (g' : caps) :
  matches (opt (Group (litI s))) c g c' g' ->
  exists mid, span c c' mid /\ (ciEq mid s \/ mid = []).
Proof.
  intros H. apply matches_alt in H as [H|H].
  - apply matches_group in H as (g0 & H & _).
    apply matches_litI in H as (mid & Hs & Hci & _). eauto.
  - apply matches_empty in H as [-> ->]. exists []. split; [apply span_refl|auto].
Qed.

Lemma rev_app_nil (A : Type) (pre bef : list A) :
  rev pre ++ bef = [] -> pre = [] /\ bef = [].
Proof.
  intros H. apply app_eq_nil in H as [H1 H2]. split; [|assumption].
  destruct pre; [reflexivity|]. simpl in H1.
  apply app_eq_nil in H1 as [_ H1]. discriminate.
Qed.

(** A match that starts with [^] starts at the beginning. *)
Lemma matches_at_bol (r : regex) (pre post : jsstring) (c' : cursor) (g' : caps) :
  matches (Seq Bol r) (Cursor (rev pre ++ []) post) None c' g' ->
  pre = [] /\ matches r (Cursor [] post) None c' g'.
Proof.
  intros H. apply matches_seq in H as (c1 & g1 & H1 & H2).
  apply matches_bol in H1 as (Hb & -> & ->). simpl in Hb.
  apply rev_app_nil in Hb as [-> _]. auto.
Qed.

(* ================================================================= *)
(** ** DOI normalization *)

(** Comparisons of code units, with the impossible cases dropped as
    they come. *)
Ltac split_N :=
  repeat (match goal with
          | |- context [(?a <=? ?b)%N] => destruct (N.leb_spec a b)
          | |- context [(?a <? ?b)%N] => destruct (N.ltb_spec a b)
          | |- context [(?a =? ?b)%N] => destruct (N.eqb_spec a b)
          end; try (exfalso; lia));
  simpl; try reflexivity; try discriminate; try lia.

Lemma lowerCU_fixed (c : N) :
  isUpper c = false ->
  in_range 192 222 c && negb (c =? 215)%N = false ->
  lowerCU c = c.
Proof. intros H1 H2. unfold lowerCU. rewrite H1, H2. reflexivity. Qed.

Lemma lowerCU_idem (c : N) : lowerCU (lowerCU c) = lowerCU c.
Proof.
  unfold lowerCU at 2 3.
  destruct (isUpper c) eqn:U;
    [|destruct (in_range 192 222 c && negb (c =? 215)%N) eqn:L].
  - apply lowerCU_fixed; revert U; unfold isUpper, in_range; split_N.
  - apply lowerCU_fixed; revert L; unfold isUpper, in_range; split_N.
  - apply lowerCU_fixed; assumption.
Qed.

Lemma toLowerCase_idem (s : jsstring) :
  toLowerCase (toLowerCase s) = toLowerCase s.
Proof.
  unfold toLowerCase. rewrite map_map. apply map_ext. apply lowerCU_idem.
Qed.

Lemma normDOI_lower (s : jsstring) : toLowerCase (normDOI s) = normDOI s.
Proof.
  unfold normDOI. destruct (negb (truthy s)); [reflexivity|].
  apply toLowerCase_idem.
Qed.

Lemma trimStart_id (s : jsstring) : firstIs isSpace s = false -> trimStart s = s.
Proof. destruct s as [|c s]; simpl; [reflexivity|]. intros ->. reflexivity. Qed.

Lemma trim_id (s : jsstring) :
  firstIs isSpace s = false -> lastIs isSpace s = false -> trim s = s.
Proof.
  intros H1 H2. unfold trim, trimEnd. rewrite (trimStart_id _ H1).
  rewrite (trimStart_id _ H2). apply rev_involutive.
Qed.

Lemma exec_doi_label_none (s : jsstring) :
  firstIs isSpace s = false -> startsWithCI (js "doi:") s = false ->
  exec re_doi_label s = None.
Proof.
  intros Hsp Hdoi. apply search_none. intros pre post c' g' Hs Hm.
  unfold re_doi_label, seqs, star, space in Hm.
  apply matches_at_bol in Hm as [-> Hm]. simpl in Hs. subst post.
  apply matches_seq in Hm as (c1 & g1 & H1 & Hm).
  apply matches_star_class in H1 as (mid & [Hs1 _] & Hall & ->).
  apply matches_seq in Hm as (c2 & g2 & H2 & _).
  apply matches_litI in H2 as (mid2 & [Hs2 _] & Hci & _).
  simpl in Hs1. destruct mid as [|x mid].
  - simpl in Hs1. rewrite Hs1, Hs2 in Hdoi.
    rewrite startsWithCI_ciEq in Hdoi; [discriminate|assumption].
  - rewrite Hs1 in Hsp. simpl in Hsp, Hall. rewrite Hsp in Hall. discriminate.
Qed.

(** A match of [X\s*$] for a class [X]: the subject ends with a member
    of the class and white space. *)
Lemma matches_class_spaces_eol (p : N -> bool) (post : jsstring)
    (bef : list N) (c' : cursor) (g' : caps) :
  matches (seqs [Class p; star space; Eol]) (Cursor bef post) None c' g' ->
  exists x mid, post = x :: mid /\ p x = true /\ forallb isSpace mid = true
                /\ after c' = [].
Proof.
  intros Hm. unfold seqs, star, space in Hm.
  apply matches_seq in Hm as (c1 & g1 & H1 & Hm).
  apply matches_class in H1 as (x & Hx & [Hs1 _] & ->).
  apply matches_seq in Hm as (c2 & g2 & H2 & H3).
  apply matches_star_class in H2 as (mid & [Hs2 _] & Hall & ->).
  apply matches_eol in H3 as (He & -> & _).
  simpl in Hs1. rewrite He, app_nil_r in Hs2. rewrite Hs2 in Hs1.
  exists x, mid. auto.
Qed.

Lemma lastIs_space_tail (pre mid : jsstring) (x : N) :
  forallb isSpace mid = true -> lastIs isSpace (pre ++ x :: mid) = false ->
  mid = [].
Proof.
  intros Hall Hsp. unfold lastIs in Hsp. rewrite rev_app_distr in Hsp.
  simpl in Hsp. rewrite <- app_assoc in Hsp.
  destruct (rev mid) as [|y rmid] eqn:Hr.
  - apply (f_equal (@rev N)) in Hr. rewrite rev_involutive in Hr. exact Hr.
  - simpl in Hsp. assert (Hy : isSpace y = true); [|congruence].
    rewrite forallb_forall in Hall. apply Hall. apply in_rev. rewrite Hr.
    left. reflexivity.
Qed.

Lemma lastIs_last (p : N -> bool) (pre : jsstring) (x : N) :
  lastIs p (pre ++ [x]) = p x.
Proof. unfold lastIs. rewrite rev_app_distr. reflexivity. Qed.

Lemma exec_trailing_punct_none (s : jsstring) :
  lastIs isSpace s = false -> lastIs isDoiPunct s = false ->
  exec re_trailing_punct s = None.
Proof.
  intros Hsp Hp. apply search_none. intros pre post c' g' Hs Hm.
  unfold re_trailing_punct, oneOf in Hm.
  apply matches_class_spaces_eol in Hm as (x & mid & -> & Hx & Hall & _).
  subst s. pose proof (@lastIs_space_tail _ _ _ Hall Hsp) as ->.
  rewrite lastIs_last in Hp. unfold isDoiPunct in Hp. congruence.
Qed.

Lemma exec_doi_url_none (s : jsstring) :
  startsWithCI (js "http://doi.org/") s = false ->
  startsWithCI (js "https://doi.org/") s = false ->
  startsWithCI (js "http://dx.doi.org/") s = false ->
  startsWithCI (js "https://dx.doi.org/") s = false ->
  exec re_doi_url s = None.
Proof.
  intros N1 N2 N3 N4. apply search_none. intros pre post c' g' Hs Hm.
  unfold re_doi_url, seqs in Hm.
  apply matches_at_bol in Hm as [-> Hm]. simpl in Hs. subst post.
  apply matches_seq in Hm as (c1 & g1 & H1 & Hm).
  apply matches_litI in H1 as (m1 & [S1 _] & C1 & ->). simpl in S1.
  apply matches_seq in Hm as (c2 & g2 & H2 & Hm).
  change (chrI 115) with (litI [115%N]) in H2.
  apply matches_opt_litI in H2 as (m2 & [S2 _] & C2 & ->).
  apply matches_seq in Hm as (c3 & g3 & H3 & Hm).
  apply matches_litI in H3 as (m3 & [S3 _] & C3 & ->).
  apply matches_seq in Hm as (c4 & g4 & H4 & H5).
  apply matches_opt_group_litI in H4 as (m4 & [S4 _] & C4).
  apply matches_litI in H5 as (m5 & [S5 _] & C5 & _).
  assert (Hs : s = m1 ++ m2 ++ m3 ++ m4 ++ m5 ++ after c').
  { rewrite S1, S2, S3, S4, S5. reflexivity. }
  assert (E5 : startsWithCI (js "doi.org/") (m5 ++ after c') = true)
    by (apply startsWithCI_ciEq; assumption).
  destruct C2 as [C2| ->], C4 as [C4| ->].
  - assert (H : startsWithCI
                  (js "http" ++ [115%N] ++ js "://" ++ js "dx." ++ js "doi.org/") s
                = true).
    { rewrite Hs. repeat (apply startsWithCI_app; [assumption|]). exact E5. }
    vm_compute in N4. vm_compute in H. congruence.
  - assert (H : startsWithCI
                  (js "http" ++ [115%N] ++ js "://" ++ js "doi.org/") s = true).
    { rewrite Hs. repeat (apply startsWithCI_app; [assumption|]). exact E5. }
    vm_compute in N2. vm_compute in H. congruence.
  - assert (H : startsWithCI
                  (js "http" ++ js "://" ++ js "dx." ++ js "doi.org/") s = true).
    { rewrite Hs. cbn [app].
      repeat (apply startsWithCI_app; [assumption|]). exact E5. }
    vm_compute in N3. vm_compute in H. congruence.
  - assert (H : startsWithCI (js "http" ++ js "://" ++ js "doi.org/") s = true).
    { rewrite Hs. cbn [app].
      repeat (apply startsWithCI_app; [assumption|]). exact E5. }
    vm_compute in N1. vm_compute in H. congruence.
Qed.

Lemma normDOI_clean (r : jsstring) :
  cleanDOI r = true -> toLowerCase r = r -> normDOI r = r.
Proof.
  unfold cleanDOI. intros H Hlow.
  apply andb_true_iff in H as [H N4]. apply andb_true_iff in H as [H N3].
  apply andb_true_iff in H as [H N2]. apply andb_true_iff in H as [H N1].
  apply andb_true_iff in H as [H Hdoi]. apply andb_true_iff in H as [H Hp].
  apply andb_true_iff in H as [Hf Hl].
  apply negb_true_iff in N1, N2, N3, N4, Hdoi, Hp, Hf, Hl.
  unfold normDOI. destruct r as [|x r]; [reflexivity|].
  cbn [truthy negb].
  rewrite trim_id by assumption.
  rewrite (@replace_none re_doi_url) by (apply exec_doi_url_none; assumption).
  rewrite (@replace_none re_doi_label) by (apply exec_doi_label_none; assumption).
  rewrite (@replace_none re_trailing_punct)
    by (apply exec_trailing_punct_none; assumption).
  exact Hlow.
Qed.

(** C5, as stated, fails: a second [doi:] label survives the first
    normalization and is stripped by the second. *)
Lemma C5_counterexample :
  normDOI (js "doi:doi:10.1002/joc.8401") = js "doi:10.1002/joc.8401" /\
  normDOI (normDOI (js "doi:doi:10.1002/joc.8401"))
    <> normDOI (js "doi:doi:10.1002/joc.8401").
Proof.
  split; [vm_compute; reflexivity|].
  vm_compute. discriminate.
Qed.

(** C5, amended.  [normDOI] maps the three variants of the DOI of the
    specification to one string, and [normDOI (normDOI s) = normDOI s]
    for every [s] whose normalized form has nothing left to strip (no
    white space at either end, none of [. , ;] at the end, no [doi:]
    label and no [doi.org] address in front). *)
Theorem C5_normDOI_variants (s : jsstring)
    (Hclean : cleanDOI (normDOI s) = true) :
  normDOI (normDOI s) = normDOI s /\
  normDOI (js "10.1002/JOC.8401") = normDOI (js "https://doi.org/10.1002/joc.8401") /\
  normDOI (js "https://doi.org/10.1002/joc.8401") = normDOI (js "doi:10.1002/joc.8401.") /\
  normDOI (js "doi:10.1002/joc.8401.") = js "10.1002/joc.8401".
Proof.
  split; [apply normDOI_clean; [assumption|apply normDOI_lower]|].
  split; [vm_compute; reflexivity|].
  split; vm_compute; reflexivity.
Qed.

Lemma C5_normDOI_variants_witness :
  normDOI (normDOI (js "doi:10.1002/joc.8401."))
  = normDOI (js "doi:10.1002/joc.8401.").
Proof.
  refine (proj1 (@C5_normDOI_variants (js "doi:10.1002/joc.8401.") _)).
  vm_compute. reflexivity.
Defined.

(* ================================================================= *)
(** ** The year of a reference *)

Lemma between_advance (bef aft mid : list N) :
  between (Cursor bef (mid ++ aft)) (Cursor (rev mid ++ bef) aft) = mid.
Proof. apply span_between. split; reflexivity. Qed.

(** At one position, [\d{4}] matches exactly when four digits follow. *)
Lemma matcher_year (bef aft : list N) :
  matcher re_year (Cursor bef aft) None accept =
  match aft with
  | a :: b :: c :: d :: rest =>
      if isDigit a && isDigit b && isDigit c && isDigit d
      then Some (Cursor (d :: c :: b :: a :: bef) rest, None)
      else None
  | _ => None
  end.
Proof.
  unfold re_year, seqs, digit. cbn [matcher after before].
  destruct aft as [|a [|b [|c [|d rest]]]]; cbn [matcher after before];
    try reflexivity;
    repeat match goal with
    | |- context [isDigit ?x] => destruct (isDigit x); cbn [andb]; try reflexivity
    end.
Qed.

Lemma search_year (aft bef : list N) :
  match search re_year bef aft with
  | Some fd => firstRun4 aft = Some (matched fd)
  | None => firstRun4 aft = None
  end.
Proof.
  revert bef. induction aft as [|a aft IH]; intros bef.
  - reflexivity.
  - cbn [search]. rewrite matcher_year. specialize (IH (a :: bef)).
    destruct aft as [|b [|c [|d rest]]].
    + cbn [firstRun4] in *.
      destruct (search re_year (a :: bef) _); [discriminate IH|reflexivity].
    + cbn [firstRun4] in *.
      destruct (search re_year (a :: bef) _); [discriminate IH|reflexivity].
    + cbn [firstRun4] in *.
      destruct (search re_year (a :: bef) _); [discriminate IH|reflexivity].
    + cbn [firstRun4].
      destruct (isDigit a && isDigit b && isDigit c && isDigit d).
      * unfold matched. cbn [m_start m_end].
        f_equal. symmetry. exact (between_advance bef rest [a; b; c; d]).
      * exact IH.
Qed.

Lemma firstRun4_digits (s y : jsstring) :
  firstRun4 s = Some y ->
  exists pre post, s = pre ++ y ++ post /\ length y = 4 /\
                   forallb isDigit y = true.
Proof.
  induction s as [|a s IH]; [discriminate|].
  cbn [firstRun4]. destruct s as [|b [|c [|d rest]]]; try discriminate.
  destruct (isDigit a && isDigit b && isDigit c && isDigit d) eqn:E.
  - intros H. injection H as <-. exists [], rest.
    repeat split. cbn [forallb]. rewrite andb_true_r.
    rewrite !andb_assoc. exact E.
  - intros H. apply IH in H as (pre & post & Hs & Hl & Hd).
    exists (a :: pre), post. rewrite Hs. auto.
Qed.

(** No run of four digits starts before the one that [firstRun4]
    returns, and there is none at all when it returns none. *)
Lemma firstRun4_first (s pre y post : jsstring) :
  s = pre ++ y ++ post -> length y = 4 -> forallb isDigit y = true ->
  exists y', firstRun4 s = Some y' /\
    exists pre' post', s = pre' ++ y' ++ post' /\ length pre' <= length pre.
Proof.
  revert pre. induction s as [|a s IH]; intros pre Hs Hl Hd.
  - destruct pre; destruct y; simpl in *; discriminate.
  - destruct y as [|y1 [|y2 [|y3 [|y4 [|]]]]]; try discriminate.
    cbn [forallb] in Hd. rewrite andb_true_r, !andb_assoc in Hd.
    destruct pre as [|p pre].
    + simpl in Hs. injection Hs as -> ->. cbn [firstRun4]. rewrite Hd.
      exists [y1; y2; y3; y4]. split; [reflexivity|].
      exists [], post. split; [reflexivity|simpl; lia].
    + simpl in Hs. injection Hs as -> Hs.
      destruct (IH pre Hs eq_refl) as (y' & Hy' & pre' & post' & Hs' & Hle).
      { cbn [forallb]. rewrite andb_true_r, !andb_assoc. exact Hd. }
      cbn [firstRun4]. destruct s as [|b [|c [|d rest]]]; try discriminate.
      destruct (isDigit p && isDigit b && isDigit c && isDigit d).
      * exists [p; b; c; d]. split; [reflexivity|].
        exists [], rest. split; [reflexivity|simpl; lia].
      * exists y'. split; [assumption|].
        exists (p :: pre'), post'. rewrite Hs'. split; [reflexivity|simpl; lia].
Qed.

(** C8, as stated, fails: a [year] field without a run of four digits
    is not passed over for the [date] field. *)
Lemma C8_counterexample :
  let e := js "@misc{k, year = {in press}, date = {2020-01-01}}" in
  getBibField e (js "year") = js "in press" /\
  firstRun4 (js "in press") = None /\
  getBibField e (js "date") = js "2020-01-01" /\
  firstRun4 (js "2020-01-01") = Some (js "2020") /\
  apaYear e = js "n.d." /\
  apaFromBibtexEntry e = js "(n.d.). .".
Proof.
  repeat (split; [vm_compute; reflexivity|]). vm_compute. reflexivity.
Qed.

(** C8, amended.  The year of the reference is the first run of four
    digits of the [year] field when that field has a value, and of the
    [date] field otherwise; it is the placeholder ["n.d."] exactly
    when the field it is read from holds no run of four digits. *)
Theorem C8_year_component (entry : jsstring) :
  apaYear entry =
    match firstRun4 (yearSource entry) with
    | Some y => y
    | None => js "n.d."
    end /\
  (apaYear entry = js "n.d." <-> firstRun4 (yearSource entry) = None) /\
  (forall y, firstRun4 (yearSource entry) = Some y ->
     exists pre post, yearSource entry = pre ++ y ++ post /\
       length y = 4 /\ forallb isDigit y = true) /\
  (firstRun4 (yearSource entry) = None ->
     forall pre y post, yearSource entry = pre ++ y ++ post ->
       length y = 4 -> forallb isDigit y = false).
Proof.
  assert (Hyear : apaYear entry =
    match firstRun4 (yearSource entry) with
    | Some y => y
    | None => js "n.d."
    end).
  { unfold apaYear, exec.
    change (apaYearRaw entry) with (yearSource entry).
    pose proof (search_year (yearSource entry) []) as H.
    destruct (search re_year [] (yearSource entry)) as [fd|]; rewrite H;
      [|reflexivity].
    apply firstRun4_digits in H as (_ & _ & _ & Hl & _).
    destruct (matched fd); [discriminate|reflexivity]. }
  split; [exact Hyear|]. split; [|split].
  - rewrite Hyear. destruct (firstRun4 (yearSource entry)) as [y|] eqn:E.
    + split; [|discriminate]. intros ->.
      apply firstRun4_digits in E as (_ & _ & _ & _ & Hd).
      vm_compute in Hd. discriminate.
    + split; reflexivity.
  - intros y. apply firstRun4_digits.
  - intros Hnone pre y post Hs Hl.
    destruct (forallb isDigit y) eqn:Hd; [|reflexivity].
    destruct (firstRun4_first _ _ _ Hs Hl Hd) as (y' & Hy' & _). congruence.
Qed.

(* ================================================================= *)
(** ** The Field Extractor *)

Lemma trimStart_keeps (c : N) (s : jsstring) :
  In c s -> isSpace c = false -> In c (trimStart s).
Proof.
  intros Hin Hc. induction s as [|x s IH]; [contradiction|].
  simpl. destruct (isSpace x) eqn:Hx; [|assumption].
  destruct Hin as [->|Hin]; [congruence|auto].
Qed.

Lemma trim_keeps (c : N) (s : jsstring) :
  In c s -> isSpace c = false -> In c (trim s).
Proof.
  intros Hin Hc. unfold trim, trimEnd. rewrite <- in_rev.
  apply trimStart_keeps; [|assumption]. rewrite <- in_rev.
  apply trimStart_keeps; assumption.
Qed.

(** Removing [,\s*$] leaves what is neither a comma nor white space. *)
Lemma strip_comma_keeps (c : N) (w : jsstring) :
  In c w -> isSpace c = false -> c <> 44%N ->
  In c (replace re_trailing_comma emptyStr w).
Proof.
  intros Hin Hsp Hc. unfold replace, exec.
  destruct (search re_trailing_comma [] w) as [fd|] eqn:E; [|assumption].
  apply search_sound in E as (pre & post & Hw & Hstart & Hm).
  rewrite Hstart in Hm. unfold re_trailing_comma, chr in Hm.
  apply matches_class_spaces_eol in Hm as (x & mid & -> & Hx & Hall & Hend).
  rewrite Hstart, Hend. cbn [before emptyStr app].
  rewrite !app_nil_r, rev_involutive.
  subst w. apply in_app_or in Hin as [Hin|[Hin|Hin]]; [assumption| |].
  - apply N.eqb_eq in Hx. congruence.
  - rewrite forallb_forall in Hall. apply Hall in Hin. congruence.
Qed.

Lemma hasContent_char (v : jsstring) :
  hasContent v = true ->
  exists c, In c v /\ isSpace c = false /\ c <> 44%N.
Proof.
  unfold hasContent. intros H. apply existsb_exists in H as (c & Hin & Hc).
  apply negb_true_iff, orb_false_iff in Hc as [H1 H2].
  apply N.eqb_neq in H2. eauto.
Qed.

Lemma getBibField_content (entry name v : jsstring) :
  rawField entry name = Some v -> hasContent v = true ->
  getBibField entry name <> [].
Proof.
  unfold rawField, getBibField. intros Hraw Hv.
  apply hasContent_char in Hv as (c & Hin & Hsp & Hc).
  assert (Hne : forall l : jsstring, In c l -> l <> []).
  { intros l Hl ->. contradiction. }
  destruct (exec (reBrace name) entry) as [m1|].
  { injection Hraw as <-. apply Hne, strip_comma_keeps; auto.
    apply trim_keeps; assumption. }
  destruct (exec (reQuote name) entry) as [m2|].
  { injection Hraw as <-. apply Hne, strip_comma_keeps; auto.
    apply trim_keeps; assumption. }
  destruct (exec (reBare name) entry) as [m3|]; [|discriminate].
  injection Hraw as <-. apply Hne, trim_keeps; assumption.
Qed.

Lemma getBibField_absent (entry name : jsstring) :
  rawField entry name = None -> getBibField entry name = [].
Proof.
  unfold rawField, getBibField.
  destruct (exec (reBrace name) entry); [discriminate|].
  destruct (exec (reQuote name) entry); [discriminate|].
  destruct (exec (reBare name) entry); [discriminate|reflexivity].
Qed.

(** C7, as stated, fails: a field that occurs with an empty value is
    extracted as the empty string. *)
Lemma C7_counterexample :
  let e := js "@misc{k, title = {}}" in
  splitBibEntries e = [e] /\
  rawField e (js "title") = Some [] /\
  getBibField e (js "title") = [].
Proof.
  split; [vm_compute; reflexivity|].
  split; vm_compute; reflexivity.
Qed.

(** C7, amended.  For every entry that the Entry Splitter produces and
    every field name that occurs in it in one of the three styles,
    [getBibField] returns a non-empty string whenever the value of the
    field (what the first style that matches captures) holds a code
    unit that is neither white space nor a comma. *)
Theorem C7_extractor_nonempty (text entry name v : jsstring)
    (Hentry : In entry (splitBibEntries text))
    (Hname : fieldName name = true)
    (Hoccurs : rawField entry name = Some v)
    (Hvalue : hasContent v = true) :
  getBibField entry name <> [].
Proof. exact (getBibField_content entry name Hoccurs Hvalue). Qed.

Lemma C7_extractor_nonempty_witness :
  getBibField wallis2024 (js "journal") <> [].
Proof.
  apply (@C7_extractor_nonempty wallis2024 wallis2024 (js "journal")
           (js "International Journal of Climatology")).
  - vm_compute. left. reflexivity.
  - vm_compute. reflexivity.
  - vm_compute. reflexivity.
  - vm_compute. reflexivity.
Defined.

(* ================================================================= *)
(** ** Sentence case *)

(* ----------------------------------------------------------------- *)
(** *** The tokens of [split(/\b/)] *)





(* ----------------------------------------------------------------- *)
(** *** The test for capitals *)




(* ----------------------------------------------------------------- *)
(** *** The loop that keeps the tokens with capitals *)





(* ----------------------------------------------------------------- *)
(** *** The first letter *)




(* ----------------------------------------------------------------- *)
(** *** The letters after colons *)


Lemma in_range_spec (lo hi c : N) :
  in_range lo hi c = true <-> (lo <= c /\ c <= hi)%N.
Proof.
  unfold in_range. rewrite andb_true_iff, !N.leb_le. reflexivity.
Qed.











(* ----------------------------------------------------------------- *)
(** *** The tokens of the lower-cased title *)










Lemma forallb_rev (p : N -> bool) (l : jsstring) :
  forallb p (rev l) = forallb p l.
Proof.
  induction l as [|x l IH]; [reflexivity|].
  cbn [rev forallb]. rewrite forallb_app, IH. cbn [forallb].
  rewrite andb_true_r. apply andb_comm.
Qed.













(* ================================================================= *)
(** ** Global replacement, step by step *)

Lemma between_same (c : cursor) : between c c = [].
Proof. unfold between. rewrite Nat.sub_diag. reflexivity. Qed.

Lemma between_cons (x : N) (bef aft : list N) (c' : cursor) :
  length (after c') <= length aft ->
  between (Cursor bef (x :: aft)) c' = x :: between (Cursor (x :: bef) aft) c'.
Proof.
  intros H. unfold between. cbn [after length].
  replace (S (length aft) - length (after c'))
    with (S (length aft - length (after c'))) by lia.
  reflexivity.
Qed.

(** No match at this position: the code unit is copied. *)
Lemma replaceAll_go_skip (r : regex) (f : found -> jsstring) (fuel : nat)
    (x : N) (bef aft : list N) :
  matcher r (Cursor bef (x :: aft)) None accept = None ->
  replaceAll_go (S fuel) r f bef (x :: aft)
  = x :: replaceAll_go (S fuel) r f (x :: bef) aft.
Proof.
  intros H. cbn [replaceAll_go search]. rewrite H.
  destruct (search r (x :: bef) aft) as [fd|] eqn:E; [|reflexivity].
  apply search_within in E as [_ E].
  rewrite (between_cons x bef aft _ E). reflexivity.
Qed.

(** A match at this position: it is replaced, and the replacement
    goes on after it. *)
Lemma replaceAll_go_hit (r : regex) (f : found -> jsstring) (fuel : nat)
    (bef aft : list N) (c' : cursor) (g : caps) :
  matcher r (Cursor bef aft) None accept = Some (c', g) ->
  replaceAll_go (S fuel) r f bef aft
  = f (Found (Cursor bef aft) c' g) ++
    (if length (after c') <? length aft
     then replaceAll_go fuel r f (before c') (after c')
     else match after c' with
          | [] => []
          | x :: rest => x :: replaceAll_go fuel r f (x :: before c') rest
          end).
Proof.
  intros H. cbn [replaceAll_go].
  assert (Hs : search r bef aft = Some (Found (Cursor bef aft) c' g)).
  { destruct aft; cbn [search]; rewrite H; reflexivity. }
  rewrite Hs. cbn [m_start m_end after before]. rewrite between_same.
  reflexivity.
Qed.

(** A class with the [g] flag: each member is replaced on its own. *)
Lemma replaceAll_go_class (p : N -> bool) (h : jsstring -> jsstring)
    (aft : list N) :
  forall bef fuel,
    length aft < fuel ->
    replaceAll_go fuel (Class p) (fun fd => h (matched fd)) bef aft
    = flat_map (fun c => if p c then h [c] else [c]) aft.
Proof.
  induction aft as [|x aft IH]; intros bef fuel Hfuel;
    (destruct fuel as [|fuel]; [inversion Hfuel|]).
  - reflexivity.
  - cbn [flat_map]. destruct (p x) eqn:Hp.
    + rewrite (@replaceAll_go_hit (Class p) _ fuel bef (x :: aft)
                 (Cursor (x :: bef) aft) None)
        by (cbn [matcher after before]; rewrite Hp; reflexivity).
      cbn [after before length].
      assert (Hlt : (length aft <? S (length aft)) = true)
        by (apply Nat.ltb_lt; lia).
      rewrite Hlt. unfold matched. cbn [m_start m_end].
      change (between (Cursor bef (x :: aft)) (Cursor (x :: bef) aft))
        with (between (Cursor bef ([x] ++ aft)) (Cursor (rev [x] ++ bef) aft)).
      rewrite between_advance. f_equal. apply IH. simpl in Hfuel. lia.
    + rewrite replaceAll_go_skip
        by (cbn [matcher after before]; rewrite Hp; reflexivity).
      cbn [app]. f_equal. apply IH. simpl in Hfuel. lia.
Qed.

Lemma replaceAll_class (p : N -> bool) (h : jsstring -> jsstring)
    (s : jsstring) :
  replaceAll (Class p) (fun fd => h (matched fd)) s
  = flat_map (fun c => if p c then h [c] else [c]) s.
Proof. unfold replaceAll. apply replaceAll_go_class. lia. Qed.

(** A class with the [g] flag and the empty replacement: a filter. *)
Lemma replaceAll_class_delete (p : N -> bool) (s : jsstring) :
  replaceAll (Class p) emptyStr s = filter (fun c => negb (p c)) s.
Proof.
  change emptyStr with (fun fd : found => (fun _ : jsstring => @nil N) (matched fd)).
  rewrite replaceAll_class.
  induction s as [|x s IH]; [reflexivity|].
  cbn [flat_map filter]. destruct (p x); cbn [negb app]; congruence.
Qed.

Lemma spanOf_spec (p : N -> bool) (s : jsstring) :
  s = fst (spanOf p s) ++ snd (spanOf p s) /\
  forallb p (fst (spanOf p s)) = true /\
  firstIs p (snd (spanOf p s)) = false.
Proof.
  induction s as [|x s IH]; [auto|].
  cbn [spanOf]. destruct (p x) eqn:Hx.
  - destruct (spanOf p s) as [run r]. cbn [fst snd] in *.
    destruct IH as (H1 & H2 & H3). repeat split.
    + simpl. congruence.
    + simpl. rewrite Hx, H2. reflexivity.
    + assumption.
  - cbn [fst snd firstIs app forallb]. auto.
Qed.

(** A greedy [X*] at the end of a pattern takes the whole run. *)
Lemma starLoop_greedy_accept (step : cursor -> caps -> cont -> outcome)
    (p : N -> bool) (rest : jsstring)
    (Hstep : forall c g' k',
       step c g' k' =
       match after c with
       | x :: aft => if p x then k' (Cursor (x :: before c) aft) g' else None
       | [] => None
       end)
    (Hrest : firstIs p rest = false) (run : jsstring) :
  forall (bef : list N) (fuel : nat),
    forallb p run = true -> length run < fuel ->
    starLoop step true accept fuel (Cursor bef (run ++ rest)) None
    = Some (Cursor (rev run ++ bef) rest, None).
Proof.
  induction run as [|x run IH]; intros bef fuel Hall Hfuel;
    (destruct fuel as [|fuel]; [inversion Hfuel|]).
  - cbn [starLoop]. rewrite Hstep. cbn [after app rev].
    destruct rest as [|y rest]; [reflexivity|].
    cbn [firstIs] in Hrest. rewrite Hrest. reflexivity.
  - cbn [forallb] in Hall. apply andb_true_iff in Hall as [Hx Hall].
    cbn [starLoop]. rewrite Hstep. cbn [after before app]. rewrite Hx.
    assert (Hlt : (length (run ++ rest) <? length (x :: run ++ rest)) = true)
      by (apply Nat.ltb_lt; simpl; lia).
    rewrite Hlt. rewrite (IH (x :: bef) fuel Hall) by (simpl in Hfuel; lia).
    cbn [rev]. rewrite <- app_assoc. reflexivity.
Qed.

(** [X+] at one position: the whole run of members that starts
    there, if one does. *)
Lemma matcher_plus_class (p : N -> bool) (bef aft : list N) :
  matcher (plus (Class p)) (Cursor bef aft) None accept =
  match aft with
  | x :: aft' =>
      if p x
      then Some (Cursor (rev (x :: fst (spanOf p aft')) ++ bef)
                   (snd (spanOf p aft')), None)
      else None
  | [] => None
  end.
Proof.
  unfold plus. cbn [matcher after before].
  destruct aft as [|x aft']; [reflexivity|].
  destruct (p x) eqn:Hx; [|reflexivity].
  destruct (spanOf_spec p aft') as (H1 & H2 & H3).
  cbn [after]. rewrite H1 at 1 2.
  rewrite (@starLoop_greedy_accept (matcher (Class p)) p); try assumption.
  - cbn [rev]. rewrite <- app_assoc. reflexivity.
  - intros c g' k'. reflexivity.
  - apply (f_equal (@length N)) in H1. rewrite length_app in *. lia.
Qed.

Lemma squeeze_run (p : N -> bool) (rep run rest : jsstring) :
  forallb p run = true -> firstIs p rest = false ->
  squeeze p rep true (run ++ rest) = squeeze p rep false rest.
Proof.
  intros Hall Hrest. induction run as [|x run IH].
  - destruct rest as [|y rest]; [reflexivity|].
    cbn [firstIs] in Hrest. cbn [app squeeze]. rewrite Hrest. reflexivity.
  - cbn [forallb] in Hall. apply andb_true_iff in Hall as [Hx Hall].
    cbn [app squeeze]. rewrite Hx. auto.
Qed.

(** [X+] with the [g] flag and a fixed replacement: every maximal
    run of members becomes the replacement. *)
Lemma replaceAll_go_plus (p : N -> bool) (rep : jsstring) (n : nat) :
  forall aft bef fuel,
    length aft <= n -> length aft < fuel ->
    replaceAll_go fuel (plus (Class p)) (fun _ => rep) bef aft
    = squeeze p rep false aft.
Proof.
  induction n as [|n IH]; intros aft bef fuel Hn Hfuel;
    (destruct fuel as [|fuel]; [inversion Hfuel|]);
    (destruct aft as [|x aft]; [reflexivity|]); [simpl in Hn; lia|].
  cbn [squeeze]. destruct (p x) eqn:Hx.
  - destruct (spanOf_spec p aft) as (H1 & H2 & H3).
    rewrite (@replaceAll_go_hit (plus (Class p)) _ fuel bef (x :: aft)
               (Cursor (rev (x :: fst (spanOf p aft)) ++ bef)
                  (snd (spanOf p aft))) None)
      by (rewrite matcher_plus_class, Hx; reflexivity).
    cbn [after before].
    assert (Hlen : length (snd (spanOf p aft)) <= length aft).
    { apply (f_equal (@length N)) in H1. rewrite length_app in H1. lia. }
    assert (Hlt : (length (snd (spanOf p aft)) <? length (x :: aft)) = true)
      by (apply Nat.ltb_lt; simpl; lia).
    rewrite Hlt. f_equal.
    rewrite IH by (simpl in Hn, Hfuel; lia).
    rewrite H1 at 2. symmetry. apply squeeze_run; assumption.
  - rewrite replaceAll_go_skip by (rewrite matcher_plus_class, Hx; reflexivity).
    f_equal. apply IH; simpl in Hn, Hfuel; lia.
Qed.

Lemma replaceAll_plus (p : N -> bool) (rep s : jsstring) :
  replaceAll (plus (Class p)) (fun _ => rep) s = squeeze p rep false s.
Proof. unfold replaceAll. apply (@replaceAll_go_plus p rep (length s)); lia. Qed.

(* ================================================================= *)
(** ** HTML escaping *)

Lemma esc_flat_map (s : option jsstring) :
  esc s = flat_map
            (fun c => if existsb (N.eqb c) [38; 60; 62; 34; 39]%N
                      then entityOf [c] else [c]) (orEmpty s).
Proof. unfold esc, re_html, oneOf. apply replaceAll_class. Qed.

(** X1.  What [esc] returns holds no [<], no [>] and no quote, and a
    text without [&], [<], [>] and quotes is returned as it is
    ([null] and [undefined] as the empty string). *)
Theorem esc_no_markup (s : option jsstring) :
  (forall c, In c (esc s) ->
     c <> 60%N /\ c <> 62%N /\ c <> 34%N /\ c <> 39%N) /\
  (forallb (fun c => negb (existsb (N.eqb c) [38; 60; 62; 34; 39]%N))
     (orEmpty s) = true -> esc s = orEmpty s).
Proof.
  rewrite esc_flat_map. split.
  - intros c Hc. apply in_flat_map in Hc as (x & _ & Hc).
    assert (Hent : forall e, In c (entityOf [e]) ->
              existsb (N.eqb e) [38; 60; 62; 34; 39]%N = true ->
              c <> 60%N /\ c <> 62%N /\ c <> 34%N /\ c <> 39%N).
    { intros e He Hp. cbn [existsb] in Hp.
      repeat (apply orb_true_iff in Hp as [Hp|Hp];
              [apply N.eqb_eq in Hp; subst e; vm_compute in He;
               repeat (destruct He as [<-|He]; [repeat split; discriminate|]);
               contradiction|]).
      discriminate. }
    destruct (existsb (N.eqb x) [38; 60; 62; 34; 39]%N) eqn:E.
    + apply (Hent x); assumption.
    + cbn [existsb] in E. destruct Hc as [<-|[]].
      repeat (apply orb_false_iff in E as [? E]).
      repeat match goal with H : (_ =? _)%N = false |- _ =>
        apply N.eqb_neq in H end.
      auto.
  - generalize (orEmpty s) as l.
    induction l as [|x l IH]; [reflexivity|].
    cbn [forallb flat_map]. intros H. apply andb_true_iff in H as [Hx Hl].
    apply negb_true_iff in Hx. rewrite Hx. cbn [app]. f_equal. auto.
Qed.

(* ================================================================= *)
(** ** Page ranges *)

Lemma squeeze_delete (p : N -> bool) (s : jsstring) :
  forall b, squeeze p [] b s = filter (fun c => negb (p c)) s.
Proof.
  induction s as [|x s IH]; intros b; [reflexivity|].
  cbn [squeeze filter]. destruct (p x); cbn [negb app].
  - destruct b; apply IH.
  - f_equal. apply IH.
Qed.

Lemma replaceAll_go_hyphens (n : nat) :
  forall aft bef fuel,
    length aft <= n -> length aft < fuel ->
    replaceAll_go fuel re_hyphens (fun _ => js "–") bef aft = dashes aft.
Proof.
  induction n as [|n IH]; intros aft bef fuel Hn Hfuel;
    (destruct fuel as [|fuel]; [inversion Hfuel|]);
    (destruct aft as [|x aft]; [reflexivity|]); [simpl in Hn; lia|].
  cbn [dashes]. unfold re_hyphens, chr, opt.
  change (js "–") with [8211%N] in *.
  destruct (x =? 45)%N eqn:Hx.
  - destruct aft as [|y aft].
    + rewrite (@replaceAll_go_hit _ _ fuel bef [x] (Cursor (x :: bef) []) None)
        by (cbn [matcher after before]; rewrite N.eqb_sym, Hx; reflexivity).
      cbn [after length]. destruct fuel; reflexivity.
    + destruct (y =? 45)%N eqn:Hy.
      * rewrite (@replaceAll_go_hit _ _ fuel bef (x :: y :: aft)
                   (Cursor (y :: x :: bef) aft) None)
          by (cbn [matcher after before]; rewrite N.eqb_sym, Hx;
              cbn [matcher after before]; rewrite N.eqb_sym, Hy; reflexivity).
        cbn [after before].
        assert (Hlt : (length aft <? length (x :: y :: aft)) = true)
          by (apply Nat.ltb_lt; simpl; lia).
        rewrite Hlt. cbn [app]. f_equal. apply IH; simpl in *; lia.
      * rewrite (@replaceAll_go_hit _ _ fuel bef (x :: y :: aft)
                   (Cursor (x :: bef) (y :: aft)) None)
          by (cbn [matcher after before]; rewrite N.eqb_sym, Hx;
              cbn [matcher after before]; rewrite N.eqb_sym, Hy; reflexivity).
        cbn [after before].
        assert (Hlt : (length (y :: aft) <? length (x :: y :: aft)) = true)
          by (apply Nat.ltb_lt; simpl; lia).
        rewrite Hlt. cbn [app]. f_equal. apply IH; simpl in *; lia.
  - rewrite replaceAll_go_skip
      by (cbn [matcher after before]; rewrite N.eqb_sym, Hx; reflexivity).
    f_equal. apply IH; simpl in *; lia.
Qed.

Lemma pagesNormalize_eq (p : jsstring) :
  pagesNormalize p = dashes (filter (fun c => negb (isSpace c)) (trim p)).
Proof.
  unfold pagesNormalize, re_spaces, space.
  change emptyStr with (fun _ : found => @nil N).
  rewrite replaceAll_plus, squeeze_delete. unfold replaceAll.
  apply (@replaceAll_go_hyphens (length (filter (fun c => negb (isSpace c)) (trim p))));
    lia.
Qed.

Lemma dashes_chars (n : nat) :
  forall s c, length s <= n -> In c (dashes s) ->
    c = 8211%N \/ (In c s /\ c <> 45%N).
Proof.
  induction n as [|n IH]; intros s c Hn Hc;
    (destruct s as [|x s]; [contradiction|]); [simpl in Hn; lia|].
  cbn [dashes] in Hc. destruct (x =? 45)%N eqn:Hx.
  - destruct Hc as [<-|Hc]; [auto|]. destruct s as [|y s]; [contradiction|].
    destruct (y =? 45)%N.
    + apply IH in Hc; [|simpl in *; lia].
      destruct Hc as [Hc|[Hc1 Hc2]]; [auto|]. right. cbn [In]. auto.
    + apply IH in Hc; [|simpl in *; lia].
      destruct Hc as [Hc|[Hc1 Hc2]]; [auto|]. right. cbn [In]. auto.
  - destruct Hc as [<-|Hc].
    + right. apply N.eqb_neq in Hx. cbn [In]. auto.
    + apply IH in Hc; [|simpl in *; lia].
      destruct Hc as [Hc|[Hc1 Hc2]]; [auto|]. right. cbn [In]. auto.
Qed.

Lemma dashes_id (s : jsstring) :
  forallb (fun c => negb (c =? 45)%N) s = true -> dashes s = s.
Proof.
  induction s as [|x s IH]; [reflexivity|].
  cbn [forallb dashes]. intros H. apply andb_true_iff in H as [Hx Hs].
  apply negb_true_iff in Hx. rewrite Hx. f_equal. auto.
Qed.

Lemma filter_id (p : N -> bool) (s : jsstring) :
  forallb p s = true -> filter p s = s.
Proof.
  induction s as [|x s IH]; [reflexivity|].
  cbn [forallb filter]. intros H. apply andb_true_iff in H as [Hx Hs].
  rewrite Hx. f_equal. auto.
Qed.

Lemma firstIs_forallb (p q : N -> bool) (s : jsstring) :
  (forall c, q c = true -> p c = false) -> forallb q s = true ->
  firstIs p s = false.
Proof.
  intros Hpq. destruct s as [|x s]; [reflexivity|].
  cbn [forallb firstIs]. intros H. apply andb_true_iff in H as [Hx _]. auto.
Qed.

Lemma lastIs_forallb (p q : N -> bool) (s : jsstring) :
  (forall c, q c = true -> p c = false) -> forallb q s = true ->
  lastIs p s = false.
Proof.
  intros Hpq H. unfold lastIs. apply (firstIs_forallb p q); [assumption|].
  rewrite forallb_rev. assumption.
Qed.

(** X2.  A normalized page range holds no hyphen-minus and no white
    space, and normalizing it again changes nothing. *)
Theorem pagesNormalize_shape (p : jsstring) :
  (forall c, In c (pagesNormalize p) -> c <> 45%N /\ isSpace c = false) /\
  pagesNormalize (pagesNormalize p) = pagesNormalize p.
Proof.
  assert (Hshape : forall c, In c (pagesNormalize p) ->
                     c <> 45%N /\ isSpace c = false).
  { intros c Hc. rewrite pagesNormalize_eq in Hc.
    apply (@dashes_chars (length (filter (fun c => negb (isSpace c)) (trim p))))
      in Hc; [|lia].
    destruct Hc as [->|[Hc Hne]]; [split; [discriminate|reflexivity]|].
    apply filter_In in Hc as [_ Hc]. apply negb_true_iff in Hc. auto. }
  split; [exact Hshape|].
  assert (Hsp : forallb (fun c => negb (isSpace c)) (pagesNormalize p) = true).
  { apply forallb_forall. intros c Hc. apply Hshape in Hc as [_ Hc].
    rewrite Hc. reflexivity. }
  assert (Hd : forallb (fun c => negb (c =? 45)%N) (pagesNormalize p) = true).
  { apply forallb_forall. intros c Hc. apply Hshape in Hc as [Hc _].
    apply negb_true_iff, N.eqb_neq. assumption. }
  rewrite (pagesNormalize_eq (pagesNormalize p)).
  rewrite trim_id.
  - rewrite filter_id by assumption. apply dashes_id. assumption.
  - apply (firstIs_forallb isSpace (fun c => negb (isSpace c))); [|assumption].
    intros c H. apply negb_true_iff in H. assumption.
  - apply (lastIs_forallb isSpace (fun c => negb (isSpace c))); [|assumption].
    intros c H. apply negb_true_iff in H. assumption.
Qed.

(* ================================================================= *)
(** ** Title normalization *)

Lemma trimStart_first (s : jsstring) : firstIs isSpace (trimStart s) = false.
Proof.
  induction s as [|x s IH]; [reflexivity|].
  cbn [trimStart]. destruct (isSpace x) eqn:Hx; [assumption|].
  cbn [firstIs]. assumption.
Qed.

Lemma trimStart_suffix (s : jsstring) : exists pre, s = pre ++ trimStart s.
Proof.
  induction s as [|x s [pre IH]]; [exists []; reflexivity|].
  cbn [trimStart]. destruct (isSpace x).
  - exists (x :: pre). simpl. congruence.
  - exists []. reflexivity.
Qed.

Lemma trimStart_snoc (a : jsstring) (c : N) :
  isSpace c = false -> trimStart (a ++ [c]) = trimStart a ++ [c].
Proof.
  intros Hc. induction a as [|x a IH]; cbn [app trimStart].
  - rewrite Hc. reflexivity.
  - destruct (isSpace x); [assumption|reflexivity].
Qed.

Lemma trimEnd_prefix (s : jsstring) : exists post, s = trimEnd s ++ post.
Proof.
  unfold trimEnd. destruct (trimStart_suffix (rev s)) as [pre H].
  exists (rev pre). rewrite <- rev_app_distr, <- H. symmetry.
  apply rev_involutive.
Qed.

Lemma trimEnd_last (s : jsstring) : lastIs isSpace (trimEnd s) = false.
Proof.
  unfold lastIs, trimEnd. rewrite rev_involutive. apply trimStart_first.
Qed.

Lemma trimEnd_first (s : jsstring) :
  firstIs isSpace s = false -> firstIs isSpace (trimEnd s) = false.
Proof.
  destruct s as [|c s]; [reflexivity|]. cbn [firstIs]. intros Hc.
  unfold trimEnd. cbn [rev]. rewrite (@trimStart_snoc _ _ Hc).
  rewrite rev_app_distr. cbn [rev app firstIs]. assumption.
Qed.

(** A trimmed string is a piece of the string, with no white space
    at either end. *)
Lemma trim_spec (s : jsstring) :
  pieceOf (trim s) s /\
  firstIs isSpace (trim s) = false /\ lastIs isSpace (trim s) = false.
Proof.
  unfold trim. split; [|split].
  - destruct (trimStart_suffix s) as [pre H1].
    destruct (trimEnd_prefix (trimStart s)) as [post H2].
    exists pre, post. rewrite <- H2. assumption.
  - apply trimEnd_first, trimStart_first.
  - apply trimEnd_last.
Qed.

Lemma isAlnum_not_space (c : N) : isAlnum c = true -> isSpace c = false.
Proof.
  unfold isAlnum, isLower, isDigit. intros H.
  apply orb_true_iff in H as [H|H]; apply in_range_spec in H;
    unfold isSpace, in_range; split_N.
Qed.

Lemma isAlnum_lower (c : N) : isAlnum c = true -> lowerCU c = c.
Proof.
  unfold isAlnum, isLower, isDigit. intros H.
  apply orb_true_iff in H as [H|H]; apply in_range_spec in H;
    unfold lowerCU, isUpper, in_range; split_N.
Qed.

Lemma isAlnum_not_brace (c : N) : isAlnum c = true -> isBrace c = false.
Proof.
  unfold isAlnum, isLower, isDigit. intros H.
  apply orb_true_iff in H as [H|H]; apply in_range_spec in H;
    unfold isBrace; split_N.
Qed.

Lemma isAlnum_not_32 (c : N) : isAlnum c = true -> (c =? 32)%N = false.
Proof.
  unfold isAlnum, isLower, isDigit. intros H.
  apply orb_true_iff in H as [H|H]; apply in_range_spec in H; split_N.
Qed.

(** Runs of other characters made one space: letters, digits and
    single spaces are left. *)
Lemma squeeze_alnum (s : jsstring) :
  forall b,
    forallb (fun c => isAlnum c || (c =? 32)%N)
      (squeeze (fun x => negb (isAlnum x)) (js " ") b s) = true /\
    noDoubleSpace (squeeze (fun x => negb (isAlnum x)) (js " ") b s) = true /\
    (b = true ->
     firstIs (N.eqb 32) (squeeze (fun x => negb (isAlnum x)) (js " ") b s)
     = false).
Proof.
  change (js " ") with [32%N].
  induction s as [|x s IH]; intros b; [auto|].
  cbn [squeeze]. destruct (isAlnum x) eqn:Hx; cbn [negb].
  - destruct (IH false) as (H1 & H2 & _). cbn [forallb firstIs].
    rewrite Hx, H1. cbn [orb andb]. repeat split.
    + cbn [noDoubleSpace].
      destruct (squeeze _ _ false s) as [|y l] eqn:E; [reflexivity|].
      rewrite (isAlnum_not_32 _ Hx), H2. reflexivity.
    + intros _. rewrite N.eqb_sym. apply isAlnum_not_32. assumption.
  - destruct (IH true) as (H1 & H2 & H3). destruct b; [auto|].
    cbn [app forallb]. rewrite H1, orb_true_r. repeat split; [|discriminate].
    cbn [noDoubleSpace]. specialize (H3 eq_refl).
    destruct (squeeze _ _ true s) as [|y l] eqn:E; [reflexivity|].
    cbn [firstIs] in H3. rewrite (N.eqb_sym y 32), H3, H2. reflexivity.
Qed.

Lemma noDoubleSpace_app_r (a b : jsstring) :
  noDoubleSpace (a ++ b) = true -> noDoubleSpace b = true.
Proof.
  induction a as [|x a IH]; [auto|]. cbn [app noDoubleSpace].
  destruct (a ++ b) eqn:E; [|intros H; apply andb_true_iff in H as [_ H]; auto].
  apply app_eq_nil in E as [_ ->]. reflexivity.
Qed.

Lemma noDoubleSpace_app_l (a b : jsstring) :
  noDoubleSpace (a ++ b) = true -> noDoubleSpace a = true.
Proof.
  induction a as [|x a IH]; [auto|]. cbn [app noDoubleSpace].
  destruct a as [|y a]; [reflexivity|]. cbn [app] in *.
  intros H. apply andb_true_iff in H as [H1 H2]. rewrite H1. auto.
Qed.

(** A string of letters, digits and single spaces is left as it is
    when the runs of a class that holds its spaces, and none of its
    letters and digits, are made one space. *)
Lemma squeeze_single_spaces (p : N -> bool) (s : jsstring)
    (Hsp : p 32%N = true) (Hal : forall c, isAlnum c = true -> p c = false) :
  forallb (fun c => isAlnum c || (c =? 32)%N) s = true ->
  noDoubleSpace s = true ->
  squeeze p (js " ") false s = s.
Proof.
  change (js " ") with [32%N].
  induction s as [|x s IH]; [reflexivity|].
  cbn [forallb]. intros Hall Hnd. apply andb_true_iff in Hall as [Hx Hall].
  assert (Hs : noDoubleSpace s = true).
  { apply (noDoubleSpace_app_r [x]). assumption. }
  cbn [squeeze]. destruct (isAlnum x) eqn:Ha.
  - rewrite (Hal _ Ha). f_equal. auto.
  - cbn [orb] in Hx. apply N.eqb_eq in Hx. subst x. rewrite Hsp.
    cbn [app]. f_equal. destruct s as [|y s]; [reflexivity|].
    cbn [noDoubleSpace] in Hnd. apply andb_true_iff in Hnd as [Hy _].
    change (32 =? 32)%N with true in Hy. cbn [andb] in Hy.
    apply negb_true_iff in Hy.
    pose proof Hall as Hy'. cbn [forallb] in Hy'.
    apply andb_true_iff in Hy' as [Hy' _].
    rewrite Hy, orb_false_r in Hy'.
    rewrite <- (IH Hall Hs) at 2. cbn [squeeze]. rewrite (Hal _ Hy').
    reflexivity.
Qed.

Lemma normalizeTitle_eq (s : jsstring) :
  normalizeTitle s =
  if truthy s then
    squeeze isSpace (js " ") false
      (trim (squeeze (fun x => negb (isAlnum x)) (js " ") false
               (toLowerCase (filter (fun c => negb (isBrace c)) s))))
  else [].
Proof.
  unfold normalizeTitle. destruct (truthy s); [|reflexivity]. cbn [negb].
  unfold re_spaces, re_non_alnum, re_braces, space, oneOf.
  rewrite replaceAll_class_delete, !replaceAll_plus.
  do 4 f_equal. apply filter_ext. intros c. unfold isBrace.
  change (js "{}") with [123; 125]%N. cbn [existsb].
  rewrite orb_false_r. reflexivity.
Qed.

Lemma forallb_piece (p : N -> bool) (v s : jsstring) :
  pieceOf v s -> forallb p s = true -> forallb p v = true.
Proof.
  intros (pre & post & ->). rewrite !forallb_app.
  intros H. apply andb_true_iff in H as [_ H].
  apply andb_true_iff in H as [H _]. assumption.
Qed.

Lemma normalTitle_normalizeTitle (s : jsstring) :
  normalTitle (normalizeTitle s) = true.
Proof.
  rewrite normalizeTitle_eq. destruct (truthy s); [|reflexivity].
  set (u := squeeze (fun x => negb (isAlnum x)) (js " ") false _).
  destruct (squeeze_alnum (toLowerCase (filter (fun c => negb (isBrace c)) s))
              false) as (H1 & H2 & _).
  fold u in H1, H2.
  destruct (trim_spec u) as (Hpiece & Hfirst & Hlast).
  assert (Hall : forallb (fun c => isAlnum c || (c =? 32)%N) (trim u) = true).
  { apply (forallb_piece _ Hpiece). assumption. }
  assert (Hnd : noDoubleSpace (trim u) = true).
  { destruct Hpiece as (pre & post & Hu). rewrite Hu in H2.
    apply noDoubleSpace_app_r in H2. apply noDoubleSpace_app_l in H2.
    assumption. }
  rewrite squeeze_single_spaces;
    [|reflexivity|apply isAlnum_not_space|assumption|assumption].
  unfold normalTitle. rewrite Hall, Hnd. cbn [andb].
  rewrite andb_true_r. apply andb_true_iff. split; apply negb_true_iff.
  - destruct (trim u) as [|c l]; [reflexivity|]. cbn [firstIs] in *.
    destruct (N.eqb_spec 32 c) as [<-|]; [discriminate Hfirst|reflexivity].
  - unfold lastIs in *. destruct (rev (trim u)) as [|c l]; [reflexivity|].
    cbn [firstIs] in *.
    destruct (N.eqb_spec 32 c) as [<-|]; [discriminate Hlast|reflexivity].
Qed.

Lemma normalizeTitle_fixed (r : jsstring) :
  normalTitle r = true -> normalizeTitle r = r.
Proof.
  unfold normalTitle. intros H.
  apply andb_true_iff in H as [H Hnd]. apply andb_true_iff in H as [H Hl].
  apply andb_true_iff in H as [Hall Hf]. apply negb_true_iff in Hf, Hl.
  rewrite normalizeTitle_eq. destruct r as [|x r]; [reflexivity|].
  cbn [truthy].
  assert (Hchar : forall c, In c (x :: r) ->
            isBrace c = false /\ lowerCU c = c).
  { intros c Hc. rewrite forallb_forall in Hall. apply Hall in Hc.
    apply orb_true_iff in Hc as [Hc|Hc].
    - split; [apply isAlnum_not_brace|apply isAlnum_lower]; assumption.
    - apply N.eqb_eq in Hc. subst c. split; reflexivity. }
  rewrite filter_id.
  2:{ apply forallb_forall. intros c Hc. apply Hchar in Hc as [Hc _].
      rewrite Hc. reflexivity. }
  replace (toLowerCase (x :: r)) with (x :: r).
  2:{ unfold toLowerCase. rewrite <- (map_id (x :: r)) at 1.
      apply map_ext_in. intros c Hc. apply Hchar in Hc as [_ Hc]. congruence. }
  rewrite (@squeeze_single_spaces (fun c => negb (isAlnum c)));
    [|reflexivity|intros c Hc; cbv beta; rewrite Hc; reflexivity
     |assumption|assumption].
  assert (Hedge : forall l : jsstring,
            forallb (fun c => isAlnum c || (c =? 32)%N) l = true ->
            firstIs (N.eqb 32) l = false -> firstIs isSpace l = false).
  { intros [|c l]; [reflexivity|]. cbn [forallb firstIs]. intros Hc Hn.
    apply andb_true_iff in Hc as [Hc _]. apply orb_true_iff in Hc as [Hc|Hc].
    - apply isAlnum_not_space. assumption.
    - rewrite N.eqb_sym in Hn. congruence. }
  rewrite trim_id.
  - apply squeeze_single_spaces;
      [reflexivity|apply isAlnum_not_space|assumption|assumption].
  - apply Hedge; assumption.
  - unfold lastIs in *. apply Hedge; [|assumption].
    rewrite forallb_rev. assumption.
Qed.

(** X3.  A normalized title is made of lower-case letters, digits and
    single spaces, with no space at either end, and normalizing it
    again changes nothing. *)
Theorem normalizeTitle_normal_form (s : jsstring) :
  normalTitle (normalizeTitle s) = true /\
  normalizeTitle (normalizeTitle s) = normalizeTitle s.
Proof.
  split; [apply normalTitle_normalizeTitle|].
  apply normalizeTitle_fixed, normalTitle_normalizeTitle.
Qed.

Lemma isBrace_lowerCU (c : N) : isBrace (lowerCU c) = isBrace c.
Proof.
  unfold lowerCU. destruct (isUpper c) eqn:U.
  - apply in_range_spec in U. unfold isBrace. split_N.
  - destruct (in_range 192 222 c && negb (c =? 215)%N) eqn:L; [|reflexivity].
    apply andb_true_iff in L as [L _]. apply in_range_spec in L.
    unfold isBrace. split_N.
Qed.

Lemma filter_map_lower (p : N -> bool) (s : jsstring) :
  (forall c, p (lowerCU c) = p c) ->
  filter p (toLowerCase s) = toLowerCase (filter p s).
Proof.
  intros Hp. induction s as [|x s IH]; [reflexivity|].
  cbn [toLowerCase map filter]. rewrite Hp.
  destruct (p x); cbn [map]; unfold toLowerCase in IH; congruence.
Qed.

Lemma normalizeTitle_low (s : jsstring) :
  normalizeTitle (toLowerCase s) = normalizeTitle s.
Proof.
  rewrite !normalizeTitle_eq.
  rewrite filter_map_lower, toLowerCase_idem
    by (intros c; rewrite isBrace_lowerCU; reflexivity).
  destruct s; reflexivity.
Qed.

(** X4.  Titles that differ in the case of their letters, or in the
    braces that protect their capitals, normalize to the same key. *)
Theorem normalizeTitle_case_braces (s : jsstring) :
  normalizeTitle (toLowerCase s) = normalizeTitle s /\
  normalizeTitle (filter (fun c => negb (isBrace c)) s) = normalizeTitle s.
Proof.
  split; [apply normalizeTitle_low|]. rewrite !normalizeTitle_eq.
  - assert (Hf : forall l : jsstring,
              filter (fun c => negb (isBrace c))
                (filter (fun c => negb (isBrace c)) l)
              = filter (fun c => negb (isBrace c)) l).
    { intros l. apply filter_id. apply forallb_forall.
      intros c Hc. apply filter_In in Hc as [_ Hc]. assumption. }
    rewrite Hf. destruct (truthy s) eqn:Hs.
    + destruct (filter (fun c => negb (isBrace c)) s) eqn:E; reflexivity.
    + destruct s; [reflexivity|discriminate].
Qed.

(* ================================================================= *)
(** ** The entries of any text *)

Lemma indexOf_from_first (ch : N) (s : jsstring) (i k : nat) :
  indexOf_from ch s i = Some k ->
  exists pre post, s = pre ++ ch :: post /\ k = i + length pre /\ ~ In ch pre.
Proof.
  revert i. induction s as [|c s IH]; intros i; simpl; [discriminate|].
  destruct (c =? ch)%N eqn:E.
  - apply N.eqb_eq in E. intros H. injection H as <-.
    exists [], s. split; [simpl; congruence|]. split; [simpl; lia|].
    intros [].
  - intros H. apply IH in H as (pre & post & -> & -> & Hn).
    exists (c :: pre), post. split; [reflexivity|]. split; [simpl; lia|].
    apply N.eqb_neq in E. intros [Hc|Hc]; contradiction.
Qed.

(** The inner loop stops right after the brace that closes the
    entry, or at the end of the text with the entry still open. *)
Lemma scanBraces_spec (rest : jsstring) :
  forall d j, exists k,
    scanBraces rest (S d) j = j + k /\ k <= length rest /\
    (closes (S d) (firstn k rest) \/ k = length rest /\ unclosed (S d) rest).
Proof.
  induction rest as [|c rest IH]; intros d j.
  - exists 0. simpl. split; [lia|]. split; [lia|]. right.
    split; [reflexivity|constructor].
  - cbn [scanBraces]. destruct (c =? 123)%N eqn:E1.
    + apply N.eqb_eq in E1. subst c.
      destruct (IH (S d) (S j)) as (k & Hk & Hle & Hc).
      exists (S k). split; [rewrite Hk; lia|]. split; [simpl; lia|].
      cbn [firstn]. destruct Hc as [Hc|[-> Hc]].
      * left. constructor. assumption.
      * right. split; [reflexivity|]. constructor. assumption.
    + destruct (c =? 125)%N eqn:E2.
      * apply N.eqb_eq in E2. subst c. destruct d as [|d].
        -- exists 1. split; [destruct rest; simpl; lia|].
           split; [simpl; lia|].
           left. cbn [firstn]. constructor.
        -- destruct (IH d (S j)) as (k & Hk & Hle & Hc).
           exists (S k). split; [rewrite Hk; lia|]. split; [simpl; lia|].
           cbn [firstn]. destruct Hc as [Hc|[-> Hc]].
           ++ left. constructor. assumption.
           ++ right. split; [reflexivity|]. constructor. assumption.
      * apply N.eqb_neq in E1, E2.
        destruct (IH d (S j)) as (k & Hk & Hle & Hc).
        exists (S k). split; [rewrite Hk; lia|]. split; [simpl; lia|].
        cbn [firstn]. destruct Hc as [Hc|[-> Hc]].
        -- left. constructor; assumption.
        -- right. split; [reflexivity|]. constructor; assumption.
Qed.

Lemma splitLoop_entries (fuel : nat) (text : jsstring) :
  forall i, Forall (entryOf text) (splitLoop fuel text i).
Proof.
  induction fuel as [|fuel IH]; intros i; cbn [splitLoop]; [constructor|].
  destruct (i <? length text); [|constructor].
  unfold indexOf.
  destruct (indexOf_from 64 (skipn i text) i) as [at_|] eqn:Hat;
    [|constructor].
  destruct (indexOf_from 123 (skipn at_ text) at_) as [brace|] eqn:Hbr;
    [|constructor].
  cbv zeta. constructor; [|apply IH].
  apply indexOf_from_first in Hat as (junk & post & Hs1 & -> & _).
  assert (Hsk : skipn (i + length junk) text = 64%N :: post).
  { replace (skipn (i + length junk) text)
      with (skipn (length junk) (skipn i text))
      by (rewrite skipn_skipn; f_equal; lia).
    rewrite Hs1. apply skipn_app_length. }
  rewrite Hsk in Hbr.
  apply indexOf_from_first in Hbr as (head' & post' & Hs2 & -> & Hno).
  destruct head' as [|h head]; [discriminate Hs2|].
  injection Hs2 as <- ->.
  set (at_ := i + length junk) in *.
  assert (Hrest : skipn (at_ + length (64%N :: head) + 1) text = post').
  { replace (skipn (at_ + length (64%N :: head) + 1) text)
      with (skipn (length (64%N :: head ++ [123%N])) (skipn at_ text)).
    - rewrite Hsk.
      change (64%N :: head ++ 123%N :: post')
        with ((64%N :: head) ++ [123%N] ++ post').
      rewrite app_assoc. apply skipn_app_length.
    - rewrite skipn_skipn. f_equal. simpl. rewrite length_app. simpl. lia. }
  rewrite Hrest.
  destruct (scanBraces_spec post' 0 (at_ + length (64%N :: head) + 1))
    as (k & Hk & Hle & Hc).
  rewrite Hk.
  assert (He : slice text at_ (at_ + length (64%N :: head) + 1 + k)
               = entryText head (firstn k post')).
  { unfold slice, entryText. rewrite Hsk.
    replace (at_ + length (64%N :: head) + 1 + k - at_)
      with (length (64%N :: head ++ [123%N]) + k)
      by (simpl; rewrite length_app; simpl; lia).
    change (64%N :: head ++ 123%N :: post')
      with ((64%N :: head) ++ [123%N] ++ post').
    rewrite app_assoc.
    change ((64%N :: head) ++ [123%N]) with (64%N :: head ++ [123%N]).
    rewrite firstn_app_2. cbn [app]. rewrite <- app_assoc. reflexivity. }
  rewrite He. exists head, (firstn k post'). split; [reflexivity|].
  split; [intros Hin; apply Hno; right; assumption|].
  destruct Hc as [Hc|[-> Hc]]; [left; assumption|right].
  rewrite firstn_all. split; [assumption|].
  exists (firstn at_ text). unfold entryText.
  rewrite <- Hsk. symmetry. apply firstn_skipn.
Qed.

(** X5.  On every text, each entry returned begins with [@], reads on
    to the first opening brace, and ends with the brace that closes
    it; only an entry whose brace is never closed ends elsewhere, at
    the end of the text. *)
Theorem splitBibEntries_entries (text : jsstring) :
  Forall (entryOf text) (splitBibEntries text).
Proof. apply splitLoop_entries. Qed.

(* ================================================================= *)
(** ** Resolution against the bibliography text *)

Lemma byDOI_get (bib k : jsstring) :
  map_get (byDOI (indexOfText bib)) k = lastWith doiKey k (splitBibEntries bib).
Proof.
  unfold indexOfText. rewrite indexStep_fold. cbn [byDOI fst].
  rewrite fileUnder_get.
  destruct (lastWith doiKey k (splitBibEntries bib)); reflexivity.
Qed.

Lemma byTitle_get (bib k : jsstring) :
  map_get (byTitle (indexOfText bib)) k
  = lastWith titleKey k (splitBibEntries bib).
Proof.
  unfold indexOfText. rewrite indexStep_fold. cbn [byTitle snd].
  rewrite fileUnder_get.
  destruct (lastWith titleKey k (splitBibEntries bib)); reflexivity.
Qed.

Lemma byTitle_In (bib k e : jsstring) :
  In (k, e) (byTitle (indexOfText bib)) ->
  k = titleKey e /\ k <> [] /\ In e (splitBibEntries bib).
Proof.
  unfold indexOfText. rewrite indexStep_fold. cbn [byTitle snd].
  intros H. apply fileUnder_In in H as [[]|H]. assumption.
Qed.

Lemma byTitle_bound (bib e : jsstring) :
  In e (splitBibEntries bib) -> titleKey e <> [] ->
  exists e', In (titleKey e, e') (byTitle (indexOfText bib)).
Proof.
  intros Hin Hne. destruct (lastWith_In titleKey e _ Hin Hne) as [e' He'].
  exists e'. apply map_get_In. rewrite byTitle_get. assumption.
Qed.

Lemma score_positive (k t : jsstring) :
  0 < score k t -> k <> [] /\ t <> [].
Proof.
  unfold score. destruct k, t; simpl; intros H; try lia;
    split; discriminate.
Qed.

(** The loop of the third step: it keeps [best] when no binding with
    a compatible key scores more than [bestScore]; otherwise it
    returns the entry of the first binding, in the order of the map,
    among the compatible ones of the highest score. *)
Lemma fuzzy_best (t : jsstring) (es : Map) :
  forall best bs,
    (fuzzy t es best bs = best /\
     forall k e, In (k, e) es -> compatible k t = true -> score k t <= bs)
    \/
    (exists es1 k' es2,
       es = es1 ++ (k', fuzzy t es best bs) :: es2 /\
       compatible k' t = true /\ bs < score k' t /\
       (forall k e, In (k, e) es1 -> compatible k t = true ->
                    score k t < score k' t) /\
       (forall k e, In (k, e) es2 -> compatible k t = true ->
                    score k t <= score k' t)).
Proof.
  induction es as [|[key entry] es IH]; intros best bs; cbn [fuzzy].
  - left. split; [reflexivity|]. intros k e [].
  - destruct (truthy t) eqn:Ht; cbn [negb].
    2:{ left. split; [reflexivity|]. intros k e _ _.
        destruct t; [|discriminate]. unfold score.
        rewrite Nat.min_0_r. lia. }
    fold (compatible key t). fold (score key t).
    assert (Hkeep : (compatible key t = true -> score key t <= bs) ->
      (fuzzy t es best bs = best /\
       forall k e, In (k, e) ((key, entry) :: es) ->
                   compatible k t = true -> score k t <= bs)
      \/
      (exists es1 k' es2,
         (key, entry) :: es = es1 ++ (k', fuzzy t es best bs) :: es2 /\
         compatible k' t = true /\ bs < score k' t /\
         (forall k e, In (k, e) es1 -> compatible k t = true ->
                      score k t < score k' t) /\
         (forall k e, In (k, e) es2 -> compatible k t = true ->
                      score k t <= score k' t))).
    { intros Hle.
      destruct (IH best bs) as [[H1 H2]|(es1 & k' & es2 & H1 & H2 & H3 & H4 & H5)].
      - left. split; [assumption|]. intros k e [E|Hin] Hc.
        + injection E as <- <-. auto.
        + eapply H2; eassumption.
      - right. exists ((key, entry) :: es1), k', es2.
        split; [cbn [app]; congruence|]. split; [assumption|].
        split; [assumption|]. split; [|assumption].
        intros k e [E|Hin] Hc.
        + injection E as <- <-. specialize (Hle Hc). lia.
        + eapply H4; eassumption. }
    destruct (compatible key t) eqn:Hc; [|apply Hkeep; discriminate].
    destruct (bs <? score key t) eqn:Hlt.
    2:{ apply Nat.ltb_ge in Hlt. apply Hkeep. intros _. assumption. }
    apply Nat.ltb_lt in Hlt. right.
    destruct (IH entry (score key t))
      as [[H1 H2]|(es1 & k' & es2 & H1 & H2 & H3 & H4 & H5)].
    + exists [], key, es. rewrite H1. split; [reflexivity|].
      split; [assumption|]. split; [assumption|].
      split; [intros k e []|assumption].
    + exists ((key, entry) :: es1), k', es2.
      split; [cbn [app]; congruence|]. split; [assumption|].
      split; [lia|]. split; [|assumption].
      intros k e [E|Hin] Hc'.
      * injection E as <- <-. assumption.
      * eapply H4; eassumption.
Qed.

(** X6.  On the index built from a bibliography text, the entry
    resolver returns the empty string or an entry of the text; the
    entry returned has the normalized DOI of the record, or its
    normalized title, or a normalized title that holds the record's
    or is held by it. *)
Theorem findBibEntryFor_sound (bib : jsstring) (st : state) (pub : pubref) :
  let doi := normDOI (orEmpty (optProp pub_doi pub)) in
  let t := normalizeTitle (orEmpty (optProp pub_title pub)) in
  exists s,
    findBibEntryFor (buildBibIndex bib st) pub = Normal (Some s) /\
    (s = [] \/
     In s (splitBibEntries bib) /\
     (doiKey s = doi /\ doi <> [] \/
      titleKey s = t /\ t <> [] \/
      compatible (titleKey s) t = true /\ titleKey s <> [] /\ t <> [])).
Proof.
  intros doi t.
  unfold findBibEntryFor, buildBibIndex, indexProp. cbn [BIB_INDEX bind].
  fold doi. fold t. unfold map_has. rewrite byDOI_get, byTitle_get.
  destruct (truthy doi && _) eqn:E1.
  - destruct (lastWith doiKey doi (splitBibEntries bib)) as [e|] eqn:He;
      [|rewrite andb_false_r in E1; discriminate].
    exists e. split; [reflexivity|]. right.
    apply lastWith_Some in He. tauto.
  - destruct (truthy t && _) eqn:E2.
    + destruct (lastWith titleKey t (splitBibEntries bib)) as [e|] eqn:He;
        [|rewrite andb_false_r in E2; discriminate].
      exists e. split; [reflexivity|]. right.
      apply lastWith_Some in He. tauto.
    + eexists. split; [reflexivity|].
      destruct (fuzzy_best t (byTitle (indexOfText bib)) [] 0)
        as [[H _]|(es1 & k' & es2 & H1 & H2 & H3 & _)]; [left; assumption|].
      right.
      assert (Hin : In (k', fuzzy t (byTitle (indexOfText bib)) [] 0)
                      (byTitle (indexOfText bib))).
      { rewrite H1 at 2. apply in_elt. }
      apply byTitle_In in Hin as (Hk & Hne & Hin).
      split; [assumption|]. right. right. rewrite <- Hk.
      split; [assumption|]. split; [assumption|].
      apply score_positive in H3. tauto.
Qed.

(** X7.  When no entry of the text has the normalized DOI of the
    record, or the record has none, and an entry has its normalized
    title, the last such entry in source order is returned. *)
Theorem findBibEntryFor_title_match (bib : jsstring) (st : state)
    (pub : pubref) (e : jsstring)
    (Hdoi : lastWith doiKey (normDOI (orEmpty (optProp pub_doi pub)))
              (splitBibEntries bib) = None)
    (Htitle : lastWith titleKey (normalizeTitle (orEmpty (optProp pub_title pub)))
                (splitBibEntries bib) = Some e) :
  findBibEntryFor (buildBibIndex bib st) pub = Normal (Some e).
Proof.
  unfold findBibEntryFor, buildBibIndex, indexProp. cbn [BIB_INDEX bind].
  unfold map_has. rewrite byDOI_get, byTitle_get, Hdoi, Htitle.
  rewrite andb_false_r.
  apply lastWith_Some in Htitle as (_ & Hne & _).
  apply truthy_nonempty in Hne. rewrite Hne. reflexivity.
Qed.

(** A record without DOI whose title is that of both entries of
    [twoEntries]: the second entry is returned. *)
Lemma findBibEntryFor_title_match_witness :
  findBibEntryFor (buildBibIndex twoEntries initialState)
    (PObj (mkPub (Some (js "SAME {T}itle!")) None YAbsent None))
  = Normal (Some (js "@article{b, title = {Same Title}, doi = {10.1/b}}")).
Proof.
  apply (@findBibEntryFor_title_match twoEntries initialState
           (PObj (mkPub (Some (js "SAME {T}itle!")) None YAbsent None))
           (js "@article{b, title = {Same Title}, doi = {10.1/b}}")).
  - vm_compute. reflexivity.
  - vm_compute. reflexivity.
Defined.

(** X8.  When neither the DOI nor the title of the record is found,
    the entry returned is one whose normalized title holds the
    record's or is held by it, and no such entry of the text shares
    more characters with the record's title; the empty string is
    returned only when no entry with a title is of this kind. *)
Theorem findBibEntryFor_fuzzy (bib : jsstring) (st : state) (pub : pubref)
    (Hdoi : lastWith doiKey (normDOI (orEmpty (optProp pub_doi pub)))
              (splitBibEntries bib) = None)
    (Htitle : lastWith titleKey (normalizeTitle (orEmpty (optProp pub_title pub)))
                (splitBibEntries bib) = None) :
  let t := normalizeTitle (orEmpty (optProp pub_title pub)) in
  exists s,
    findBibEntryFor (buildBibIndex bib st) pub = Normal (Some s) /\
    ((s = [] /\
      forall e, In e (splitBibEntries bib) -> titleKey e <> [] -> t <> [] ->
                compatible (titleKey e) t = false)
     \/
     (In s (splitBibEntries bib) /\ compatible (titleKey s) t = true /\
      0 < score (titleKey s) t /\
      forall e, In e (splitBibEntries bib) ->
                compatible (titleKey e) t = true ->
                score (titleKey e) t <= score (titleKey s) t)).
Proof.
  intros t.
  unfold findBibEntryFor, buildBibIndex, indexProp. cbn [BIB_INDEX bind].
  unfold map_has. rewrite byDOI_get, byTitle_get, Hdoi, Htitle.
  rewrite !andb_false_r. eexists. split; [reflexivity|]. fold t.
  assert (Hall : forall bound,
            (forall k e, In (k, e) (byTitle (indexOfText bib)) ->
                         compatible k t = true -> score k t <= bound) ->
            forall e, In e (splitBibEntries bib) ->
                      compatible (titleKey e) t = true ->
                      score (titleKey e) t <= bound).
  { intros bound Hb e Hin Hc.
    destruct (titleKey e) as [|x k] eqn:Hk; [unfold score; simpl; lia|].
    destruct (@byTitle_bound bib e Hin) as [e' He'];
      [rewrite Hk; discriminate|].
    rewrite Hk in He'. eapply Hb; eassumption. }
  destruct (fuzzy_best t (byTitle (indexOfText bib)) [] 0)
    as [[H1 H2]|(es1 & k' & es2 & H1 & H2 & H3 & H4 & H5)].
  - left. split; [assumption|]. intros e Hin Hne Ht.
    destruct (compatible (titleKey e) t) eqn:Hc; [|reflexivity].
    pose proof (Hall 0 H2 e Hin Hc) as Hs. exfalso.
    unfold score in Hs. destruct (titleKey e); [congruence|].
    destruct t; [congruence|]. simpl in Hs. lia.
  - right.
    assert (Hin : In (k', fuzzy t (byTitle (indexOfText bib)) [] 0)
                    (byTitle (indexOfText bib))).
    { rewrite H1 at 2. apply in_elt. }
    apply byTitle_In in Hin as (Hk & Hne & Hin). rewrite <- Hk.
    split; [assumption|]. split; [assumption|]. split; [assumption|].
    apply Hall. intros k e Hke Hc. rewrite H1 in Hke.
    apply in_app_or in Hke as [Hke|[Hke|Hke]].
    + apply Nat.lt_le_incl. eapply H4; eassumption.
    + injection Hke as <- _. lia.
    + eapply H5; eassumption.
Qed.

(** A record whose title is part of the title of the two entries of
    [twoEntries]: the entry that the title map holds is returned. *)
Lemma findBibEntryFor_fuzzy_witness :
  exists s,
    findBibEntryFor (buildBibIndex twoEntries initialState)
      (PObj (mkPub (Some (js "Same")) None YAbsent None)) = Normal (Some s) /\
    In s (splitBibEntries twoEntries) /\
    0 < score (titleKey s) (js "same").
Proof.
  destruct (@findBibEntryFor_fuzzy twoEntries initialState
              (PObj (mkPub (Some (js "Same")) None YAbsent None)))
    as (s & Hs & H).
  - vm_compute. reflexivity.
  - vm_compute. reflexivity.
  - exists s. split; [exact Hs|].
    destruct H as [[-> H]|(H1 & _ & H2 & _)].
    + exfalso.
      assert (Hc : compatible
                (titleKey (js "@article{b, title = {Same Title}, doi = {10.1/b}}"))
                (normalizeTitle (js "Same")) = false).
      { apply H; vm_compute; [auto|discriminate|discriminate]. }
      vm_compute in Hc. discriminate.
    + split; [exact H1|]. exact H2.
Defined.

(* ================================================================= *)
(** ** Field names and field values *)

Lemma sameRegex_refl (r : regex) : sameRegex r r.
Proof. induction r; constructor; auto. Qed.

Lemma starLoop_same (step1 step2 : cursor -> caps -> cont -> outcome)
    (gr : bool)
    (Hsteps : forall c g k1 k2,
       (forall c' g', k1 c' g' = k2 c' g') -> step1 c g k1 = step2 c g k2)
    (k1 k2 : cont) (Hk : forall c g, k1 c g = k2 c g) :
  forall fuel c g,
    starLoop step1 gr k1 fuel c g = starLoop step2 gr k2 fuel c g.
Proof.
  induction fuel as [|fuel IH]; intros c g; [reflexivity|].
  cbn [starLoop]. rewrite (Hk c g).
  rewrite (Hsteps c g _ (fun c' g' =>
             if length (after c') <? length (after c)
             then starLoop step2 gr k2 fuel c' g' else None)).
  - reflexivity.
  - intros c' g'. destruct (length (after c') <? length (after c)); auto.
Qed.

(** Patterns that differ only in how their classes are written match
    alike. *)
Lemma matcher_same (r r' : regex) :
  sameRegex r r' ->
  forall c g k1 k2,
    (forall c' g', k1 c' g' = k2 c' g') ->
    matcher r c g k1 = matcher r' c g k2.
Proof.
  intros H. induction H as [|p q Hpq|a b a' b' _ IH1 _ IH2
                            |a b a' b' _ IH1 _ IH2|gr a a' _ IH|a a' _ IH| | |];
    intros c g k1 k2 Hk; cbn [matcher].
  - apply Hk.
  - destruct (after c) as [|x rest]; [reflexivity|]. rewrite Hpq.
    destruct (q x); [apply Hk|reflexivity].
  - apply IH1. intros c' g'. apply IH2. assumption.
  - rewrite (IH1 c g k1 k2 Hk), (IH2 c g k1 k2 Hk). reflexivity.
  - apply starLoop_same; assumption.
  - apply IH. intros c' g'. apply Hk.
  - destruct (before c); [apply Hk|reflexivity].
  - destruct (after c); [apply Hk|reflexivity].
  - destruct (xorb _ _); [apply Hk|reflexivity].
Qed.

Lemma search_same (r r' : regex) (aft : list N) :
  sameRegex r r' -> forall bef, search r bef aft = search r' bef aft.
Proof.
  intros H. induction aft as [|x aft IH]; intros bef; cbn [search];
    rewrite (@matcher_same r r' H _ None accept accept) by reflexivity.
  - reflexivity.
  - rewrite IH. reflexivity.
Qed.

Lemma litI_same (a : jsstring) :
  forall b, map canonicalize a = map canonicalize b ->
            sameRegex (litI a) (litI b).
Proof.
  induction a as [|x a IH]; intros [|y b] H; try discriminate H.
  - constructor.
  - cbn [map] in H. injection H as Hxy Hab.
    assert (Hc : sameRegex (chrI x) (chrI y)).
    { constructor. intros z. rewrite Hxy. reflexivity. }
    destruct a as [|x' a], b as [|y' b]; try discriminate Hab.
    + exact Hc.
    + change (sameRegex (Seq (chrI x) (litI (x' :: a)))
                        (Seq (chrI y) (litI (y' :: b)))).
      constructor; [exact Hc|]. apply IH. exact Hab.
Qed.

(** The field name is read without regard to the case of its
    letters. *)
Lemma getBibField_same_name (entry a b : jsstring) :
  map canonicalize a = map canonicalize b ->
  getBibField entry a = getBibField entry b.
Proof.
  intros H. apply litI_same in H. unfold getBibField, exec.
  assert (Hrest : forall r, sameRegex r r) by apply sameRegex_refl.
  rewrite (@search_same (reBrace a) (reBrace b) entry)
    by (unfold reBrace, seqs; auto using sameRegex).
  rewrite (@search_same (reQuote a) (reQuote b) entry)
    by (unfold reQuote, seqs; auto using sameRegex).
  rewrite (@search_same (reBare a) (reBare b) entry)
    by (unfold reBare, seqs; auto using sameRegex).
  reflexivity.
Qed.

(** X9.  Field names (of letters, digits, [_] and [-]) that differ
    only in the case of their letters read the same value from every
    entry. *)
Theorem getBibField_name_case (entry a b : jsstring)
    (Ha : fieldName a = true) (Hb : fieldName b = true)
    (Hab : map canonicalize a = map canonicalize b) :
  getBibField entry a = getBibField entry b.
Proof. apply getBibField_same_name. assumption. Qed.

(** The field [doi] of the entry of the APA example, asked for as
    [DOI] and as [Doi]. *)
Lemma getBibField_name_case_witness :
  getBibField wallis2024 (js "DOI") = getBibField wallis2024 (js "Doi").
Proof.
  apply (@getBibField_name_case wallis2024 (js "DOI") (js "Doi"));
    vm_compute; reflexivity.
Defined.

(** X10.  The DOI key of an entry is the normalized value of its
    field [doi]: the second lookup of [buildBibIndex], under [DOI],
    reads the same field and adds nothing. *)
Theorem doiKey_one_lookup (e : jsstring) :
  doiKey e = normDOI (getBibField e (js "doi")).
Proof.
  unfold doiKey.
  rewrite (@getBibField_same_name e (js "DOI") (js "doi"))
    by (vm_compute; reflexivity).
  unfold or_else. destruct (truthy (getBibField e (js "doi"))); reflexivity.
Qed.

Lemma span_sameSubject (c c' : cursor) (mid : jsstring) :
  span c c' mid -> sameSubject c c'.
Proof.
  intros [H1 H2]. unfold sameSubject.
  rewrite H2, H1, rev_app_distr, rev_involutive, <- app_assoc. reflexivity.
Qed.

(** The capture of a match delimits a piece of the subject. *)
Lemma matches_capsIn (r : regex) (c : cursor) (g : caps) (c' : cursor)
    (g' : caps) :
  matches r c g c' g' ->
  forall c0, sameSubject c0 c -> capsIn c0 g -> capsIn c0 g'.
Proof.
  intros H.
  induction H as [c g|p x bef rest g Hp
                 |r1 r2 c g c1 g1 c2 g2 H1 IH1 H2 IH2
                 |r1 r2 c g c' g' H IH|r1 r2 c g c' g' H IH
                 |gr r c g|gr r c g c1 g1 c2 g2 H1 IH1 Hlt H2 IH2
                 |r c g c' g' H IH|aft g|bef g|c g Hx];
    intros c0 Hs Hg; try assumption.
  - apply IH2; [|apply IH1; assumption].
    destruct (matches_span H1) as [mid Hm]. apply span_sameSubject in Hm.
    unfold sameSubject in *. congruence.
  - apply IH; assumption.
  - apply IH; assumption.
  - apply IH2; [|apply IH1; assumption].
    destruct (matches_span H1) as [mid Hm]. apply span_sameSubject in Hm.
    unfold sameSubject in *. congruence.
  - split; [assumption|]. eapply matches_span. eassumption.
Qed.

Lemma exec_group1_piece (r : regex) (s : jsstring) (fd : found) :
  exec r s = Some fd -> pieceOf (group1 fd) s.
Proof.
  unfold exec. intros H.
  apply search_sound in H as (pre & post & Hs & Hstart & Hm).
  assert (Hg : capsIn (Cursor [] s) (m_caps fd)).
  { apply (matches_capsIn Hm); [|exact I].
    rewrite Hstart. unfold sameSubject. cbn [before after rev app].
    rewrite app_nil_r, rev_involutive. congruence. }
  unfold group1. destruct (m_caps fd) as [[a b]|].
  - destruct Hg as [Ha [mid Hspan]]. rewrite (span_between Hspan).
    exists (rev (before a)), (after b). destruct Hspan as [H1 _].
    rewrite <- H1. unfold sameSubject in Ha. cbn [before after rev app] in Ha.
    congruence.
  - exists [], s. reflexivity.
Qed.

Lemma pieceOf_trans (a b c : jsstring) :
  pieceOf a b -> pieceOf b c -> pieceOf a c.
Proof.
  intros (p1 & q1 & ->) (p2 & q2 & ->).
  exists (p2 ++ p1), (q1 ++ q2). rewrite <- !app_assoc. reflexivity.
Qed.

(** Removing [,\s*$] leaves the text before the comma. *)
Lemma strip_comma_prefix (w : jsstring) :
  exists post, w = replace re_trailing_comma emptyStr w ++ post.
Proof.
  unfold replace, exec.
  destruct (search re_trailing_comma [] w) as [fd|] eqn:E;
    [|exists []; symmetry; apply app_nil_r].
  apply search_sound in E as (pre & post & Hw & Hstart & Hm).
  rewrite Hstart in Hm. unfold re_trailing_comma, chr in Hm.
  apply matches_class_spaces_eol in Hm as (x & mid & -> & Hx & Hall & Hend).
  rewrite Hstart, Hend. cbn [before emptyStr app].
  rewrite !app_nil_r, rev_involutive. exists (x :: mid). assumption.
Qed.

Lemma firstIs_prefix (p : N -> bool) (a b : jsstring) :
  firstIs p (a ++ b) = false -> firstIs p a = false.
Proof. destruct a; [reflexivity|auto]. Qed.

Lemma getBibField_in_entry (entry name : jsstring) :
  pieceOf (getBibField entry name) entry /\
  firstIs isSpace (getBibField entry name) = false.
Proof.
  assert (Hstrip : forall fd,
            pieceOf (group1 fd) entry ->
            pieceOf (replace re_trailing_comma emptyStr (trim (group1 fd)))
              entry /\
            firstIs isSpace
              (replace re_trailing_comma emptyStr (trim (group1 fd))) = false).
  { intros fd Hp. destruct (trim_spec (group1 fd)) as (Ht & Hf & _).
    destruct (strip_comma_prefix (trim (group1 fd))) as [post Hpost].
    split.
    - apply (@pieceOf_trans _ (trim (group1 fd)));
        [|apply (@pieceOf_trans _ (group1 fd)); assumption].
      exists [], post. exact Hpost.
    - apply (@firstIs_prefix _ _ post). rewrite <- Hpost. assumption. }
  unfold getBibField.
  destruct (exec (reBrace name) entry) as [m1|] eqn:E1.
  { apply Hstrip. apply (exec_group1_piece _ _ E1). }
  destruct (exec (reQuote name) entry) as [m2|] eqn:E2.
  { apply Hstrip. apply (exec_group1_piece _ _ E2). }
  destruct (exec (reBare name) entry) as [m3|] eqn:E3.
  - destruct (trim_spec (group1 m3)) as (Ht & Hf & _). split; [|assumption].
    apply (@pieceOf_trans _ (group1 m3)); [assumption|].
    apply (exec_group1_piece _ _ E3).
  - split; [exists [], entry; reflexivity|reflexivity].
Qed.

(** X11.  What [getBibField] returns for a field name (of letters,
    digits, [_] and [-]) is a piece of the entry, copied as it stands,
    and does not start with white space. *)
Theorem getBibField_piece (entry name : jsstring)
    (Hname : fieldName name = true) :
  pieceOf (getBibField entry name) entry /\
  firstIs isSpace (getBibField entry name) = false.
Proof. apply getBibField_in_entry. Qed.

(** The title of the entry of the APA example. *)
Lemma getBibField_piece_witness :
  pieceOf (getBibField wallis2024 (js "title")) wallis2024 /\
  firstIs isSpace (getBibField wallis2024 (js "title")) = false.
Proof.
  apply (@getBibField_piece wallis2024 (js "title")).
  vm_compute. reflexivity.
Defined.

(* ================================================================= *)
(** ** DOIs and their addresses *)

Lemma replace_doi_url_prefix (d : jsstring) :
  replace re_doi_url emptyStr (js "https://doi.org/" ++ d) = d.
Proof. vm_compute. reflexivity. Qed.

Lemma lastIs_app (p : N -> bool) (a d : jsstring) :
  d <> [] -> lastIs p (a ++ d) = lastIs p d.
Proof.
  intros Hd. unfold lastIs. rewrite rev_app_distr.
  destruct (rev d) as [|x l] eqn:E; [|reflexivity].
  exfalso. apply Hd. rewrite <- (rev_involutive d), E. reflexivity.
Qed.

Lemma normDOI_of_url (d : jsstring) :
  d <> [] -> cleanDOI d = true ->
  normDOI (js "https://doi.org/" ++ d) = normDOI d.
Proof.
  unfold cleanDOI. intros Hd H.
  apply andb_true_iff in H as [H N4]. apply andb_true_iff in H as [H N3].
  apply andb_true_iff in H as [H N2]. apply andb_true_iff in H as [H N1].
  apply andb_true_iff in H as [H Hdoi]. apply andb_true_iff in H as [H Hp].
  apply andb_true_iff in H as [Hf Hl].
  apply negb_true_iff in N1, N2, N3, N4, Hdoi, Hp, Hf, Hl.
  unfold normDOI. destruct d as [|x d]; [congruence|].
  replace (truthy (js "https://doi.org/" ++ x :: d)) with true
    by (vm_compute; reflexivity).
  cbn [truthy negb].
  rewrite (@trim_id (js "https://doi.org/" ++ x :: d));
    [|vm_compute; reflexivity|rewrite lastIs_app by discriminate; assumption].
  rewrite replace_doi_url_prefix.
  rewrite trim_id by assumption.
  rewrite (@replace_none re_doi_url (emptyStr) (x :: d))
    by (apply exec_doi_url_none; assumption).
  reflexivity.
Qed.

(** X12.  The address that [formatDOIUrl] makes of a DOI normalizes
    back to the normalized DOI, whenever that has nothing left to
    strip. *)
Theorem formatDOIUrl_round_trip (s : jsstring)
    (Hclean : cleanDOI (normDOI s) = true) :
  normDOI (formatDOIUrl s) = normDOI s.
Proof.
  unfold formatDOIUrl. cbv zeta. destruct (truthy (normDOI s)) eqn:Ht.
  - rewrite normDOI_of_url; [|apply truthy_nonempty; assumption|assumption].
    apply normDOI_clean; [assumption|apply normDOI_lower].
  - destruct (normDOI s); [reflexivity|discriminate].
Qed.

Lemma formatDOIUrl_round_trip_witness :
  normDOI (formatDOIUrl (js " DOI: 10.1002/JOC.8401; "))
  = normDOI (js " DOI: 10.1002/JOC.8401; ").
Proof.
  apply (@formatDOIUrl_round_trip (js " DOI: 10.1002/JOC.8401; ")).
  vm_compute. reflexivity.
Defined.

(* ================================================================= *)
(** ** The case of the letters of a DOI *)

Lemma isSpace_lowerCU (c : N) : isSpace (lowerCU c) = isSpace c.
Proof.
  unfold lowerCU. destruct (isUpper c) eqn:U.
  - apply in_range_spec in U. unfold isSpace, in_range. split_N.
  - destruct (in_range 192 222 c && negb (c =? 215)%N) eqn:L; [|reflexivity].
    apply andb_true_iff in L as [L _]. apply in_range_spec in L.
    unfold isSpace, in_range. split_N.
Qed.

Lemma canonicalize_lowerCU (c : N) : canonicalize (lowerCU c) = canonicalize c.
Proof.
  unfold lowerCU. destruct (isUpper c) eqn:U.
  - apply in_range_spec in U.
    unfold canonicalize, upperCU, isLower, in_range. split_N; split_N.
  - destruct (in_range 192 222 c && negb (c =? 215)%N) eqn:L; [|reflexivity].
    apply andb_true_iff in L as [L L']. apply in_range_spec in L.
    apply negb_true_iff, N.eqb_neq in L'.
    unfold canonicalize, upperCU, isLower, in_range. split_N; split_N.
Qed.

Lemma isDoiPunct_lowerCU (c : N) :
  existsb (N.eqb (lowerCU c)) (js ".,;") = existsb (N.eqb c) (js ".,;").
Proof.
  change (js ".,;") with [46; 44; 59]%N. cbn [existsb].
  unfold lowerCU. destruct (isUpper c) eqn:U.
  - apply in_range_spec in U. split_N.
  - destruct (in_range 192 222 c && negb (c =? 215)%N) eqn:L; [|reflexivity].
    apply andb_true_iff in L as [L _]. apply in_range_spec in L. split_N.
Qed.

Lemma trimStart_low (s : jsstring) :
  trimStart (map lowerCU s) = map lowerCU (trimStart s).
Proof.
  induction s as [|x s IH]; [reflexivity|]. cbn [map trimStart].
  rewrite isSpace_lowerCU. destruct (isSpace x); [assumption|reflexivity].
Qed.

Lemma trim_low (s : jsstring) : trim (toLowerCase s) = toLowerCase (trim s).
Proof.
  unfold trim, trimEnd, toLowerCase.
  rewrite trimStart_low, <- map_rev, trimStart_low, map_rev. reflexivity.
Qed.

Lemma starLoop_low (step : cursor -> caps -> cont -> outcome) (gr : bool)
    (Hstep : forall c g k k',
       (forall c1 g1, k' (lowCursor c1) (lowCaps g1) = lowOutcome (k c1 g1)) ->
       step (lowCursor c) (lowCaps g) k' = lowOutcome (step c g k))
    (k k' : cont)
    (Hk : forall c1 g1, k' (lowCursor c1) (lowCaps g1) = lowOutcome (k c1 g1)) :
  forall fuel c g,
    starLoop step gr k' fuel (lowCursor c) (lowCaps g)
    = lowOutcome (starLoop step gr k fuel c g).
Proof.
  induction fuel as [|fuel IH]; intros c g; [reflexivity|].
  cbn [starLoop].
  rewrite (Hstep c g
             (fun c' g' =>
                if length (after c') <? length (after c)
                then starLoop step gr k fuel c' g' else None)
             (fun c' g' =>
                if length (after c') <? length (after (lowCursor c))
                then starLoop step gr k' fuel c' g' else None)).
  2:{ intros c1 g1. cbn [lowCursor after]. rewrite !length_map.
      destruct (length (after c1) <? length (after c)); [apply IH|reflexivity]. }
  rewrite Hk. destruct gr.
  - destruct (step c g _) as [[c1 g1]|]; reflexivity.
  - destruct (k c g) as [[c1 g1]|]; reflexivity.
Qed.

(** A pattern that cannot tell a code unit from its lower case
    matches the lower-cased subject as it matches the subject. *)
Lemma matcher_low (r : regex) :
  caseBlind r ->
  forall c g k k',
    (forall c1 g1, k' (lowCursor c1) (lowCaps g1) = lowOutcome (k c1 g1)) ->
    matcher r (lowCursor c) (lowCaps g) k' = lowOutcome (matcher r c g k).
Proof.
  intros H. induction H as [|p Hp|a b _ IH1 _ IH2|a b _ IH1 _ IH2
                            |gr a _ IH|a _ IH| |];
    intros c g k k' Hk; cbn [matcher].
  - apply Hk.
  - cbn [lowCursor after before]. destruct (after c) as [|x rest];
      [reflexivity|].
    cbn [map]. rewrite Hp. destruct (p x); [|reflexivity].
    apply (Hk (Cursor (x :: before c) rest) g).
  - apply IH1. intros c1 g1. apply IH2. assumption.
  - rewrite (IH1 c g k k' Hk), (IH2 c g k k' Hk).
    destruct (matcher a c g k) as [[c1 g1]|]; reflexivity.
  - replace (length (after (lowCursor c))) with (length (after c))
      by (cbn [lowCursor after]; rewrite length_map; reflexivity).
    apply starLoop_low; assumption.
  - apply IH. intros c1 g1. apply (Hk c1 (Some (c, c1))).
  - cbn [lowCursor before]. destruct (before c); [apply Hk|reflexivity].
  - cbn [lowCursor after]. destruct (after c); [apply Hk|reflexivity].
Qed.

Lemma search_low (r : regex) (Hr : caseBlind r) (aft : list N) :
  forall bef,
    search r (map lowerCU bef) (map lowerCU aft)
    = match search r bef aft with
      | Some fd =>
          Some (Found (lowCursor (m_start fd)) (lowCursor (m_end fd))
                  (lowCaps (m_caps fd)))
      | None => None
      end.
Proof.
  assert (Hm : forall bef aft,
            matcher r (Cursor (map lowerCU bef) (map lowerCU aft)) None accept
            = lowOutcome (matcher r (Cursor bef aft) None accept)).
  { intros bef aft'.
    apply (@matcher_low r Hr (Cursor bef aft') None accept accept).
    reflexivity. }
  induction aft as [|x aft IH]; intros bef.
  - pose proof (Hm bef []) as H0. cbn [map] in H0.
    cbn [search map]. rewrite H0.
    destruct (matcher r (Cursor bef []) None accept) as [[c' g']|];
      reflexivity.
  - pose proof (Hm bef (x :: aft)) as H0. cbn [map] in H0.
    cbn [search map]. rewrite H0.
    destruct (matcher r (Cursor bef (x :: aft)) None accept) as [[c' g']|];
      [reflexivity|].
    cbn [lowOutcome]. apply (IH (x :: bef)).
Qed.

Lemma replace_low (r : regex) (Hr : caseBlind r) (s : jsstring) :
  replace r emptyStr (toLowerCase s) = toLowerCase (replace r emptyStr s).
Proof.
  unfold replace, exec, toLowerCase.
  change (@nil N) with (map lowerCU []) at 1. rewrite (search_low Hr).
  destruct (search r [] s) as [fd|]; [|reflexivity].
  cbn [m_start m_end lowCursor before after emptyStr app].
  rewrite map_app, map_rev. reflexivity.
Qed.

Lemma caseBlind_litI (s : jsstring) : caseBlind (litI s).
Proof.
  assert (Hc : forall c, caseBlind (chrI c)).
  { intros c. constructor. intros x. rewrite canonicalize_lowerCU.
    reflexivity. }
  induction s as [|c s IH]; [constructor|].
  destruct s as [|c' s]; [apply Hc|].
  change (caseBlind (Seq (chrI c) (litI (c' :: s)))).
  constructor; [apply Hc|assumption].
Qed.

Lemma caseBlind_space : caseBlind (star space).
Proof. constructor. constructor. apply isSpace_lowerCU. Qed.

Lemma normDOI_low (s : jsstring) : normDOI (toLowerCase s) = normDOI s.
Proof.
  unfold normDOI.
  replace (truthy (toLowerCase s)) with (truthy s) by (destruct s; reflexivity).
  destruct (truthy s); [|reflexivity]. cbn [negb].
  assert (H1 : caseBlind re_doi_url).
  { unfold re_doi_url, seqs, opt.
    repeat (first [apply caseBlind_litI | apply (caseBlind_litI [115%N])
                  | constructor]). }
  assert (H2 : caseBlind re_doi_label).
  { unfold re_doi_label, seqs.
    repeat (first [apply caseBlind_litI | apply caseBlind_space
                  | constructor]). }
  assert (H3 : caseBlind re_trailing_punct).
  { unfold re_trailing_punct, seqs, oneOf.
    repeat (first [apply caseBlind_space | apply isDoiPunct_lowerCU
                  | constructor]). }
  rewrite trim_low, (replace_low H1), (replace_low H2), (replace_low H3).
  apply toLowerCase_idem.
Qed.

(** X13.  [normDOI] does not depend on the case of the letters of its
    argument: a DOI, its label and its address may be written in
    capitals. *)
Theorem normDOI_case (s : jsstring) : normDOI (toLowerCase s) = normDOI s.
Proof. apply normDOI_low. Qed.

(* ================================================================= *)
(** ** The key and the braces of a synthesized entry *)

Lemma between_prefix (bef aft pre post : list N) :
  aft = pre ++ post ->
  between (Cursor bef aft) (Cursor (rev pre ++ bef) post) = pre.
Proof. intros ->. apply span_between. split; reflexivity. Qed.

(** Deleting the matches of a pattern adds no code unit. *)
Lemma replaceAll_go_delete_In (r : regex) (c : N) (fuel : nat) :
  forall bef aft,
    In c (replaceAll_go fuel r emptyStr bef aft) -> In c aft.
Proof.
  induction fuel as [|fuel IH]; intros bef aft; cbn [replaceAll_go];
    [auto|].
  destruct (search r bef aft) as [fd|] eqn:E; [|auto].
  apply search_sound in E as (pre & post & Haft & Hstart & Hm).
  destruct (matches_span Hm) as [mid [Hmid _]].
  rewrite Hstart in Hmid. cbn [after] in Hmid.
  rewrite Hstart, (@between_prefix bef aft pre post Haft). cbn [emptyStr app after].
  intros H. apply in_app_or in H as [H|H].
  - rewrite Haft. apply in_or_app. left. assumption.
  - assert (Hend : In c (after (m_end fd)) -> In c aft).
    { intros Hc. rewrite Haft, Hmid. apply in_or_app. right.
      apply in_or_app. right. assumption. }
    destruct (length (after (m_end fd)) <? length post).
    + apply Hend. eapply IH. eassumption.
    + destruct (after (m_end fd)) as [|x rest] eqn:Ea; [contradiction|].
      apply Hend. destruct H as [->|H]; [left; reflexivity|].
      right. eapply IH. eassumption.
Qed.

Lemma replace_delete_In (r : regex) (c : N) (s : jsstring) :
  In c (replace r emptyStr s) -> In c s.
Proof.
  unfold replace, exec. destruct (search r [] s) as [fd|] eqn:E; [|auto].
  apply search_sound in E as (pre & post & Hs & Hstart & Hm).
  destruct (matches_span Hm) as [mid [Hmid _]].
  rewrite Hstart in Hmid. cbn [after] in Hmid.
  rewrite Hstart. cbn [before emptyStr app].
  rewrite app_nil_r, rev_involutive, Hs, Hmid. intros H.
  apply in_app_or in H as [H|H]; apply in_or_app; [left; assumption|].
  right. apply in_or_app. right. assumption.
Qed.

Lemma squeeze_chars (p : N -> bool) (rep : jsstring) (c : N) (s : jsstring) :
  forall b, In c (squeeze p rep b s) -> In c s /\ p c = false \/ In c rep.
Proof.
  induction s as [|x s IH]; intros b; cbn [squeeze]; [contradiction|].
  destruct (p x) eqn:Hx.
  - destruct b; intros H.
    + apply IH in H as [[H1 H2]|H]; [left; split; [right|]; assumption|auto].
    + apply in_app_or in H as [H|H]; [auto|].
      apply IH in H as [[H1 H2]|H]; [left; split; [right|]; assumption|auto].
  - intros [->|H]; [left; split; [left; reflexivity|assumption]|].
    apply IH in H as [[H1 H2]|H]; [left; split; [right|]; assumption|auto].
Qed.

(** The slug of a title: lower-case letters, digits and hyphens. *)
Lemma slug_chars (title : jsstring) (c : N) :
  In c (slug title) -> isAlnum c = true \/ c = 45%N.
Proof.
  unfold slug, replaceAll, re_non_alnum. intros H.
  apply replaceAll_go_delete_In in H.
  change (replaceAll_go (S (length (toLowerCase title)))
            (plus (Class (fun x => negb (isLower x || isDigit x))))
            (fun _ => js "-") [] (toLowerCase title))
    with (replaceAll (plus (Class (fun x => negb (isAlnum x))))
            (fun _ => js "-") (toLowerCase title)) in H.
  rewrite replaceAll_plus in H.
  apply squeeze_chars in H as [[_ H]|H].
  - left. apply negb_false_iff. assumption.
  - right. destruct H as [H|[]]. symmetry. assumption.
Qed.

Lemma digits_isDigit (u : Decimal.uint) : forallb isDigit (digits u) = true.
Proof. induction u; cbn [digits forallb]; auto. Qed.

Lemma In_firstn (c : N) (n : nat) (s : jsstring) :
  In c (firstn n s) -> In c s.
Proof.
  intros H. rewrite <- (firstn_skipn n s). apply in_or_app. left. assumption.
Qed.

Lemma citeKey_chars (r : PublicationRecord) (c : N) :
  In c (citeKey r) ->
  isAlnum c = true \/ c = 45%N \/ In c (strOfYear (pub_year r)).
Proof.
  unfold citeKey, or_else, slice. cbn [skipn].
  rewrite Nat.sub_0_r.
  set (k := (if truthyYear (pub_year r)
             then strOfYear (pub_year r) ++ js "-" else [])
            ++ slug (orEmpty (pub_title r))).
  destruct (truthy (firstn 60 k)) eqn:Ht.
  - intros Hc. apply In_firstn in Hc. subst k.
    apply in_app_or in Hc as [Hc|Hc].
    + destruct (truthyYear (pub_year r)); [|contradiction].
      apply in_app_or in Hc as [Hc|[Hc|[]]]; [auto|].
      right. left. symmetry. assumption.
    + apply slug_chars in Hc as [Hc|Hc]; auto.
  - intros Hc. left. vm_compute in Hc.
    repeat (destruct Hc as [<-|Hc]; [reflexivity|]). contradiction.
Qed.

(** X14.  The key of a synthesized entry has 1 to 60 code units,
    each a lower-case letter, a digit or a hyphen, or a code unit of
    the year of the record. *)
Theorem citeKey_shape (r : PublicationRecord) :
  1 <= length (citeKey r) <= 60 /\
  forall c, In c (citeKey r) ->
    isAlnum c = true \/ c = 45%N \/ In c (strOfYear (pub_year r)).
Proof.
  split; [|intros c; apply citeKey_chars].
  unfold citeKey, or_else, slice. cbn [skipn].
  rewrite Nat.sub_0_r.
  destruct (truthy (firstn 60 _)) eqn:Ht.
  - split; [|apply firstn_le_length].
    destruct (firstn 60 _); [discriminate|simpl; lia].
  - vm_compute. split; [lia|]. repeat constructor.
Qed.

Lemma braceFree_In (s : jsstring) :
  braceFree s = true <-> forall c, In c s -> isBrace c = false.
Proof.
  unfold braceFree. rewrite forallb_forall. split; intros H c Hc.
  - apply negb_true_iff. auto.
  - apply negb_true_iff. auto.
Qed.

Lemma braceFree_app (a b : jsstring) :
  braceFree a = true -> braceFree b = true -> braceFree (a ++ b) = true.
Proof.
  unfold braceFree. intros Ha Hb. rewrite forallb_app, Ha, Hb. reflexivity.
Qed.

Lemma braceFree_normDOI (s : jsstring) :
  braceFree s = true -> braceFree (normDOI s) = true.
Proof.
  rewrite !braceFree_In. intros H c Hc. unfold normDOI in Hc.
  destruct (truthy s); [|contradiction]. cbn [negb] in Hc.
  unfold toLowerCase in Hc. apply in_map_iff in Hc as (c0 & <- & Hc).
  do 3 apply replace_delete_In in Hc.
  destruct (trim_spec s) as [(pre & post & Hs) _].
  rewrite isBrace_lowerCU. apply H. rewrite Hs.
  apply in_or_app. right. apply in_or_app. left. assumption.
Qed.

Lemma braceFree_citeKey (r : PublicationRecord) :
  yearBraceFree (pub_year r) = true -> braceFree (citeKey r) = true.
Proof.
  intros Hy. apply braceFree_In. intros c Hc.
  apply citeKey_chars in Hc as [Hc|[->|Hc]].
  - apply isAlnum_not_brace. assumption.
  - reflexivity.
  - destruct (pub_year r) as [|s|n]; cbn [strOfYear] in Hc.
    + vm_compute in Hc.
      repeat (destruct Hc as [<-|Hc]; [reflexivity|]). contradiction.
    + cbn [yearBraceFree] in Hy. rewrite braceFree_In in Hy. auto.
    + pose proof (digits_isDigit (N.to_uint n)) as Hd.
      rewrite forallb_forall in Hd. apply Hd in Hc.
      apply isAlnum_not_brace. unfold isAlnum. rewrite Hc.
      apply orb_true_r.
Qed.

Lemma closes_free_app (a b : jsstring) (d : nat) :
  braceFree a = true -> closes (S d) b -> closes (S d) (a ++ b).
Proof.
  intros Ha Hb. induction a as [|x a IH]; [assumption|].
  cbn [braceFree forallb] in Ha. apply andb_true_iff in Ha as [Hx Ha].
  apply negb_true_iff, orb_false_iff in Hx as [H1 H2].
  apply N.eqb_neq in H1, H2. cbn [app]. constructor; auto.
Qed.

(** The braces of a text of literal characters and brace-free
    values, read from the left. *)
Ltac closes_walk :=
  repeat first
    [ apply closes_last
    | apply closes_close
    | apply closes_open
    | apply closes_other; [discriminate|discriminate|]
    | match goal with
      | |- closes _ (_ ++ _) => apply closes_free_app; [assumption|]
      end ].

Lemma splitBibEntries_well_formed (es : list jsstring) (text : jsstring) :
  well_formed es text -> splitBibEntries text = es.
Proof.
  intros Hwf. unfold splitBibEntries.
  apply (@splitLoop_well_formed es text Hwf (length text) []).
  apply well_formed_length. assumption.
Qed.

Lemma splitBibEntries_single (head body : jsstring) :
  ~ In 123%N head -> ~ In 64%N head -> closes 1 body ->
  splitBibEntries (entryText head body) = [entryText head body].
Proof.
  intros H1 H2 H3. apply splitBibEntries_well_formed.
  apply (@wf_entry_eq [] head body [] []); auto.
  - cbn [app]. rewrite app_nil_r. reflexivity.
  - constructor. auto.
Qed.

(** X15.  The entry synthesized for a record whose title, authors,
    year and DOI hold no brace is read back by the splitter as one
    entry, the whole of it. *)
Theorem bibtexFromPub_splits_back (r : PublicationRecord)
    (Hfree : recordBraceFree r = true) :
  exists e, bibtexFromPub (PObj r) = Normal e /\ splitBibEntries e = [e].
Proof.
  eexists. split; [reflexivity|].
  unfold recordBraceFree in Hfree.
  apply andb_true_iff in Hfree as [Hfree Hd0].
  apply andb_true_iff in Hfree as [Hfree Hy0].
  apply andb_true_iff in Hfree as [Ht0 Ha0].
  pose proof (@braceFree_citeKey r Hy0) as Hkey.
  pose proof (@braceFree_normDOI _ Hd0) as Hdoi.
  assert (Ht : braceFree (strOf (pub_title r)) = true).
  { destruct (pub_title r); [assumption|vm_compute; reflexivity]. }
  assert (Ha : braceFree (strOf (pub_authors r)) = true).
  { destruct (pub_authors r); [assumption|vm_compute; reflexivity]. }
  assert (Hy : braceFree (strOfYear (pub_year r)) = true).
  { destruct (pub_year r) as [|s|n]; [vm_compute; reflexivity|assumption|].
    cbn [strOfYear]. apply braceFree_In. intros c Hc.
    pose proof (digits_isDigit (N.to_uint n)) as Hdg.
    rewrite forallb_forall in Hdg. apply Hdg in Hc.
    apply isAlnum_not_brace. unfold isAlnum. rewrite Hc. apply orb_true_r. }
  unfold bibtexLines. cbv zeta.
  revert Hkey Hdoi Ht Ha Hy.
  generalize (citeKey r) (normDOI (orEmpty (pub_doi r))) (strOf (pub_title r))
    (strOf (pub_authors r)) (strOfYear (pub_year r)).
  intros key doi title authors year Hkey Hdoi Ht Ha Hy.
  destruct (truthyOpt (pub_authors r)), (truthyYear (pub_year r)),
    (truthy doi);
    cbn [flat_map app join]; js_eval; rewrite <- ?app_assoc; cbn [app];
    apply (@splitBibEntries_single [97; 114; 116; 105; 99; 108; 101]%N);
    try (cbn [In]; intuition discriminate);
    closes_walk.
Qed.

(** A record with a title, authors, a year and a DOI. *)
Lemma bibtexFromPub_splits_back_witness :
  exists e,
    bibtexFromPub
      (PObj (mkPub (Some (js "On the minimal BibTeX fallback"))
               (Some (js "Doe, Jane and Roe, R.")) (YNum 2021)
               (Some (js "doi:10.1000/XYZ.1"))))
    = Normal e /\ splitBibEntries e = [e].
Proof.
  apply (@bibtexFromPub_splits_back
           (mkPub (Some (js "On the minimal BibTeX fallback"))
              (Some (js "Doe, Jane and Roe, R.")) (YNum 2021)
              (Some (js "doi:10.1000/XYZ.1")))).
  vm_compute. reflexivity.
Defined.

(* ================================================================= *)
(** ** Loading the bibliography and answering a click *)

(** X16.  After [ensureBibLoaded] the index is built, and it is the
    index of the text held whenever the index held before was;
    a text that is not empty is kept by the next call, whatever could
    be loaded then, and an empty one is loaded again. *)
Theorem ensureBibLoaded_cache (loaded loaded' : jsstring) (st : state) :
  let st1 := fst (ensureBibLoaded loaded st) in
  snd (ensureBibLoaded loaded st) = BIB_TEXT st1 /\
  (exists idx, BIB_INDEX st1 = Some idx) /\
  ((BIB_INDEX st = None \/ BIB_INDEX st = Some (indexOfText (BIB_TEXT st))) ->
   BIB_INDEX st1 = Some (indexOfText (BIB_TEXT st1))) /\
  (BIB_TEXT st1 <> [] -> ensureBibLoaded loaded' st1 = (st1, BIB_TEXT st1)) /\
  (BIB_TEXT st1 = [] ->
   fst (ensureBibLoaded loaded' st1)
   = mkState loaded' (Some (indexOfText loaded'))).
Proof.
  unfold ensureBibLoaded, buildBibIndex. destruct st as [text [idx|]];
    cbn [BIB_TEXT BIB_INDEX].
  - destruct (truthy text) eqn:Ht; cbn [andb fst snd BIB_TEXT BIB_INDEX].
    + split; [reflexivity|]. split; [eauto|].
      split; [intros [H|H]; [discriminate|assumption]|].
      rewrite Ht. cbn [andb]. split; [reflexivity|].
      intros ->. discriminate.
    + split; [reflexivity|]. split; [eauto|]. split; [reflexivity|].
      destruct loaded; cbn [truthy andb fst BIB_TEXT BIB_INDEX];
        split; congruence.
  - rewrite andb_false_r. cbn [fst snd BIB_TEXT BIB_INDEX].
    split; [reflexivity|]. split; [eauto|]. split; [reflexivity|].
    destruct loaded; cbn [truthy andb fst BIB_TEXT BIB_INDEX];
      split; congruence.
Qed.

Lemma findBibEntryFor_normal (st : state) (pub : pubref) :
  exists s, findBibEntryFor st pub = Normal (Some s).
Proof.
  unfold findBibEntryFor, indexProp.
  destruct (BIB_INDEX st) as [idx|]; cbn [bind]; [|eauto].
  destruct (truthy _ && map_has (byDOI idx) _) eqn:E1.
  { apply andb_true_iff in E1 as [_ E1].
    apply map_has_get in E1 as [v ->]. eauto. }
  destruct (truthy _ && map_has (byTitle idx) _) eqn:E2; [|eauto].
  apply andb_true_iff in E2 as [_ E2].
  apply map_has_get in E2 as [v ->]. eauto.
Qed.

Lemma join_cons_nonempty (sep x : jsstring) (a : list jsstring) :
  x <> [] -> join sep (x :: a) <> [].
Proof.
  intros Hx. cbn [join]. destruct a; [assumption|].
  destruct x; [congruence|discriminate].
Qed.

Lemma bibtexLines_nonempty (r : PublicationRecord) :
  join [10%N] (bibtexLines r) <> [].
Proof.
  unfold bibtexLines. cbv zeta. cbn [flat_map app].
  apply join_cons_nonempty. js_eval. discriminate.
Qed.

(** X17.  Once the bibliography text is delivered, [handleCiteClick]
    opens the dialog for every record, with an entry that is not
    empty: the entry that the resolver found, or else the synthesized
    one, and its APA reference; for a record that is [null] or
    [undefined] the alert is shown instead.  The state is that of
    [ensureBibLoaded] either way. *)
Theorem handleCiteClick_outcome (loaded : jsstring) (st : state)
    (pub : pubref) :
  let st' := fst (ensureBibLoaded loaded st) in
  fst (handleCiteClick loaded st pub) = st' /\
  match pub with
  | PObj r =>
      exists entry,
        snd (handleCiteClick loaded st pub)
        = ShowModal (or_else (orEmpty (pub_title r)) (js "Citation"))
            (apaFromBibtexEntry entry) entry /\
        entry <> [] /\
        (findBibEntryFor st' pub = Normal (Some entry) \/
         findBibEntryFor st' pub = Normal (Some []) /\
         bibtexFromPub pub = Normal entry)
  | _ => exists msg, snd (handleCiteClick loaded st pub) = Alert msg
  end.
Proof.
  intros st'. unfold handleCiteClick. fold st'. unfold citation.
  destruct (findBibEntryFor_normal st' pub) as [s Hs]. rewrite Hs.
  cbn [bind truthyOpt orEmpty].
  destruct pub as [| |r].
  - split; [destruct (truthy s); reflexivity|].
    destruct (truthy s); cbn [bind bibtexFromPub prop snd]; eauto.
  - split; [destruct (truthy s); reflexivity|].
    destruct (truthy s); cbn [bind bibtexFromPub prop snd]; eauto.
  - destruct s as [|x s]; cbn [truthy bind bibtexFromPub prop snd fst].
    + split; [reflexivity|]. eexists. split; [reflexivity|].
      split; [apply bibtexLines_nonempty|]. right. split; reflexivity.
    + split; [reflexivity|]. eexists. split; [reflexivity|].
      split; [discriminate|]. left. reflexivity.
Qed.

(* ================================================================= *)
(** ** Authors *)

(** X18.  Every author that [splitBibAuthors] returns is non-empty,
    holds no brace and has no white space at either end; an empty
    field has no author. *)
Theorem splitBibAuthors_authors (s : jsstring) :
  Forall (fun a => a <> [] /\ braceFree a = true /\
                   firstIs isSpace a = false /\ lastIs isSpace a = false)
    (splitBibAuthors s) /\
  splitBibAuthors [] = [].
Proof.
  split; [|reflexivity]. unfold splitBibAuthors.
  destruct (truthy s); cbn [negb]; [|constructor].
  apply Forall_forall. intros a Ha. unfold nonEmpty in Ha.
  apply filter_In in Ha as [Ha Hne].
  apply in_map_iff in Ha as (x & <- & _).
  split; [apply truthy_nonempty; assumption|].
  destruct (trim_spec (replaceAll re_braces emptyStr x))
    as ((pre & post & Hp) & Hf & Hl).
  split; [|split; assumption].
  apply braceFree_In. intros c Hc.
  assert (Hin : In c (replaceAll re_braces emptyStr x)).
  { rewrite Hp. apply in_or_app. right. apply in_or_app. left. assumption. }
  unfold re_braces, oneOf in Hin. rewrite replaceAll_class_delete in Hin.
  apply filter_In in Hin as [_ Hin]. apply negb_true_iff in Hin.
  change (js "{}") with [123; 125]%N in Hin. cbn [existsb] in Hin.
  rewrite orb_false_r in Hin. exact Hin.
Qed.

(** X19.  Of more than twenty authors the first nineteen and the last
    are named, with an ellipsis between them: the others do not
    appear. *)
Theorem formatAuthorsAPA_elides (front mid : list jsstring) (z : jsstring)
    (Hfront : length front = 19) (Hmid : mid <> []) :
  formatAuthorsAPA (front ++ mid ++ [z])
  = join (js ", ") (map nameToApa front) ++ js ", …, " ++ nameToApa z.
Proof.
  unfold formatAuthorsAPA. cbv zeta.
  assert (Hlen : length (map nameToApa (front ++ mid ++ [z]))
                 = 20 + length mid).
  { rewrite length_map, !length_app, Hfront. simpl. lia. }
  assert (Hm : 1 <= length mid) by (destruct mid; [congruence|simpl; lia]).
  rewrite Hlen.
  destruct (Nat.eqb_spec (20 + length mid) 0) as [E|_]; [lia|].
  destruct (Nat.leb_spec (20 + length mid) 20) as [E|_]; [lia|].
  f_equal.
  - f_equal. rewrite map_app, <- Hfront, <- (length_map nameToApa front).
    apply firstn_app_length.
  - f_equal. rewrite app_assoc, map_app. cbn [map]. apply last_last.
Qed.

Lemma formatAuthorsAPA_elides_witness :
  formatAuthorsAPA
    (repeat (js "Doe, Jane") 19 ++ [js "Roe, Richard"; js "Moe, M."]
     ++ [js "Poe, Edgar Allan"])
  = join (js ", ") (map nameToApa (repeat (js "Doe, Jane") 19))
    ++ js ", …, " ++ nameToApa (js "Poe, Edgar Allan").
Proof.
  apply (@formatAuthorsAPA_elides (repeat (js "Doe, Jane") 19)
           [js "Roe, Richard"; js "Moe, M."] (js "Poe, Edgar Allan")).
  - vm_compute. reflexivity.
  - discriminate.
Defined.

(* ================================================================= *)
(** ** The category of a map pin *)

Lemma splitChar_go_first (ch : N) (s : jsstring) :
  forall cur,
    nth 0 (splitChar_go ch cur s) []
    = rev cur ++ fst (spanOf (fun c => negb (c =? ch)%N) s).
Proof.
  induction s as [|x s IH]; intros cur; cbn [splitChar_go spanOf].
  - cbn [nth fst]. symmetry. apply app_nil_r.
  - destruct (x =? ch)%N; cbn [negb].
    + cbn [nth fst]. symmetry. apply app_nil_r.
    + rewrite IH. destruct (spanOf _ s) as [run rest]. cbn [fst rev].
      rewrite <- app_assoc. reflexivity.
Qed.

Lemma splitChar_first (ch : N) (s : jsstring) :
  nth 0 (splitChar s ch) [] = fst (spanOf (fun c => negb (c =? ch)%N) s).
Proof. unfold splitChar. apply splitChar_go_first. Qed.

Lemma spanOf_twice (p q : N -> bool) (s : jsstring) :
  fst (spanOf q (fst (spanOf p s))) = fst (spanOf (fun c => p c && q c) s).
Proof.
  induction s as [|x s IH]; [reflexivity|]. cbn [spanOf].
  destruct (p x) eqn:Hp; cbn [andb]; [|reflexivity].
  destruct (spanOf p s) as [run rest] eqn:E1. cbn [fst spanOf] in *.
  destruct (q x); [|reflexivity].
  destruct (spanOf q run) as [run' rest'].
  destruct (spanOf (fun c => p c && q c) s) as [run2 rest2].
  cbn [fst] in *. congruence.
Qed.

Lemma spanOf_idem (p : N -> bool) (s : jsstring) :
  fst (spanOf p (fst (spanOf p s))) = fst (spanOf p s).
Proof.
  rewrite spanOf_twice. f_equal. induction s as [|x s IH]; [reflexivity|].
  cbn [spanOf]. rewrite andb_diag. destruct (p x); [|reflexivity].
  rewrite IH. reflexivity.
Qed.

(** The head of a description: what precedes its first dash. *)
Lemma head_of_desc (d : jsstring) :
  nth 0 (splitChar (nth 0 (splitChar d 8211) []) 45) []
  = fst (spanOf (fun c => negb (c =? 8211)%N && negb (c =? 45)%N) d).
Proof. rewrite !splitChar_first. apply spanOf_twice. Qed.

(** X20.  The category of a pin is one of [work], [project], [talk]
    and [publication], and depends only on what its description holds
    before the first en dash or hyphen. *)
Theorem getCategory_head (desc : jsstring) :
  In (getCategory (Some desc))
     [js "work"; js "project"; js "talk"; js "publication"] /\
  getCategory (Some desc)
  = getCategory
      (Some (fst (spanOf (fun c => negb (c =? 8211)%N && negb (c =? 45)%N)
                    desc))).
Proof.
  split.
  - unfold getCategory. cbv zeta.
    repeat (destruct (startsWith _ _); [cbn [In]; auto 6|]).
    cbn [In]. auto.
  - unfold getCategory. cbn [orEmpty]. rewrite !head_of_desc, spanOf_idem.
    reflexivity.
Qed.

(* ================================================================= *)
(** ** The resolver and the case of letters *)

(** X21.  The entry that the resolver returns for a record does not
    depend on the case of the letters of its DOI and of its title. *)
Theorem findBibEntryFor_case (st : state) (r : PublicationRecord) :
  findBibEntryFor st
    (PObj (mkPub (option_map toLowerCase (pub_title r)) (pub_authors r)
             (pub_year r) (option_map toLowerCase (pub_doi r))))
  = findBibEntryFor st (PObj r).
Proof.
  unfold findBibEntryFor. cbn [optProp pub_doi pub_title].
  replace (orEmpty (option_map toLowerCase (pub_doi r)))
    with (toLowerCase (orEmpty (pub_doi r)))
    by (destruct (pub_doi r); reflexivity).
  replace (orEmpty (option_map toLowerCase (pub_title r)))
    with (toLowerCase (orEmpty (pub_title r)))
    by (destruct (pub_title r); reflexivity).
  rewrite normDOI_low, normalizeTitle_low. reflexivity.
Qed.

(* ================================================================= *)
(** ** The spacing of a reference *)

Lemma squeeze_spaced (p : N -> bool) (Hp : p 32%N = true) (s : jsstring) :
  forall b,
    forallb (fun c => negb (p c) || (c =? 32)%N) (squeeze p (js " ") b s)
    = true /\
    noDoubleSpace (squeeze p (js " ") b s) = true /\
    (b = true -> firstIs (N.eqb 32) (squeeze p (js " ") b s) = false).
Proof.
  change (js " ") with [32%N].
  induction s as [|x s IH]; intros b; [auto|].
  cbn [squeeze]. destruct (p x) eqn:Hx.
  - destruct (IH true) as (H1 & H2 & H3). destruct b; [auto|].
    cbn [app forallb]. rewrite H1, orb_true_r. repeat split; [|discriminate].
    cbn [noDoubleSpace]. specialize (H3 eq_refl).
    destruct (squeeze _ _ true s) as [|y l] eqn:E; [reflexivity|].
    cbn [firstIs] in H3. rewrite (N.eqb_sym y 32), H3, H2. reflexivity.
  - assert (Hne : (x =? 32)%N = false).
    { destruct (N.eqb_spec x 32) as [->|]; [congruence|reflexivity]. }
    destruct (IH false) as (H1 & H2 & _). cbn [forallb firstIs].
    rewrite Hx, H1. cbn [negb orb andb]. repeat split.
    + cbn [noDoubleSpace].
      destruct (squeeze _ _ false s) as [|y l] eqn:E; [reflexivity|].
      rewrite Hne, H2. reflexivity.
    + intros _. rewrite N.eqb_sym. assumption.
Qed.

(** Removing [X\s*$], for a class [X], leaves the text before it. *)
Lemma strip_class_prefix (p : N -> bool) (w : jsstring) :
  exists post,
    w = replace (seqs [Class p; star space; Eol]) emptyStr w ++ post.
Proof.
  unfold replace, exec.
  destruct (search (seqs [Class p; star space; Eol]) [] w) as [fd|] eqn:E;
    [|exists []; symmetry; apply app_nil_r].
  apply search_sound in E as (pre & post & Hw & Hstart & Hm).
  rewrite Hstart in Hm.
  apply matches_class_spaces_eol in Hm as (x & mid & -> & Hx & Hall & Hend).
  rewrite Hstart, Hend. cbn [before emptyStr app].
  rewrite !app_nil_r, rev_involutive. exists (x :: mid). assumption.
Qed.

Lemma spaced_prefix (a b : jsstring) : spaced (a ++ b) = true -> spaced a = true.
Proof.
  unfold spaced. intros H.
  apply andb_true_iff in H as [H H3]. apply andb_true_iff in H as [H1 H2].
  rewrite forallb_app in H1. apply andb_true_iff in H1 as [H1 _].
  apply noDoubleSpace_app_l in H2. apply negb_true_iff in H3.
  apply firstIs_prefix in H3. rewrite H1, H2, H3. reflexivity.
Qed.

Lemma spaced_trim_squeeze (raw : jsstring) :
  spaced (trim (squeeze isSpace (js " ") false raw)) = true.
Proof.
  destruct (@squeeze_spaced isSpace eq_refl raw false) as (H1 & H2 & _).
  destruct (trim_spec (squeeze isSpace (js " ") false raw))
    as (Hp & Hf & _).
  unfold spaced. rewrite (forallb_piece _ Hp H1). cbn [andb].
  apply andb_true_iff. split.
  - destruct Hp as (pre & post & Hu). rewrite Hu in H2.
    apply noDoubleSpace_app_r in H2. apply noDoubleSpace_app_l in H2.
    assumption.
  - apply negb_true_iff. destruct (trim _) as [|c l]; [reflexivity|].
    cbn [firstIs] in *.
    destruct (N.eqb_spec 32 c) as [<-|]; [discriminate Hf|reflexivity].
Qed.

Lemma squeeze_solid_prefix (p : N -> bool) (rep m c : jsstring) :
  forallb (fun x => negb (p x)) m = true ->
  squeeze p rep false (m ++ c) = m ++ squeeze p rep false c.
Proof.
  induction m as [|x m IH]; [reflexivity|]. cbn [forallb app squeeze].
  intros H. apply andb_true_iff in H as [Hx H].
  apply negb_true_iff in Hx. rewrite Hx, IH by assumption. reflexivity.
Qed.

(** A run of other characters stands as it is between what the
    squeezing makes of the text before it and of the text after it. *)
Lemma squeeze_app_solid (p : N -> bool) (rep a m c : jsstring) :
  forallb (fun x => negb (p x)) m = true -> m <> [] ->
  forall b,
    squeeze p rep b (a ++ m ++ c)
    = squeeze p rep b a ++ m ++ squeeze p rep false c.
Proof.
  intros Hm Hne. induction a as [|y a IH]; intros b.
  - destruct m as [|x m]; [congruence|]. cbn [forallb] in Hm.
    apply andb_true_iff in Hm as [Hx Hm]. apply negb_true_iff in Hx.
    cbn [app squeeze]. rewrite Hx. f_equal.
    apply squeeze_solid_prefix. assumption.
  - cbn [app squeeze]. destruct (p y); [destruct b|]; rewrite IH;
      [reflexivity| |reflexivity].
    rewrite <- app_assoc. reflexivity.
Qed.

Lemma squeeze_keeps (p : N -> bool) (rep : jsstring) (c : N) (s : jsstring) :
  In c s -> p c = false -> forall b, In c (squeeze p rep b s).
Proof.
  intros Hin Hc. induction s as [|x s IH]; intros b; [contradiction|].
  cbn [squeeze]. destruct Hin as [->|Hin].
  - rewrite Hc. left. reflexivity.
  - destruct (p x); [destruct b|]; auto.
    + apply in_or_app. right. auto.
    + right. auto.
Qed.

Lemma trimStart_solid (x m z : jsstring) :
  solid m = true -> m <> [] ->
  exists x', trimStart (x ++ m ++ z) = x' ++ m ++ z /\
             forall c, In c x -> isSpace c = false -> In c x'.
Proof.
  intros Hm Hne. induction x as [|y x IH].
  - exists []. split; [|intros c []].
    destruct m as [|c m]; [congruence|]. cbn [solid forallb] in Hm.
    apply andb_true_iff in Hm as [Hc _]. apply negb_true_iff in Hc.
    cbn [app trimStart]. rewrite Hc. reflexivity.
  - cbn [app trimStart]. destruct (isSpace y) eqn:Hy.
    + destruct IH as (x' & H1 & H2). exists x'. split; [assumption|].
      intros c [->|Hc] Hsp; [congruence|auto].
    + exists (y :: x). split; [reflexivity|auto].
Qed.

(** Trimming a text takes nothing of a run without white space, and
    nothing that is not white space. *)
Lemma trim_solid (x m z : jsstring) :
  solid m = true -> m <> [] ->
  exists x' z', trim (x ++ m ++ z) = x' ++ m ++ z' /\
                forall c, In c z -> isSpace c = false -> In c z'.
Proof.
  intros Hm Hne. unfold trim, trimEnd.
  destruct (trimStart_solid x z Hm Hne) as (x' & -> & _).
  assert (Hm' : solid (rev m) = true).
  { unfold solid. rewrite forallb_rev. assumption. }
  assert (Hne' : rev m <> []).
  { intros E. apply Hne. rewrite <- (rev_involutive m), E. reflexivity. }
  destruct (trimStart_solid (rev z) (rev x') Hm' Hne') as (z' & Hz & Hin).
  replace (rev (x' ++ m ++ z)) with (rev z ++ rev m ++ rev x')
    by (rewrite !rev_app_distr, <- app_assoc; reflexivity).
  rewrite Hz. exists x', (rev z'). split.
  - rewrite !rev_app_distr, !rev_involutive, <- app_assoc. reflexivity.
  - intros c Hc Hsp. rewrite <- in_rev. apply Hin; [|assumption].
    rewrite <- in_rev. assumption.
Qed.

Lemma spaces_before (u v w t : jsstring) (c : N) :
  u ++ c :: v = w ++ t -> forallb isSpace w = true -> isSpace c = false ->
  length w <= length u.
Proof.
  revert w. induction u as [|y u IH]; intros [|x w] H Hw Hc;
    cbn [length]; try lia.
  - cbn [app] in H. injection H as -> _. cbn [forallb] in Hw.
    rewrite Hc in Hw. discriminate.
  - cbn [app] in H. injection H as -> H. cbn [forallb] in Hw.
    apply andb_true_iff in Hw as [_ Hw]. specialize (IH w H Hw Hc). lia.
Qed.

(** Removing [\.\s*$] takes nothing before the last code unit that is
    not white space. *)
Lemma strip_period_after (pre z : jsstring) (c : N) :
  In c z -> isSpace c = false ->
  exists z', replace re_trailing_period emptyStr (pre ++ z) = pre ++ z'.
Proof.
  intros Hin Hc. unfold replace, exec.
  destruct (search re_trailing_period [] (pre ++ z)) as [fd|] eqn:E;
    [|exists z; reflexivity].
  apply search_sound in E as (body & post & Hw & Hstart & Hm).
  rewrite Hstart in Hm. unfold re_trailing_period, chr in Hm.
  apply matches_class_spaces_eol in Hm as (x & mid & -> & Hx & Hall & Hend).
  rewrite Hstart, Hend. cbn [before emptyStr app].
  rewrite !app_nil_r, rev_involutive.
  apply in_split in Hin as (z1 & z2 & ->).
  assert (Hlen : length mid <= length z2).
  { assert (Hr : rev z2 ++ c :: rev (pre ++ z1) = rev mid ++ x :: rev body).
    { replace (rev z2 ++ c :: rev (pre ++ z1))
        with (rev ((pre ++ z1) ++ c :: z2))
        by (rewrite rev_app_distr; cbn [rev]; rewrite <- app_assoc;
            reflexivity).
      rewrite <- app_assoc, Hw, rev_app_distr. cbn [rev].
      rewrite <- app_assoc. reflexivity. }
    apply spaces_before in Hr; [|rewrite forallb_rev; assumption|assumption].
    rewrite !length_rev in Hr. assumption. }
  rewrite app_assoc in Hw. symmetry in Hw.
  apply app_eq_app in Hw as [l [[Hb Hz]|[Hb Hz]]].
  - exists (z1 ++ l). rewrite Hb, <- app_assoc. reflexivity.
  - assert (Hl : l = []).
    { apply (f_equal (@length N)) in Hz. rewrite length_app in Hz.
      cbn [length] in Hz. destruct l; [reflexivity|].
      cbn [length] in Hz. lia. }
    subst l. rewrite app_nil_r in Hb. exists z1. rewrite Hb. reflexivity.
Qed.

Lemma truthy_app_cons (a z : jsstring) (c : N) : truthy (a ++ c :: z) = true.
Proof. destruct a; reflexivity. Qed.

(** The year component in the text that the reference is made of. *)
Lemma reference_parts (authors year title tail : jsstring) :
  exists A B,
    join (js " ")
      (nonEmpty
         [join (js " ")
            (nonEmpty [authors; js "(" ++ year ++ js ")."; title ++ js "."]);
          tail])
    = A ++ (js "(" ++ year ++ js ").") ++ B /\
    In 46%N B.
Proof.
  change (js "(") with [40%N]. change (js ").") with [41%N; 46%N].
  change (js ".") with [46%N]. change (js " ") with [32%N].
  set (Y := [40%N] ++ year ++ [41%N; 46%N]).
  set (T := title ++ [46%N]).
  assert (HY : truthy Y = true) by reflexivity.
  assert (HT : truthy T = true) by apply truthy_app_cons.
  assert (HinT : In 46%N T).
  { apply in_or_app. right. left. reflexivity. }
  assert (Hhead : exists A,
            join [32%N] (nonEmpty [authors; Y; T]) = A ++ Y ++ 32%N :: T).
  { unfold nonEmpty. cbn [filter]. rewrite HY, HT.
    destruct (truthy authors); cbn [join].
    - exists (authors ++ [32%N]). rewrite <- !app_assoc. reflexivity.
    - exists []. reflexivity. }
  destruct Hhead as [A ->].
  assert (Hh : truthy (A ++ Y ++ 32%N :: T) = true).
  { destruct A; reflexivity. }
  unfold nonEmpty. cbn [filter]. rewrite Hh.
  destruct (truthy tail); cbn [join].
  - exists A, ((32%N :: T) ++ 32%N :: tail).
    split; [rewrite <- !app_assoc; reflexivity|].
    apply in_or_app. left. right. assumption.
  - exists A, (32%N :: T). split; [reflexivity|]. right. assumption.
Qed.

Lemma apaYear_solid (entry : jsstring) : solid (apaYear entry) = true.
Proof.
  unfold apaYear, exec.
  pose proof (search_year (apaYearRaw entry) []) as H.
  destruct (search re_year [] (apaYearRaw entry)) as [fd|];
    [|vm_compute; reflexivity].
  apply firstRun4_digits in H as (_ & _ & _ & Hl & Hd).
  unfold or_else. destruct (truthy (matched fd)); [|vm_compute; reflexivity].
  unfold solid. apply forallb_forall. intros c Hc.
  rewrite forallb_forall in Hd. apply Hd in Hc. apply negb_true_iff.
  apply isAlnum_not_space. unfold isAlnum. rewrite Hc. apply orb_true_r.
Qed.

Lemma or_else_twice (a c : jsstring) : or_else a (or_else a c) = or_else a c.
Proof. unfold or_else. destruct (truthy a) eqn:E; [reflexivity|]. reflexivity. Qed.

(** X22.  A reference is a text whose only white space is single
    spaces, with none in front, that holds the year between
    parentheses and a period; when the normalized DOI of the entry
    (of its field [doi], or else of a field [url] that names
    [doi.org]) is not empty, a period, a space and the address of that
    DOI follow, and nothing follows otherwise: the text then has no
    white space at its end either. *)
Theorem apaFromBibtexEntry_spacing (entry : jsstring) :
  let doi := normDOI (doiSource entry) in
  exists pre post,
    apaFromBibtexEntry entry
    = (pre ++ (js "(" ++ apaYear entry ++ js ").") ++ post)
      ++ (if truthy doi then js ". https://doi.org/" ++ doi else []) /\
    spaced (pre ++ (js "(" ++ apaYear entry ++ js ").") ++ post) = true /\
    (doi = [] ->
     lastIs isSpace (pre ++ (js "(" ++ apaYear entry ++ js ").") ++ post)
     = false).
Proof.
  intros doi. unfold apaFromBibtexEntry. cbv zeta.
  rewrite (@getBibField_same_name entry (js "DOI") (js "doi"))
    by (vm_compute; reflexivity).
  rewrite or_else_twice. fold (doiSource entry).
  match goal with
  | |- context [join ?s (nonEmpty [join ?s2 (nonEmpty [?a; ?y; ?t ++ ?d]); ?tl])] =>
      destruct (reference_parts a (apaYear entry) t tl) as (A & B & HX & HB);
      set (X := join s (nonEmpty [join s2 (nonEmpty [a; y; t ++ d]); tl])) in *
  end.
  match type of HX with ?l = _ => change l with X in HX end.
  rewrite HX. clear HX X.
  set (Y := js "(" ++ apaYear entry ++ js ").") in *.
  assert (HY : solid Y = true).
  { subst Y. unfold solid. rewrite !forallb_app.
    fold (solid (apaYear entry)). rewrite apaYear_solid. reflexivity. }
  assert (HYne : Y <> []) by (subst Y; js_eval; discriminate).
  unfold re_spaces, space. rewrite replaceAll_plus.
  pose proof (spaced_trim_squeeze (A ++ Y ++ B)) as Hs.
  destruct (trim_spec (squeeze isSpace (js " ") false (A ++ Y ++ B)))
    as (_ & _ & Hl).
  destruct (@trim_solid (squeeze isSpace (js " ") false A) Y
              (squeeze isSpace (js " ") false B) HY HYne)
    as (x' & z' & Href & Hin).
  rewrite <- (@squeeze_app_solid isSpace (js " ") A Y B HY HYne false)
    in Href.
  set (R := trim (squeeze isSpace (js " ") false (A ++ Y ++ B))) in *.
  clearbody R. subst R.
  assert (H46 : In 46%N z').
  { apply Hin; [|reflexivity]. apply squeeze_keeps; [assumption|reflexivity]. }
  unfold formatDOIUrl. cbv zeta. fold doi.
  destruct (truthy doi) eqn:Hd.
  - replace (truthy (js "https://doi.org/" ++ doi)) with true
      by (js_eval; reflexivity).
    destruct (@strip_period_after (x' ++ Y) z' 46 H46 eq_refl) as [z'' Hz].
    rewrite <- !app_assoc in Hz.
    destruct (strip_class_prefix (N.eqb 46) (x' ++ Y ++ z')) as [post Hp].
    change (seqs [Class (N.eqb 46); star space; Eol])
      with re_trailing_period in Hp.
    rewrite Hz in Hp |- *. exists x', z''.
    split; [js_eval; cbn [app]; rewrite <- !app_assoc; reflexivity|].
    split; [|intros E; rewrite E in Hd; discriminate].
    apply (@spaced_prefix _ post). rewrite <- Hp. assumption.
  - cbn [truthy]. exists x', z'. rewrite app_nil_r.
    split; [reflexivity|]. split; [assumption|]. intros _. assumption.
Qed.

(* ================================================================= *)
(** ** Escaping loses nothing *)

Lemma special_cases (x : N) :
  existsb (N.eqb x) [38; 60; 62; 34; 39]%N = true ->
  x = 38%N \/ x = 60%N \/ x = 62%N \/ x = 34%N \/ x = 39%N.
Proof.
  cbn [existsb]. rewrite !orb_true_iff, !N.eqb_eq. intuition discriminate.
Qed.

(** The entity of a character, or the character, tells which
    character it stands for. *)
Lemma entity_prefix (x y : N) (a b : jsstring) :
  (if existsb (N.eqb x) [38; 60; 62; 34; 39]%N then entityOf [x] else [x]) ++ a
  = (if existsb (N.eqb y) [38; 60; 62; 34; 39]%N then entityOf [y] else [y])
    ++ b ->
  x = y /\ a = b.
Proof.
  destruct (existsb (N.eqb x) _) eqn:Ex, (existsb (N.eqb y) _) eqn:Ey.
  - apply special_cases in Ex, Ey.
    destruct Ex as [->|[->|[->|[->| ->]]]], Ey as [->|[->|[->|[->| ->]]]];
      cbn [entityOf]; js_eval; cbn [app]; intros H;
      first [discriminate H | split; [reflexivity|congruence]].
  - apply special_cases in Ex.
    destruct Ex as [->|[->|[->|[->| ->]]]];
      cbn [entityOf]; js_eval; cbn [app]; intros H; injection H as <- _;
      discriminate Ey.
  - apply special_cases in Ey.
    destruct Ey as [->|[->|[->|[->| ->]]]];
      cbn [entityOf]; js_eval; cbn [app]; intros H; injection H as -> _;
      discriminate Ex.
  - cbn [app]. intros H. injection H as -> ->. auto.
Qed.

(** X23.  [esc] loses nothing: two texts have the same escaped form
    only when they are the same text. *)
Theorem esc_lossless (s t : jsstring) :
  esc (Some s) = esc (Some t) <-> s = t.
Proof.
  split; [|intros ->; reflexivity].
  rewrite !esc_flat_map. cbn [orEmpty]. revert t.
  induction s as [|x s IH]; intros [|y t]; cbn [flat_map].
  - reflexivity.
  - intros H. exfalso. symmetry in H. apply app_eq_nil in H as [H _].
    destruct (existsb (N.eqb y) _) eqn:Ey; [|discriminate H].
    apply special_cases in Ey.
    destruct Ey as [->|[->|[->|[->| ->]]]]; vm_compute in H; discriminate H.
  - intros H. exfalso. apply app_eq_nil in H as [H _].
    destruct (existsb (N.eqb x) _) eqn:Ex; [|discriminate H].
    apply special_cases in Ex.
    destruct Ex as [->|[->|[->|[->| ->]]]]; vm_compute in H; discriminate H.
  - intros H. apply entity_prefix in H as [-> H]. f_equal. apply IH.
    assumption.
Qed.

(* ================================================================= *)
(** ** Every entry can be found *)

(** X24.  An entry of the text with a normalized DOI is found by a
    record with that DOI, and an entry with a normalized title by a
    record with that title whose DOI is not in the text; what is
    found is an entry of the text with the same key, the last in
    source order. *)
Theorem findBibEntryFor_complete (bib : jsstring) (st : state) (pub : pubref)
    (e : jsstring) (Hin : In e (splitBibEntries bib)) :
  (doiKey e <> [] ->
   normDOI (orEmpty (optProp pub_doi pub)) = doiKey e ->
   exists e',
     findBibEntryFor (buildBibIndex bib st) pub = Normal (Some e') /\
     lastWith doiKey (doiKey e) (splitBibEntries bib) = Some e' /\
     doiKey e' = doiKey e /\ In e' (splitBibEntries bib)) /\
  (titleKey e <> [] ->
   lastWith doiKey (normDOI (orEmpty (optProp pub_doi pub)))
     (splitBibEntries bib) = None ->
   normalizeTitle (orEmpty (optProp pub_title pub)) = titleKey e ->
   exists e',
     findBibEntryFor (buildBibIndex bib st) pub = Normal (Some e') /\
     lastWith titleKey (titleKey e) (splitBibEntries bib) = Some e' /\
     titleKey e' = titleKey e /\ In e' (splitBibEntries bib)).
Proof.
  unfold findBibEntryFor, buildBibIndex, indexProp. cbn [BIB_INDEX bind].
  unfold map_has. rewrite byDOI_get, byTitle_get. split.
  - intros Hne Hd. destruct (lastWith_In doiKey e _ Hin Hne) as [e' He'].
    exists e'. rewrite Hd, He'. apply truthy_nonempty in Hne. rewrite Hne.
    split; [reflexivity|]. split; [reflexivity|].
    apply lastWith_Some in He'. tauto.
  - intros Hne Hd Ht.
    destruct (lastWith_In titleKey e _ Hin Hne) as [e' He'].
    exists e'. rewrite Hd, Ht, He', andb_false_r.
    apply truthy_nonempty in Hne. rewrite Hne.
    split; [reflexivity|]. split; [reflexivity|].
    apply lastWith_Some in He'. tauto.
Qed.

(** The first entry of [twoEntries] is found by its DOI, written as
    an address in capitals. *)
Lemma findBibEntryFor_complete_witness :
  exists e',
    findBibEntryFor (buildBibIndex twoEntries initialState) pubA
    = Normal (Some e') /\
    doiKey e' = js "10.1/a".
Proof.
  destruct (@findBibEntryFor_complete twoEntries initialState pubA
              (js "@article{a, title = {Same title}, doi = {10.1/a}}"))
    as [H _].
  - vm_compute. auto.
  - destruct H as (e' & H1 & _ & H2 & _).
    + vm_compute. discriminate.
    + vm_compute. reflexivity.
    + exists e'. split; [exact H1|]. rewrite H2. vm_compute. reflexivity.
Defined.
